(** * SwanEditor: the graph store, its connection cache and the pointer
    interactions, embedded from [SwanEditor.js].

    Conventions of the embedding.
    - A JS [Map] is an association list in insertion order with unique keys,
      a JS [Set] a duplicate-free list in insertion order.
    - A plain JS object used as a record of open fields ([node.data],
      [edge.style], [edge.data]) is a [gmap string Value]; object spread
      [{...a, ...b}] and [Object.assign(a, b)] are [b ∪ a].
    - Numbers are exact rationals [Q]; strict (in)equality of numbers is
      [Qeq_bool].  NaN and the infinities are not represented.
    - [Math.random()] is an oracle carried by the editor: [random] is the
      sequence of draws and [drawn] counts the draws consumed.
    - The id counters are natural numbers (they never reach the range where
      a JS number stops growing by one); an id is the text
      ["node-" + counter] or ["edge-" + counter].
    - A method is a state transformer that returns either a value or a
      raised exception, with the state as it is at that point.
    - DOM work (elements, classes, SVG paths, timers) has no effect on the
      store and is left out; lifecycle hooks and user callbacks are opaque
      and assumed to return without calling back into the editor.  What the
      code does to reach a hook (looking the node type up) is kept. *)

From Stdlib Require Import QArith Qround Qminmax Lqa.
From stdpp Require Import base decidable option list strings gmap pretty.

Set Warnings "-clear-no-such-hyp".

Local Open Scope string_scope.
Local Open Scope list_scope.

(** ** JS [Map] and [Set] *)

Section JsMap.
Context {K V : Type} `{EqDecision K}.

Fixpoint jm_get (k : K) (m : list (K * V)) : option V :=
  match m with
  | [] => None
  | (k', v) :: m' => if decide (k = k') then Some v else jm_get k m'
  end.

Definition jm_has (k : K) (m : list (K * V)) : bool :=
  match jm_get k m with Some _ => true | None => false end.

(** [m.set(k, v)]: an existing key keeps its place, a new one goes last. *)
Fixpoint jm_set (k : K) (v : V) (m : list (K * V)) : list (K * V) :=
  match m with
  | [] => [(k, v)]
  | (k', v') :: m' =>
      if decide (k = k') then (k, v) :: m' else (k', v') :: jm_set k v m'
  end.

Definition jm_delete (k : K) (m : list (K * V)) : list (K * V) :=
  filter (λ p, p.1 ≠ k) m.

(** In-place mutation of the object stored under [k]. *)
Fixpoint jm_alter (f : V → V) (k : K) (m : list (K * V)) : list (K * V) :=
  match m with
  | [] => []
  | (k', v) :: m' =>
      if decide (k = k') then (k', f v) :: m' else (k', v) :: jm_alter f k m'
  end.

Definition jm_keys (m : list (K * V)) : list K := m.*1.
Definition jm_values (m : list (K * V)) : list V := m.*2.
End JsMap.

Section JsSet.
Context {A : Type} `{EqDecision A}.

Definition js_has (a : A) (s : list A) : bool := bool_decide (a ∈ s).
Definition js_add (a : A) (s : list A) : list A :=
  if js_has a s then s else s ++ [a].
Definition js_delete (a : A) (s : list A) : list A := filter (λ b, b ≠ a) s.
End JsSet.

(** ** Data model *)

Inductive Value :=
  | VNum (q : Q)
  | VStr (s : string)
  | VBool (b : bool)
  | VNull.

Abbreviation Obj := (gmap string Value).

Record Position := mkPos { pos_x : Q; pos_y : Q }.

(** The [position] argument of [createNode]: an object whose [x] and [y] may
    be missing. *)
Record PositionArg := mkPosArg { arg_x : option Q; arg_y : option Q }.

Record Node := mkNode {
  node_id : string;
  node_type : string;
  node_position : Position;
  node_data : Obj
}.

Record Edge := mkEdge {
  edge_id : string;
  edge_source : string;
  edge_target : string;
  edge_style : Obj;
  edge_data : Obj
}.

(** [connectionCache] entry: two sets of edge ids. *)
Record CacheEntry := mkCache { inputs : list string; outputs : list string }.

Record DragState := mkDrag {
  drag_nodes : list string;
  drag_primary : string;          (* id of the [primary] node object *)
  offsetX : Q;
  offsetY : Q;
  startPositions : list (string * Position)
}.

Record ConnectionState := mkConn {
  sourceNodeId : string;
  sourcePortType : string
}.

Record ClipNode := mkClipNode {
  clip_type : string;
  clip_data : Obj;
  clip_position : Position
}.

Record Clipboard := mkClip {
  clip_nodes : list ClipNode;
  clip_edges : list Edge
}.

Record Options := mkOptions {
  gridSize : Q;
  edgeStyle : Obj;
  nodeDefaults : Obj;
  callbacks : list string          (* names that have a handler *)
}.

(** One delivered callback: its name and the id of the entity passed. *)
Record Event := mkEvent { ev_name : string; ev_subject : string }.

Record Editor := mkEditor {
  options : Options;
  nodes : list (string * Node);
  edges : list (string * Edge);
  selectedNodes : list string;
  dragState : option DragState;
  connectionState : option ConnectionState;
  connectionCache : list (string * CacheEntry);
  dirtyNodes : list string;
  nodeIdCounter : nat;
  edgeIdCounter : nat;
  nodeTypes : gset string;
  clipboard : option Clipboard;
  random : nat → Q;
  drawn : nat;
  log : list Event
}.

Definition default_edgeStyle : Obj :=
  {[ "color" := VStr "#6b7280"; "width" := VNum 2;
     "dashed" := VBool false; "animated" := VBool false ]}.

Definition default_nodeDefaults : Obj :=
  {[ "width" := VNum 200; "resizable" := VBool false;
     "deletable" := VBool true ]}.

Definition default_options : Options :=
  {| gridSize := 1; edgeStyle := default_edgeStyle;
     nodeDefaults := default_nodeDefaults; callbacks := [] |}.

(** The editor as the constructor leaves it. *)
Definition new_editor (o : Options) (rnd : nat → Q) : Editor :=
  {| options := o; nodes := []; edges := []; selectedNodes := [];
     dragState := None; connectionState := None; connectionCache := [];
     dirtyNodes := []; nodeIdCounter := 1; edgeIdCounter := 1;
     nodeTypes := {[ "default" ]}; clipboard := None;
     random := rnd; drawn := 0; log := [] |}.

(** ** Methods as state transformers that may raise *)

Inductive Result (A : Type) :=
  | Ok (a : A)
  | Throw (msg : string).
Arguments Ok {A} a.
Arguments Throw {A} msg.

Definition M (A : Type) : Type := Editor → Result A * Editor.

Global Instance M_ret : MRet M := λ A a st, (Ok a, st).
Global Instance M_bind : MBind M := λ A B f m st,
  match m st with
  | (Ok a, st') => f a st'
  | (Throw e, st') => (Throw e, st')
  end.

Definition raise {A} (msg : string) : M A := λ st, (Throw msg, st).
Definition get_state : M Editor := λ st, (Ok st, st).
Definition modify (f : Editor → Editor) : M unit := λ st, (Ok tt, f st).

(** [l.forEach(f)]: the first exception ends the loop. *)
Fixpoint forEach {A} (f : A → M unit) (l : list A) : M unit :=
  match l with
  | [] => mret tt
  | a :: l' => f a ;; forEach f l'
  end.

(** Field updates ([this.f = v]). *)

Definition set_nodes (v : list (string * Node)) (st : Editor) : Editor :=
  {| options := options st; nodes := v; edges := edges st;
     selectedNodes := selectedNodes st; dragState := dragState st;
     connectionState := connectionState st;
     connectionCache := connectionCache st; dirtyNodes := dirtyNodes st;
     nodeIdCounter := nodeIdCounter st; edgeIdCounter := edgeIdCounter st;
     nodeTypes := nodeTypes st; clipboard := clipboard st;
     random := random st; drawn := drawn st; log := log st |}.

Definition set_edges (v : list (string * Edge)) (st : Editor) : Editor :=
  {| options := options st; nodes := nodes st; edges := v;
     selectedNodes := selectedNodes st; dragState := dragState st;
     connectionState := connectionState st;
     connectionCache := connectionCache st; dirtyNodes := dirtyNodes st;
     nodeIdCounter := nodeIdCounter st; edgeIdCounter := edgeIdCounter st;
     nodeTypes := nodeTypes st; clipboard := clipboard st;
     random := random st; drawn := drawn st; log := log st |}.

Definition set_selectedNodes (v : list string) (st : Editor) : Editor :=
  {| options := options st; nodes := nodes st; edges := edges st;
     selectedNodes := v; dragState := dragState st;
     connectionState := connectionState st;
     connectionCache := connectionCache st; dirtyNodes := dirtyNodes st;
     nodeIdCounter := nodeIdCounter st; edgeIdCounter := edgeIdCounter st;
     nodeTypes := nodeTypes st; clipboard := clipboard st;
     random := random st; drawn := drawn st; log := log st |}.

Definition set_dragState (v : option DragState) (st : Editor) : Editor :=
  {| options := options st; nodes := nodes st; edges := edges st;
     selectedNodes := selectedNodes st; dragState := v;
     connectionState := connectionState st;
     connectionCache := connectionCache st; dirtyNodes := dirtyNodes st;
     nodeIdCounter := nodeIdCounter st; edgeIdCounter := edgeIdCounter st;
     nodeTypes := nodeTypes st; clipboard := clipboard st;
     random := random st; drawn := drawn st; log := log st |}.

Definition set_connectionState (v : option ConnectionState) (st : Editor) : Editor :=
  {| options := options st; nodes := nodes st; edges := edges st;
     selectedNodes := selectedNodes st; dragState := dragState st;
     connectionState := v; connectionCache := connectionCache st;
     dirtyNodes := dirtyNodes st; nodeIdCounter := nodeIdCounter st;
     edgeIdCounter := edgeIdCounter st; nodeTypes := nodeTypes st;
     clipboard := clipboard st; random := random st; drawn := drawn st;
     log := log st |}.

Definition set_connectionCache (v : list (string * CacheEntry)) (st : Editor) : Editor :=
  {| options := options st; nodes := nodes st; edges := edges st;
     selectedNodes := selectedNodes st; dragState := dragState st;
     connectionState := connectionState st; connectionCache := v;
     dirtyNodes := dirtyNodes st; nodeIdCounter := nodeIdCounter st;
     edgeIdCounter := edgeIdCounter st; nodeTypes := nodeTypes st;
     clipboard := clipboard st; random := random st; drawn := drawn st;
     log := log st |}.

Definition set_dirtyNodes (v : list string) (st : Editor) : Editor :=
  {| options := options st; nodes := nodes st; edges := edges st;
     selectedNodes := selectedNodes st; dragState := dragState st;
     connectionState := connectionState st;
     connectionCache := connectionCache st; dirtyNodes := v;
     nodeIdCounter := nodeIdCounter st; edgeIdCounter := edgeIdCounter st;
     nodeTypes := nodeTypes st; clipboard := clipboard st;
     random := random st; drawn := drawn st; log := log st |}.

Definition set_nodeIdCounter (v : nat) (st : Editor) : Editor :=
  {| options := options st; nodes := nodes st; edges := edges st;
     selectedNodes := selectedNodes st; dragState := dragState st;
     connectionState := connectionState st;
     connectionCache := connectionCache st; dirtyNodes := dirtyNodes st;
     nodeIdCounter := v; edgeIdCounter := edgeIdCounter st;
     nodeTypes := nodeTypes st; clipboard := clipboard st;
     random := random st; drawn := drawn st; log := log st |}.

Definition set_edgeIdCounter (v : nat) (st : Editor) : Editor :=
  {| options := options st; nodes := nodes st; edges := edges st;
     selectedNodes := selectedNodes st; dragState := dragState st;
     connectionState := connectionState st;
     connectionCache := connectionCache st; dirtyNodes := dirtyNodes st;
     nodeIdCounter := nodeIdCounter st; edgeIdCounter := v;
     nodeTypes := nodeTypes st; clipboard := clipboard st;
     random := random st; drawn := drawn st; log := log st |}.

Definition set_nodeTypes (v : gset string) (st : Editor) : Editor :=
  {| options := options st; nodes := nodes st; edges := edges st;
     selectedNodes := selectedNodes st; dragState := dragState st;
     connectionState := connectionState st;
     connectionCache := connectionCache st; dirtyNodes := dirtyNodes st;
     nodeIdCounter := nodeIdCounter st; edgeIdCounter := edgeIdCounter st;
     nodeTypes := v; clipboard := clipboard st; random := random st;
     drawn := drawn st; log := log st |}.

Definition set_clipboard (v : option Clipboard) (st : Editor) : Editor :=
  {| options := options st; nodes := nodes st; edges := edges st;
     selectedNodes := selectedNodes st; dragState := dragState st;
     connectionState := connectionState st;
     connectionCache := connectionCache st; dirtyNodes := dirtyNodes st;
     nodeIdCounter := nodeIdCounter st; edgeIdCounter := edgeIdCounter st;
     nodeTypes := nodeTypes st; clipboard := v; random := random st;
     drawn := drawn st; log := log st |}.

Definition set_drawn (v : nat) (st : Editor) : Editor :=
  {| options := options st; nodes := nodes st; edges := edges st;
     selectedNodes := selectedNodes st; dragState := dragState st;
     connectionState := connectionState st;
     connectionCache := connectionCache st; dirtyNodes := dirtyNodes st;
     nodeIdCounter := nodeIdCounter st; edgeIdCounter := edgeIdCounter st;
     nodeTypes := nodeTypes st; clipboard := clipboard st;
     random := random st; drawn := v; log := log st |}.

Definition set_log (v : list Event) (st : Editor) : Editor :=
  {| options := options st; nodes := nodes st; edges := edges st;
     selectedNodes := selectedNodes st; dragState := dragState st;
     connectionState := connectionState st;
     connectionCache := connectionCache st; dirtyNodes := dirtyNodes st;
     nodeIdCounter := nodeIdCounter st; edgeIdCounter := edgeIdCounter st;
     nodeTypes := nodeTypes st; clipboard := clipboard st;
     random := random st; drawn := drawn st; log := v |}.

(** ** Graph store *)

Definition node_name (n : nat) : string := "node-" +:+ pretty n.
Definition edge_name (n : nat) : string := "edge-" +:+ pretty n.

(** [triggerCallback(name, entity)]: delivered only when the host
    registered a handler under [name]. *)
Definition triggerCallback (name subject : string) (st : Editor) : Editor :=
  if bool_decide (name ∈ callbacks (options st))
  then set_log (log st ++ [mkEvent name subject]) st
  else st.

Definition Math_random (st : Editor) : Q * Editor :=
  (random st (drawn st), set_drawn (S (drawn st)) st).

(** [c || Math.random() * span + 100]: the draw happens only when the
    coordinate is falsy, that is missing or zero. *)
Definition coord_or_random (c : option Q) (span : Q) (st : Editor)
  : Q * Editor :=
  match c with
  | Some q =>
      if Qeq_bool q 0
      then let '(r, st') := Math_random st in ((r * span + 100)%Q, st')
      else (q, st)
  | None => let '(r, st') := Math_random st in ((r * span + 100)%Q, st')
  end.

Definition initNodeCache (nodeId : string) (st : Editor) : Editor :=
  if jm_has nodeId (connectionCache st) then st
  else set_connectionCache
         (jm_set nodeId (mkCache [] []) (connectionCache st)) st.

Definition cleanupNodeCache (nodeId : string) (st : Editor) : Editor :=
  let st := set_connectionCache (jm_delete nodeId (connectionCache st)) st in
  set_dirtyNodes (js_delete nodeId (dirtyNodes st)) st.

Definition add_output (id : string) (c : CacheEntry) : CacheEntry :=
  mkCache (inputs c) (js_add id (outputs c)).
Definition add_input (id : string) (c : CacheEntry) : CacheEntry :=
  mkCache (js_add id (inputs c)) (outputs c).
Definition del_output (id : string) (c : CacheEntry) : CacheEntry :=
  mkCache (inputs c) (js_delete id (outputs c)).
Definition del_input (id : string) (c : CacheEntry) : CacheEntry :=
  mkCache (js_delete id (inputs c)) (outputs c).

Definition updateCacheOnEdgeCreate (edge : Edge) (st : Editor) : Editor :=
  let st := initNodeCache (edge_source edge) st in
  let st := initNodeCache (edge_target edge) st in
  let st := set_connectionCache
              (jm_alter (add_output (edge_id edge)) (edge_source edge)
                 (connectionCache st)) st in
  let st := set_connectionCache
              (jm_alter (add_input (edge_id edge)) (edge_target edge)
                 (connectionCache st)) st in
  let st := set_dirtyNodes (js_add (edge_source edge) (dirtyNodes st)) st in
  set_dirtyNodes (js_add (edge_target edge) (dirtyNodes st)) st.

Definition updateCacheOnEdgeDelete (edge : Edge) (st : Editor) : Editor :=
  let st := set_connectionCache
              (jm_alter (del_output (edge_id edge)) (edge_source edge)
                 (connectionCache st)) st in
  let st := set_connectionCache
              (jm_alter (del_input (edge_id edge)) (edge_target edge)
                 (connectionCache st)) st in
  let st := set_dirtyNodes (js_add (edge_source edge) (dirtyNodes st)) st in
  set_dirtyNodes (js_add (edge_target edge) (dirtyNodes st)) st.

(** [createNode(type = 'default', position = {}, data = {})].  The handler
    bundle is [nodeTypes.get(type) || nodeTypes.get('default')]; the
    constructor registers ['default'] and nothing removes it. *)
Definition createNode (type : option string) (position : option PositionArg)
    (data : option Obj) (st : Editor) : string * Editor :=
  let type := default "default" type in
  let position := default (mkPosArg None None) position in
  let data := default (∅ : Obj) data in
  let id := node_name (nodeIdCounter st) in
  let st := set_nodeIdCounter (S (nodeIdCounter st)) st in
  let '(x, st) := coord_or_random (arg_x position) 400 st in
  let '(y, st) := coord_or_random (arg_y position) 300 st in
  let node := mkNode id type (mkPos x y) (data ∪ nodeDefaults (options st)) in
  let st := set_nodes (jm_set id node (nodes st)) st in
  let st := initNodeCache id st in
  let st := triggerCallback "onNodeCreate" id st in
  (id, st).

Definition merge_data (data : Obj) (n : Node) : Node :=
  mkNode (node_id n) (node_type n) (node_position n) (data ∪ node_data n).

Definition updateNodeData (nodeId : string) (data : Obj) (st : Editor)
  : Editor :=
  match jm_get nodeId (nodes st) with
  | None => st
  | Some node =>
      let st := set_nodes (jm_alter (merge_data data) nodeId (nodes st)) st in
      triggerCallback "onNodeUpdate" (node_id node) st
  end.

(** [this.nodeTypes.get(node.type)] followed by a property read on the
    result: a [TypeError] when the type has no registration (these two
    call sites have no fallback to ['default']). *)
Definition type_hooks (type : string) : M unit := λ st,
  if bool_decide (type ∈ nodeTypes st) then (Ok tt, st)
  else (Throw "TypeError", st).

Definition node_type_of (nodeId : string) (st : Editor) : option string :=
  node_type <$> jm_get nodeId (nodes st).

(** The [onDisconnect] block of [deleteEdge], entered only when both
    endpoints still resolve. *)
Definition disconnect_hooks (edge : Edge) : M unit := λ st,
  match node_type_of (edge_source edge) st,
        node_type_of (edge_target edge) st with
  | Some ts, Some tt' => (type_hooks ts;; type_hooks tt') st
  | _, _ => (Ok tt, st)
  end.

Definition deleteEdge (edgeId : string) : M unit := λ st,
  match jm_get edgeId (edges st) with
  | None => (Ok tt, st)
  | Some edge =>
      (modify (updateCacheOnEdgeDelete edge);;
       disconnect_hooks edge;;
       modify (λ st, set_edges (jm_delete edgeId (edges st)) st);;
       modify (triggerCallback "onEdgeDelete" (edge_id edge))) st
  end.

Definition incident (nodeId : string) (e : Edge) : Prop :=
  edge_source e = nodeId ∨ edge_target e = nodeId.

Global Instance incident_dec nodeId e : Decision (incident nodeId e).
Proof. unfold incident. apply _. Defined.

Definition deleteNode (nodeId : string) : M unit := λ st,
  match jm_get nodeId (nodes st) with
  | None => (Ok tt, st)
  | Some node =>
      let connectedEdges := filter (incident nodeId) (jm_values (edges st)) in
      (forEach (λ e, deleteEdge (edge_id e)) connectedEdges;;
       modify (λ st, set_selectedNodes (js_delete nodeId (selectedNodes st)) st);;
       modify (cleanupNodeCache nodeId);;
       modify (λ st, set_nodes (jm_delete nodeId (nodes st)) st);;
       modify (triggerCallback "onNodeDelete" (node_id node))) st
  end.

(** The [options] argument of [createEdge]. *)
Record EdgeOptions := mkEdgeOptions {
  opt_style : option Obj;
  opt_data : option Obj
}.

Definition no_options : EdgeOptions := mkEdgeOptions None None.

Definition same_pair (sourceId targetId : string) (e : Edge) : Prop :=
  edge_source e = sourceId ∧ edge_target e = targetId.

Global Instance same_pair_dec s t e : Decision (same_pair s t e).
Proof. unfold same_pair. apply _. Defined.

Definition connect_hooks (sourceId targetId : string) : M unit := λ st,
  match node_type_of sourceId st, node_type_of targetId st with
  | Some ts, Some tt' => (type_hooks ts;; type_hooks tt') st
  | _, _ => (Throw "TypeError", st)
  end.

Definition createEdge (sourceId targetId : string) (opts : EdgeOptions)
  : M (option string) := λ st,
  if negb (jm_has sourceId (nodes st)) || negb (jm_has targetId (nodes st))
  then (Ok None, st)
  else
    match list_find (same_pair sourceId targetId) (jm_values (edges st)) with
    | Some (_, existingEdge) => (Ok (Some (edge_id existingEdge)), st)
    | None =>
        let id := edge_name (edgeIdCounter st) in
        let edge :=
          mkEdge id sourceId targetId
            (default (∅ : Obj) (opt_style opts) ∪ edgeStyle (options st))
            (default (∅ : Obj) (opt_data opts)) in
        (modify (set_edgeIdCounter (S (edgeIdCounter st)));;
         modify (λ st, set_edges (jm_set id edge (edges st)) st);;
         modify (updateCacheOnEdgeCreate edge);;
         connect_hooks sourceId targetId;;
         modify (triggerCallback "onEdgeCreate" id);;
         mret (Some id)) st
    end.

(** ** Connection cache validation *)

Definition rebuild_edge (m : list (string * CacheEntry)) (edge : Edge)
  : list (string * CacheEntry) :=
  if jm_has (edge_source edge) m && jm_has (edge_target edge) m
  then jm_alter (add_input (edge_id edge)) (edge_target edge)
         (jm_alter (add_output (edge_id edge)) (edge_source edge) m)
  else m.

Definition rebuildCache (st : Editor) : list (string * CacheEntry) :=
  let newCache :=
    fold_left (λ m nodeId, jm_set nodeId (mkCache [] []) m)
      (jm_keys (nodes st)) [] in
  fold_left rebuild_edge (jm_values (edges st)) newCache.

Definition cache_issue (st : Editor) (p : string * CacheEntry) : bool :=
  match jm_get p.1 (connectionCache st) with
  | None => true
  | Some current =>
      negb (Nat.eqb (length (inputs p.2)) (length (inputs current)))
      || negb (Nat.eqb (length (outputs p.2)) (length (outputs current)))
  end.

Definition validateCache (st : Editor) : nat * Editor :=
  let newCache := rebuildCache st in
  let issues :=
    fold_left (λ n p, if cache_issue st p then S n else n) newCache 0%nat in
  (issues,
   if Nat.ltb 0 issues then set_connectionCache newCache st else st).

(** ** Selection *)

Definition clearSelection (st : Editor) : Editor := set_selectedNodes [] st.

Definition selectNode (nodeId : string) (multi : bool) (st : Editor)
  : Editor :=
  let st := if multi then st else clearSelection st in
  match jm_get nodeId (nodes st) with
  | None => st
  | Some node =>
      let st := set_selectedNodes (js_add nodeId (selectedNodes st)) st in
      triggerCallback "onNodeSelect" (node_id node) st
  end.

Definition selectAll (st : Editor) : Editor :=
  set_selectedNodes
    (fold_left (λ s id, js_add id s) (jm_keys (nodes st)) (selectedNodes st))
    st.

Definition deleteSelected : M unit := λ st,
  let nodesToDelete := selectedNodes st in
  (forEach deleteNode nodesToDelete;; modify clearSelection) st.

(** ** Dragging *)

Record PointerEvent := mkPointer {
  clientX : Q;
  clientY : Q;
  ctrlKey : bool;
  metaKey : bool
}.

(** The part of a bounding rectangle the code reads. *)
Record Rect := mkRect { rect_left : Q; rect_top : Q }.

(** The canvas geometry read by [updateDrag]. *)
Record Canvas := mkCanvas {
  canvasRect : Rect;
  scrollLeft : Q;
  scrollTop : Q
}.

Definition record_start (st : Editor) (m : list (string * Position))
    (id : string) : list (string * Position) :=
  match jm_get id (nodes st) with
  | Some n =>
      jm_set id (mkPos (pos_x (node_position n)) (pos_y (node_position n))) m
  | None => m
  end.

(** [startDrag(e, nodeEl)], with [nodeEl.dataset.nodeId] and
    [nodeEl.getBoundingClientRect()] as arguments. *)
Definition startDrag (e : PointerEvent) (nodeId : string) (rect : Rect)
    (st : Editor) : Editor :=
  match jm_get nodeId (nodes st) with
  | None => st
  | Some node =>
      let dragged :=
        if js_has nodeId (selectedNodes st) then selectedNodes st
        else [nodeId] in
      let ds :=
        mkDrag dragged (node_id node)
          (clientX e - rect_left rect)%Q (clientY e - rect_top rect)%Q
          (fold_left (record_start st) dragged []) in
      let st' := set_dragState (Some ds) st in
      if js_has nodeId (selectedNodes st') then st'
      else selectNode nodeId (ctrlKey e || metaKey e) st'
  end.

(** [Math.round]: the nearest integer, halves upwards. *)
Definition Math_round (v : Q) : Q := inject_Z (Qfloor (v + (1 # 2))).

Definition snap (g v : Q) : Q :=
  if Qle_bool g 1 then v else (Math_round (v / g) * g)%Q.

Definition move_to (p : Position) (n : Node) : Node :=
  mkNode (node_id n) (node_type n) p (node_data n).

Definition drag_node (ds : DragState) (deltaX deltaY : Q) (nodeId : string)
  : M unit := λ st,
  match jm_get nodeId (nodes st) with
  | None => (Ok tt, st)
  | Some node =>
      match jm_get nodeId (startPositions ds) with
      | None => (Throw "TypeError", st)
      | Some startPos =>
          let x := snap (gridSize (options st)) (pos_x startPos + deltaX) in
          let y := snap (gridSize (options st)) (pos_y startPos + deltaY) in
          let x := Qmax 0 x in
          let y := Qmax 0 y in
          (Ok tt,
           set_nodes (jm_alter (move_to (mkPos x y)) nodeId (nodes st)) st)
      end
  end.

Definition updateDrag (e : PointerEvent) (canvas : Canvas) : M unit := λ st,
  match dragState st with
  | None => (Ok tt, st)
  | Some ds =>
      match jm_get (drag_primary ds) (startPositions ds) with
      | None => (Throw "TypeError", st)
      | Some primaryStart =>
          let deltaX :=
            (clientX e - rect_left (canvasRect canvas) - offsetX ds
             + scrollLeft canvas - pos_x primaryStart)%Q in
          let deltaY :=
            (clientY e - rect_top (canvasRect canvas) - offsetY ds
             + scrollTop canvas - pos_y primaryStart)%Q in
          forEach (drag_node ds deltaX deltaY) (drag_nodes ds) st
      end
  end.

Definition moved (startPos p : Position) : bool :=
  negb (Qeq_bool (pos_x startPos) (pos_x p))
  || negb (Qeq_bool (pos_y startPos) (pos_y p)).

Definition notify_move (ds : DragState) (nodeId : string) : M unit := λ st,
  match jm_get nodeId (nodes st) with
  | None => (Ok tt, st)
  | Some node =>
      match jm_get nodeId (startPositions ds) with
      | None => (Throw "TypeError", st)
      | Some startPos =>
          if moved startPos (node_position node)
          then (Ok tt, triggerCallback "onNodeMove" (node_id node) st)
          else (Ok tt, st)
      end
  end.

Definition endDrag : M unit := λ st,
  match dragState st with
  | None => (Ok tt, st)
  | Some ds =>
      (forEach (notify_move ds) (drag_nodes ds);;
       modify (set_dragState None)) st
  end.

(** ** Connecting *)

Definition between (a b : string) (e : Edge) : Prop :=
  (edge_source e = a ∧ edge_target e = b)
  ∨ (edge_source e = b ∧ edge_target e = a).

Global Instance between_dec a b e : Decision (between a b e).
Proof. unfold between. apply _. Defined.

Definition validateConnection (sourceNodeId sourcePortType targetNodeId
    targetPortType : string) (st : Editor) : bool :=
  if bool_decide (sourceNodeId = targetNodeId) then false
  else if bool_decide (sourcePortType = targetPortType) then false
  else
    match list_find (between sourceNodeId targetNodeId)
            (jm_values (edges st)) with
    | Some _ => false
    | None => true
    end.

Definition startConnection (nodeId portType : string) (st : Editor)
  : Editor :=
  set_connectionState (Some (mkConn nodeId portType)) st.

(** [endConnection(e)]; [target] is the port under the release point, if
    the element there is a port: its node id and its role. *)
Definition endConnection (target : option (string * string)) : M unit :=
  λ st,
  match connectionState st with
  | None => (Ok tt, st)
  | Some cs =>
      ((match target with
        | Some (targetNodeId, targetPortType) =>
            if validateConnection (sourceNodeId cs) (sourcePortType cs)
                 targetNodeId targetPortType st
            then
              if bool_decide (sourcePortType cs = "output")
              then createEdge (sourceNodeId cs) targetNodeId no_options;;
                   mret tt
              else createEdge targetNodeId (sourceNodeId cs) no_options;;
                   mret tt
            else mret tt
        | None => mret tt
        end);;
       modify (set_connectionState None)) st
  end.

(** ** Clipboard *)

Definition copy_node (id : string) : M ClipNode := λ st,
  match jm_get id (nodes st) with
  | None => (Throw "TypeError", st)
  | Some node =>
      (Ok (mkClipNode (node_type node) (node_data node)
             (mkPos (pos_x (node_position node))
                    (pos_y (node_position node)))), st)
  end.

Fixpoint mapM {A B} (f : A → M B) (l : list A) : M (list B) :=
  match l with
  | [] => mret []
  | a :: l' => b ← f a; bs ← mapM f l'; mret (b :: bs)
  end.

Definition both_selected (st : Editor) (e : Edge) : Prop :=
  edge_source e ∈ selectedNodes st ∧ edge_target e ∈ selectedNodes st.

Global Instance both_selected_dec st e : Decision (both_selected st e).
Proof. unfold both_selected. apply _. Defined.

Definition copySelected : M unit := λ st,
  (copied ← mapM copy_node (selectedNodes st);
   modify (set_clipboard
             (Some (mkClip copied
                      (filter (both_selected st) (jm_values (edges st))))))) st.

Definition paste_node (nodeData : ClipNode) (st : Editor) : Editor :=
  let '(newId, st) :=
    createNode (Some (clip_type nodeData))
      (Some (mkPosArg (Some (pos_x (clip_position nodeData) + 50)%Q)
                      (Some (pos_y (clip_position nodeData) + 50)%Q)))
      (Some (clip_data nodeData)) st in
  selectNode newId true st.

(** [paste()].  The loop also fills a local [idMap] from clipboard entry
    to new id; nothing reads it, and [clipboard.edges] is not read at
    all. *)
Definition paste (st : Editor) : Editor :=
  match clipboard st with
  | None => st
  | Some cb =>
      match clip_nodes cb with
      | [] => st
      | _ => fold_left (λ st nodeData, paste_node nodeData st)
               (clip_nodes cb) (clearSelection st)
      end
  end.

(** ** Export and import *)

(** A parsed document.  A field that is [None] is missing ([undefined]);
    an array entry that is [None] is [null]. *)
Record NodeData := mkNodeData {
  nd_id : option string;
  nd_type : option string;
  nd_position : option PositionArg;
  nd_data : option Obj
}.

Record EdgeData := mkEdgeData {
  ed_id : option string;
  ed_source : option string;
  ed_target : option string;
  ed_style : option Obj;
  ed_data : option Obj
}.

Record WorkflowData := mkWorkflow {
  wd_nodes : option (list (option NodeData));
  wd_edges : option (list (option EdgeData))
}.




Definition clear : M unit := λ st,
  (forEach deleteNode (jm_keys (nodes st));;
   modify (set_nodeIdCounter 1);;
   modify (set_edgeIdCounter 1);;
   modify clearSelection) st.

(** The loops of [loadWorkflowData]; [idMap] is the local map from the
    document's ids to the new ones.  Reading a field of a [null] entry
    raises. *)
Fixpoint load_nodes (l : list (option NodeData))
    (idMap : list (option string * string))
  : M (list (option string * string)) :=
  match l with
  | [] => mret idMap
  | None :: _ => raise "TypeError"
  | Some nodeData :: l' =>
      newId ← (λ st,
                 let '(id, st') :=
                   createNode (nd_type nodeData) (nd_position nodeData)
                     (nd_data nodeData) st in
                 (Ok id, st'));
      load_nodes l' (jm_set (nd_id nodeData) newId idMap)
  end.

Definition load_edge (idMap : list (option string * string))
    (entry : option EdgeData) : M unit :=
  match entry with
  | None => raise "TypeError"
  | Some edgeData =>
      match jm_get (ed_source edgeData) idMap,
            jm_get (ed_target edgeData) idMap with
      | Some sourceId, Some targetId =>
          createEdge sourceId targetId
            (mkEdgeOptions (ed_style edgeData) (ed_data edgeData));;
          mret tt
      | _, _ => mret tt
      end
  end.

(** What [loadWorkflowData(data)] does once the editor is cleared;
    [data = None] is a document that parsed to [null]. *)
Definition load_document (data : option WorkflowData) : M unit :=
  match data with
  | None => raise "TypeError"
  | Some d =>
      idMap ← match wd_nodes d with
              | Some l => load_nodes l []
              | None => mret []
              end;
      match wd_edges d with
      | Some l => forEach (load_edge idMap) l
      | None => mret tt
      end
  end.

Definition loadWorkflowData (data : option WorkflowData) : M unit :=
  clear;; load_document data.

(** [importJSON(json)], given what [JSON.parse(json)] does: raise a
    [SyntaxError] or return the document. *)
Definition importJSON (parsed : Result (option WorkflowData)) (st : Editor)
  : bool * Editor :=
  match parsed with
  | Throw _ => (false, st)
  | Ok data =>
      match loadWorkflowData data st with
      | (Ok _, st') => (true, st')
      | (Throw _, st') => (false, st')
      end
  end.

(** [registerNodeType(type, config)]. *)
Definition registerNodeType (type : string) (st : Editor) : Editor :=
  set_nodeTypes ({[ type ]} ∪ nodeTypes st) st.

(** ** Connection queries *)

(** One entry of the lists [getConnectionDataCached] builds: the node at
    the far end of an edge, and the edge. *)
Record Connected := mkConnected {
  cn_id : string;
  cn_type : string;
  cn_data : Obj;
  cn_edgeId : string
}.

Record ConnectionData := mkConnectionData {
  cd_inputs : list Connected;
  cd_outputs : list Connected;
  inputCount : nat;
  outputCount : nat
}.

(** The body of the two [forEach] loops over the cached edge ids; [far]
    is [edge.source] for the inputs and [edge.target] for the outputs.  An
    id that no longer resolves, or whose far node is gone, adds nothing. *)
Definition connected_by (far : Edge → string) (st : Editor) (edgeId : string)
  : option Connected :=
  match jm_get edgeId (edges st) with
  | None => None
  | Some edge =>
      match jm_get (far edge) (nodes st) with
      | None => None
      | Some node =>
          Some (mkConnected (node_id node) (node_type node) (node_data node)
                  (edge_id edge))
      end
  end.

Definition getConnectionDataCached (nodeId : string) (st : Editor)
  : ConnectionData :=
  match jm_get nodeId (connectionCache st) with
  | None => mkConnectionData [] [] 0 0
  | Some cache =>
      let inputs' := omap (connected_by edge_source st) (inputs cache) in
      let outputs' := omap (connected_by edge_target st) (outputs cache) in
      mkConnectionData inputs' outputs' (length inputs') (length outputs')
  end.

(** The object [getConnectedNodes] returns. *)
Record ConnectedNodes := mkConnectedNodes {
  conn_inputs : list Connected;
  conn_outputs : list Connected
}.

(** [getConnectedNodes(nodeId, direction = '')]. *)
Definition getConnectedNodes (nodeId : string) (direction : option string)
    (st : Editor) : ConnectedNodes :=
  let direction := default "" direction in
  let connectionData := getConnectionDataCached nodeId st in
  if bool_decide (direction = "input")
  then mkConnectedNodes (cd_inputs connectionData) []
  else if bool_decide (direction = "output")
  then mkConnectedNodes [] (cd_outputs connectionData)
  else mkConnectedNodes (cd_inputs connectionData) (cd_outputs connectionData).

(** ** Keyboard *)

(** The fields of a keyboard event that [handleKeyDown] reads. *)
Record KeyEvent := mkKey {
  key : string;
  key_ctrlKey : bool;
  key_metaKey : bool
}.

(** [handleKeyDown(e)]: five tests in a row, none of them an [else]. *)
Definition handleKeyDown (e : KeyEvent) : M unit :=
  (if bool_decide (key e = "Delete") then deleteSelected else mret tt);;
  (if bool_decide (key e = "a") && (key_ctrlKey e || key_metaKey e)
   then modify selectAll else mret tt);;
  (if bool_decide (key e = "Escape") then modify clearSelection
   else mret tt);;
  (if bool_decide (key e = "c") && (key_ctrlKey e || key_metaKey e)
   then copySelected else mret tt);;
  (if bool_decide (key e = "v") && (key_ctrlKey e || key_metaKey e)
   then modify paste else mret tt).

(** ** Pointer handlers *)

(** What [handleMouseDown] finds out about [e.target], in the order of its
    tests: a port (with the ids in its dataset), some element inside a node
    (with the node element's id and rectangle, whether the target is or
    sits in a form control, and whether it is the node handle), the canvas
    or its SVG layer, or anything else. *)
Inductive Target :=
  | OnPort (nodeId portType : string)
  | OnNode (nodeId : string) (rect : Rect) (isInteractive isHandle : bool)
  | OnCanvas
  | Elsewhere.

Definition handleMouseDown (e : PointerEvent) (target : Target)
    (st : Editor) : Editor :=
  match target with
  | OnPort nodeId portType => startConnection nodeId portType st
  | OnNode nodeId rect isInteractive isHandle =>
      if negb isInteractive || isHandle then startDrag e nodeId rect st
      else st
  | OnCanvas => clearSelection st
  | Elsewhere => st
  end.

(** [if (this.dragState) ...] and [if (this.connectionState) ...]. *)
Definition when_dragging (m : M unit) : M unit := λ st,
  match dragState st with
  | Some _ => m st
  | None => (Ok tt, st)
  end.

Definition when_connecting (m : M unit) : M unit := λ st,
  match connectionState st with
  | Some _ => m st
  | None => (Ok tt, st)
  end.

(** [handleMouseMove(e)]; the connection preview it also redraws is SVG
    work only. *)
Definition handleMouseMove (e : PointerEvent) (canvas : Canvas) : M unit :=
  when_dragging (updateDrag e canvas).

(** [handleMouseUp(e)]; [target] is what [endConnection] finds under the
    release point. *)
Definition handleMouseUp (target : option (string * string)) : M unit :=
  when_dragging endDrag;; when_connecting (endConnection target).

(** [selectEdge(edgeId)], the click handler of an edge path; [confirmed]
    is the answer to the [confirm] dialog. *)
Definition selectEdge (edgeId : string) (confirmed : bool) : M unit := λ st,
  match jm_get edgeId (edges st) with
  | None => (Ok tt, st)
  | Some _ => if confirmed then deleteEdge edgeId st else (Ok tt, st)
  end.

(** ** View *)

(** The four running bounds of [centerView].  A bound that is [None] still
    has its initial value: [Infinity] for the minima, [-Infinity] for the
    maxima. *)
Record Bounds := mkBounds {
  minX : option Q;
  minY : option Q;
  maxX : option Q;
  maxY : option Q
}.

Definition Math_min (bound : option Q) (v : Q) : option Q :=
  Some (match bound with None => v | Some a => Qmin a v end).

Definition Math_max (bound : option Q) (v : Q) : option Q :=
  Some (match bound with None => v | Some a => Qmax a v end).

(** The body of the loop over the nodes: a node counts as 200 wide and 100
    high. *)
Definition grow (b : Bounds) (node : Node) : Bounds :=
  mkBounds (Math_min (minX b) (pos_x (node_position node)))
           (Math_min (minY b) (pos_y (node_position node)))
           (Math_max (maxX b) (pos_x (node_position node) + 200))
           (Math_max (maxY b) (pos_y (node_position node) + 100)).

(** [centerView()], given the canvas's [clientWidth] and [clientHeight].
    The result is the pair of values assigned to [canvas.scrollLeft] and
    [canvas.scrollTop]; [None] when the method returns without assigning,
    which it does on an empty editor. *)
Definition centerView (clientWidth clientHeight : Q) (st : Editor)
  : option (Q * Q) :=
  if Nat.eqb (length (nodes st)) 0 then None
  else
    match fold_left grow (jm_values (nodes st))
            (mkBounds None None None None) with
    | mkBounds (Some minX) (Some minY) (Some maxX) (Some maxY) =>
        let centerX := ((minX + maxX) / 2)%Q in
        let centerY := ((minY + maxY) / 2)%Q in
        Some ((centerX - clientWidth / 2)%Q, (centerY - clientHeight / 2)%Q)
    | _ => None
    end.

(** ** Batched refresh of dirty nodes *)

(** [processDirtyNodes()], the body of the batch timer.  Every dirty node
    that still exists gets a fresh snapshot of its connections in
    [node._connectionData] and is rendered again; the dirty set is then
    emptied.  Nothing in the editor reads the snapshots back, so they are
    returned here, in the order of the dirty set.  The hook
    [onConnectionChange] is looked up in the registry entry of the node's
    type, where [registerNodeType] never stores it. *)
Definition processDirtyNodes (st : Editor)
  : list (string * ConnectionData) * Editor :=
  match dirtyNodes st with
  | [] => ([], st)
  | _ =>
      (omap (λ nodeId,
               match jm_get nodeId (nodes st) with
               | Some node => Some (nodeId, getConnectionDataCached nodeId st)
               | None => None
               end) (dirtyNodes st),
       set_dirtyNodes [] st)
  end.

(** * Vocabulary of the statements *)

Definition in_ids (k : string) (es : list (string * Edge)) : list string :=
  edge_id <$> filter (λ e, edge_target e = k) (jm_values es).

Definition out_ids (k : string) (es : list (string * Edge)) : list string :=
  edge_id <$> filter (λ e, edge_source e = k) (jm_values es).

(** The store: keys are the ids the counters handed out, edges join live
    nodes, one edge per ordered pair, the selection holds live nodes, and
    the open records carry at least the configured defaults. *)
Record store_ok (st : Editor) : Prop := {
  ok_nodes_nodup : NoDup (nodes st).*1;
  ok_node_key : ∀ k n, (k, n) ∈ nodes st →
    node_id n = k ∧ ∃ i, i < nodeIdCounter st ∧ k = node_name i;
  ok_edges_nodup : NoDup (edges st).*1;
  ok_edge_key : ∀ k e, (k, e) ∈ edges st →
    edge_id e = k ∧ ∃ i, i < edgeIdCounter st ∧ k = edge_name i;
  ok_edge_ends : ∀ k e, (k, e) ∈ edges st →
    edge_source e ∈ (nodes st).*1 ∧ edge_target e ∈ (nodes st).*1;
  ok_edge_pair : ∀ k1 e1 k2 e2,
    (k1, e1) ∈ edges st → (k2, e2) ∈ edges st →
    edge_source e1 = edge_source e2 → edge_target e1 = edge_target e2 →
    k1 = k2;
  ok_selected : ∀ k, k ∈ selectedNodes st → k ∈ (nodes st).*1;
  ok_node_data : ∀ k n, (k, n) ∈ nodes st →
    dom (nodeDefaults (options st)) ⊆ dom (node_data n);
  ok_edge_style : ∀ k e, (k, e) ∈ edges st →
    dom (edgeStyle (options st)) ⊆ dom (edge_style e)
}.

(** The connection cache: one entry per live node, holding exactly the ids
    of the stored edges that end, respectively start, at the node, in the
    order of the edge store. *)
Record cache_ok (st : Editor) : Prop := {
  ok_cache_keys : ∀ k, k ∈ (connectionCache st).*1 ↔ k ∈ (nodes st).*1;
  ok_cache_sets : ∀ k c, jm_get k (connectionCache st) = Some c →
    inputs c = in_ids k (edges st) ∧ outputs c = out_ids k (edges st)
}.

(** Every stored edge joins nodes whose type is registered. *)
Definition typed_edges (st : Editor) : Prop :=
  ∀ k e n, (k, e) ∈ edges st →
    (edge_source e, n) ∈ nodes st ∨ (edge_target e, n) ∈ nodes st →
    node_type n ∈ nodeTypes st.

Definition wf (st : Editor) : Prop :=
  store_ok st ∧ cache_ok st ∧ typed_edges st.

Definition created_node (type : option string) (x y : Q) (data : option Obj)
    (st : Editor) : Node :=
  mkNode (node_name (nodeIdCounter st)) (default "default" type) (mkPos x y)
    (default (∅ : Obj) data ∪ nodeDefaults (options st)).

(** The node types of both endpoints are registered. *)
Definition hooks_ok (st : Editor) (sourceId targetId : string) : Prop :=
  ∀ n, (sourceId, n) ∈ nodes st ∨ (targetId, n) ∈ nodes st →
       node_type n ∈ nodeTypes st.

Definition edge_deleted (edge : Edge) (l : list Event) (st : Editor)
  : Editor :=
  {| options := options st;
     nodes := nodes st;
     edges := jm_delete (edge_id edge) (edges st);
     selectedNodes := selectedNodes st;
     dragState := dragState st;
     connectionState := connectionState st;
     connectionCache :=
       jm_alter (del_input (edge_id edge)) (edge_target edge)
         (jm_alter (del_output (edge_id edge)) (edge_source edge)
            (connectionCache st));
     dirtyNodes :=
       js_add (edge_target edge) (js_add (edge_source edge) (dirtyNodes st));
     nodeIdCounter := nodeIdCounter st;
     edgeIdCounter := edgeIdCounter st;
     nodeTypes := nodeTypes st;
     clipboard := clipboard st;
     random := random st;
     drawn := drawn st;
     log := l |}.

(** Everything but the edge store, the cache, the dirty set and the log. *)
Definition frame (st st' : Editor) : Prop :=
  options st' = options st ∧ nodes st' = nodes st
  ∧ selectedNodes st' = selectedNodes st ∧ dragState st' = dragState st
  ∧ connectionState st' = connectionState st
  ∧ nodeIdCounter st' = nodeIdCounter st
  ∧ edgeIdCounter st' = edgeIdCounter st ∧ nodeTypes st' = nodeTypes st
  ∧ clipboard st' = clipboard st ∧ random st' = random st
  ∧ drawn st' = drawn st.

Definition new_edge (sourceId targetId : string) (opts : EdgeOptions)
    (st : Editor) : Edge :=
  mkEdge (edge_name (edgeIdCounter st)) sourceId targetId
    (default (∅ : Obj) (opt_style opts) ∪ edgeStyle (options st))
    (default (∅ : Obj) (opt_data opts)).

Definition edge_created (edge : Edge) (l : list Event) (st : Editor)
  : Editor :=
  {| options := options st;
     nodes := nodes st;
     edges := edges st ++ [(edge_id edge, edge)];
     selectedNodes := selectedNodes st;
     dragState := dragState st;
     connectionState := connectionState st;
     connectionCache :=
       jm_alter (add_input (edge_id edge)) (edge_target edge)
         (jm_alter (add_output (edge_id edge)) (edge_source edge)
            (connectionCache st));
     dirtyNodes :=
       js_add (edge_target edge) (js_add (edge_source edge) (dirtyNodes st));
     nodeIdCounter := nodeIdCounter st;
     edgeIdCounter := S (edgeIdCounter st);
     nodeTypes := nodeTypes st;
     clipboard := clipboard st;
     random := random st;
     drawn := drawn st;
     log := l |}.

(** The four outcomes of [createEdge] on a well-formed editor. *)
Inductive createEdge_outcome (sourceId targetId : string)
    (opts : EdgeOptions) (st : Editor)
  : Result (option string) → Editor → Prop :=
  | ce_missing :
      sourceId ∉ (nodes st).*1 ∨ targetId ∉ (nodes st).*1 →
      createEdge_outcome sourceId targetId opts st (Ok None) st
  | ce_existing k e :
      (k, e) ∈ edges st → same_pair sourceId targetId e →
      createEdge_outcome sourceId targetId opts st (Ok (Some k)) st
  | ce_created l :
      sourceId ∈ (nodes st).*1 → targetId ∈ (nodes st).*1 →
      (∀ k e, (k, e) ∈ edges st → ¬ same_pair sourceId targetId e) →
      hooks_ok st sourceId targetId →
      createEdge_outcome sourceId targetId opts st
        (Ok (Some (edge_name (edgeIdCounter st))))
        (edge_created (new_edge sourceId targetId opts st) l st)
  | ce_raised :
      sourceId ∈ (nodes st).*1 → targetId ∈ (nodes st).*1 →
      (∀ k e, (k, e) ∈ edges st → ¬ same_pair sourceId targetId e) →
      ¬ hooks_ok st sourceId targetId →
      createEdge_outcome sourceId targetId opts st (Throw "TypeError")
        (edge_created (new_edge sourceId targetId opts st) (log st) st).

Global Instance hooks_ok_dec st s t : Decision (hooks_ok st s t).
Proof.
  unfold hooks_ok.
  refine (cast_if (decide (Forall (λ p : string * Node,
            (p.1 = s ∨ p.1 = t) → node_type p.2 ∈ nodeTypes st) (nodes st)))).
  - intros n Hn. rewrite Forall_forall in f.
    destruct Hn as [Hn|Hn]; apply (f _ Hn); auto.
  - intros Hn. apply n. apply Forall_forall. intros [k n'] Hin. simpl.
    intros [->| ->]; apply Hn; auto.
Defined.

Definition add_all (ids : list string) (s : list string) : list string :=
  fold_left (λ s a, js_add a s) ids s.

Inductive Op :=
  | OpCreateNode (type : option string) (position : option PositionArg)
      (data : option Obj)
  | OpDeleteNode (nodeId : string)
  | OpCreateEdge (sourceId targetId : string) (opts : EdgeOptions)
  | OpDeleteEdge (edgeId : string).

Definition call (op : Op) : M unit :=
  match op with
  | OpCreateNode type position data =>
      λ st, (Ok tt, (createNode type position data st).2)
  | OpDeleteNode nodeId => deleteNode nodeId
  | OpCreateEdge sourceId targetId opts =>
      createEdge sourceId targetId opts;; mret tt
  | OpDeleteEdge edgeId => deleteEdge edgeId
  end.

(** The calls are made one after the other; an exception that escapes a
    call ends the sequence there. *)
Definition run (ops : list Op) : M unit := forEach call ops.

(** The random source of the examples: every draw is one half. *)
Definition half : nat → Q := λ _, 1 # 2.

(** Every dragged node that still exists has a recorded start position, and
    so has the primary node. *)
Definition drag_ok (st : Editor) (ds : DragState) : Prop :=
  (∀ id, id ∈ drag_nodes ds → id ∈ (nodes st).*1 →
         id ∈ (startPositions ds).*1)
  ∧ drag_primary ds ∈ (startPositions ds).*1.




(** A drag session: pointer-down on a node, pointer moves, pointer-up. *)
Definition drag_session (e : PointerEvent) (nodeId : string) (rect : Rect)
    (moves : list (PointerEvent * Canvas)) : M unit := λ st,
  (forEach (λ m, updateDrag m.1 m.2) moves;; endDrag)
    (startDrag e nodeId rect st).

(** A concrete editor for the examples: the host listens to node moves and
    every random draw is one half. *)
Definition demo_options : Options :=
  {| gridSize := 1; edgeStyle := default_edgeStyle;
     nodeDefaults := default_nodeDefaults; callbacks := ["onNodeMove"] |}.

Definition at_point (x y : Q) : option PositionArg :=
  Some (mkPosArg (Some x) (Some y)).

(** One node of the default type at (5, 5). *)
Definition one_node : Editor :=
  (createNode None (at_point 5 5) None (new_editor demo_options half)).2.

(** Two nodes of the type [ghost], which nobody registered. *)
Definition two_ghosts : Editor :=
  (createNode (Some "ghost") (at_point 20 20) None
     (createNode (Some "ghost") (at_point 10 10) None
        (new_editor demo_options half)).2).2.

(** Two nodes of the default type, [edge-1] from the first to the second,
    both nodes selected. *)
Definition two_linked : Editor :=
  selectAll
    (createEdge "node-1" "node-2" no_options
       (createNode None (at_point 20 20) None
          (createNode None (at_point 10 10) None
             (new_editor demo_options half)).2).2).2.

(** Three nodes; [node-2 → node-1] and [node-2 → node-3]; [node-2] is
    selected. *)
Definition fan_ops : list Op :=
  [OpCreateNode None (at_point 10 10) None;
   OpCreateNode None (at_point 20 20) None;
   OpCreateNode None (at_point 30 30) None;
   OpCreateEdge "node-2" "node-1" no_options;
   OpCreateEdge "node-2" "node-3" no_options].

Definition fan : Editor :=
  selectNode "node-2" false (run fan_ops (new_editor demo_options half)).2.

(** Two nodes and the edge [node-2 → node-1]. *)
Definition back_edge_ops : list Op :=
  [OpCreateNode None (at_point 10 10) None;
   OpCreateNode None (at_point 20 20) None;
   OpCreateEdge "node-2" "node-1" no_options].

Definition back_edge : Editor :=
  (run back_edge_ops (new_editor demo_options half)).2.

(** What [deleteNode] and [clear] never touch. *)
Definition same_setup (st st' : Editor) : Prop :=
  options st' = options st ∧ nodeTypes st' = nodeTypes st
  ∧ dragState st' = dragState st ∧ connectionState st' = connectionState st
  ∧ clipboard st' = clipboard st ∧ random st' = random st
  ∧ drawn st' = drawn st.



Definition node_created (node : Node) (d : nat) (l : list Event)
    (st : Editor) : Editor :=
  {| options := options st;
     nodes := nodes st ++ [(node_id node, node)];
     edges := edges st;
     selectedNodes := selectedNodes st;
     dragState := dragState st;
     connectionState := connectionState st;
     connectionCache := connectionCache st ++ [(node_id node, mkCache [] [])];
     dirtyNodes := dirtyNodes st;
     nodeIdCounter := S (nodeIdCounter st);
     edgeIdCounter := edgeIdCounter st;
     nodeTypes := nodeTypes st;
     clipboard := clipboard st;
     random := random st;
     drawn := d;
     log := l |}.

(** The nodes of [l] recreated in order from counter value [c] on. *)
Fixpoint renumber (c : nat) (l : list Node) : list (string * Node) :=
  match l with
  | [] => []
  | n :: l' =>
      (node_name c,
       mkNode (node_name c) (node_type n) (node_position n) (node_data n))
      :: renumber (S c) l'
  end.


(** The counter value under which the node with id [old] is recreated,
    when the ids are recreated in the order [ids] from [c] on. *)
Fixpoint position_of (old : string) (ids : list string) (c : nat)
  : option nat :=
  match ids with
  | [] => None
  | k :: ids' =>
      if decide (old = k) then Some c else position_of old ids' (S c)
  end.






(** The editor of [two_ghosts] after [createEdge('node-1', 'node-2')] has
    raised: [edge-1] is stored and cached. *)
Definition ghost_edge : Editor :=
  (createEdge "node-1" "node-2" no_options two_ghosts).2.

(** A document with two nodes of the unregistered type [ghost] and an edge
    between them. *)
Definition ghost_document : WorkflowData :=
  mkWorkflow
    (Some [Some (mkNodeData (Some "a") (Some "ghost") (at_point 10 10) None);
           Some (mkNodeData (Some "b") (Some "ghost") (at_point 20 20) None)])
    (Some [Some (mkEdgeData None (Some "a") (Some "b") None None)]).

(** The editor after the import of that document: [importJSON] has caught
    the [TypeError] of [createEdge] and returned [false]; both nodes and
    [edge-1] are stored. *)
Definition ghost_imported : Editor :=
  (importJSON (Ok (Some ghost_document)) (new_editor demo_options half)).2.

(** The public methods as one type of calls, and the editors that calls
    which complete without an exception can produce. *)
Inductive Call :=
  | CallCreateNode (type : option string) (position : option PositionArg)
      (data : option Obj)
  | CallUpdateNodeData (nodeId : string) (data : Obj)
  | CallDeleteNode (nodeId : string)
  | CallCreateEdge (sourceId targetId : string) (opts : EdgeOptions)
  | CallDeleteEdge (edgeId : string)
  | CallRegisterNodeType (type : string)
  | CallValidateCache
  | CallSelectNode (nodeId : string) (multi : bool)
  | CallSelectAll
  | CallClearSelection
  | CallDeleteSelected
  | CallStartDrag (e : PointerEvent) (nodeId : string) (rect : Rect)
  | CallUpdateDrag (e : PointerEvent) (canvas : Canvas)
  | CallEndDrag
  | CallStartConnection (nodeId portType : string)
  | CallEndConnection (target : option (string * string))
  | CallCopySelected
  | CallPaste
  | CallClear
  | CallLoadWorkflowData (data : option WorkflowData).

Definition perform (c : Call) : M unit :=
  match c with
  | CallCreateNode type position data =>
      λ st, (Ok tt, (createNode type position data st).2)
  | CallUpdateNodeData nodeId data => modify (updateNodeData nodeId data)
  | CallDeleteNode nodeId => deleteNode nodeId
  | CallCreateEdge sourceId targetId opts =>
      createEdge sourceId targetId opts;; mret tt
  | CallDeleteEdge edgeId => deleteEdge edgeId
  | CallRegisterNodeType type => modify (registerNodeType type)
  | CallValidateCache => modify (λ st, (validateCache st).2)
  | CallSelectNode nodeId multi => modify (selectNode nodeId multi)
  | CallSelectAll => modify selectAll
  | CallClearSelection => modify clearSelection
  | CallDeleteSelected => deleteSelected
  | CallStartDrag e nodeId rect => modify (startDrag e nodeId rect)
  | CallUpdateDrag e canvas => updateDrag e canvas
  | CallEndDrag => endDrag
  | CallStartConnection nodeId portType =>
      modify (startConnection nodeId portType)
  | CallEndConnection target => endConnection target
  | CallCopySelected => copySelected
  | CallPaste => modify paste
  | CallClear => clear
  | CallLoadWorkflowData data => loadWorkflowData data
  end.

Inductive reachable : Editor → Prop :=
  | reachable_new o rnd : reachable (new_editor o rnd)
  | reachable_call c st st' :
      reachable st → perform c st = (Ok tt, st') → reachable st'.

(** [c] describes the node at the [far] end of the stored edge [e]. *)
Definition entry_via (far : Edge → string) (st : Editor) (e : Edge)
    (c : Connected) : Prop :=
  ∃ n, (far e, n) ∈ nodes st
       ∧ c = mkConnected (far e) (node_type n) (node_data n) (edge_id e).

(** Node [b] is listed among the connections [l], reached through the
    edge [edgeId]. *)
Definition lists (l : list Connected) (b edgeId : string) : Prop :=
  ∃ c, c ∈ l ∧ cn_id c = b ∧ cn_edgeId c = edgeId.

(** The cache entry of node [k] is missing, or holds a number of inputs or
    of outputs that is not the number of stored edges into, respectively
    out of, the node. *)
Definition stale (st : Editor) (k : string) : bool :=
  match jm_get k (connectionCache st) with
  | None => true
  | Some c =>
      negb (Nat.eqb (length (inputs c)) (length (in_ids k (edges st))))
      || negb (Nat.eqb (length (outputs c)) (length (out_ids k (edges st))))
  end.

(** The cache a rebuild produces: one exact entry per live node, in the
    order of the node store. *)
Definition exact_cache (st : Editor) : list (string * CacheEntry) :=
  (λ k, (k, mkCache (in_ids k (edges st)) (out_ids k (edges st))))
    <$> jm_keys (nodes st).

(** The editor of the unregistered-type example after [deleteEdge] has
    raised: [edge-1] is stored, the cache no longer lists it. *)
Definition drifted : Editor := (deleteEdge "edge-1" ghost_edge).2.

(** The selected nodes, in the order of the selection. *)
Definition selected_nodes (st : Editor) : list Node :=
  omap (λ k, jm_get k (nodes st)) (selectedNodes st).

(** A node moved by the paste offset. *)
Definition shifted (n : Node) : Node :=
  mkNode (node_id n) (node_type n)
    (mkPos (pos_x (node_position n) + 50) (pos_y (node_position n) + 50))
    (node_data n).

(** What [copySelected] keeps of a node. *)
Definition clip_of (n : Node) : ClipNode :=
  mkClipNode (node_type n) (node_data n)
    (mkPos (pos_x (node_position n)) (pos_y (node_position n))).

(** Neither coordinate of the node is -50. *)
Definition clear_of_offset (n : Node) : Prop :=
  ¬ (pos_x (node_position n) + 50 == 0)%Q
  ∧ ¬ (pos_y (node_position n) + 50 == 0)%Q.

(** The direction [endConnection] gives to an edge drawn from a port of
    role [role] on node [a] to a port on node [b]: away from [a] when the
    first port is an output, towards [a] otherwise. *)
Definition oriented (role a b : string) : string * string :=
  if bool_decide (role = "output") then (a, b) else (b, a).

(** The editor [fan] once the pointer has gone down on the output port of
    [node-3]. *)
Definition linking : Editor :=
  handleMouseDown (mkPointer 0 0 false false) (OnPort "node-3" "output") fan.

(** Where [updateDrag] puts a node that started the drag at [s], when the
    primary node is displaced by [(dx, dy)] on a grid of size [g]. *)
Definition drag_target (g : Q) (s : Position) (dx dy : Q) : Position :=
  mkPos (Qmax 0 (snap g (pos_x s + dx))) (Qmax 0 (snap g (pos_y s + dy))).

(** The pointer in canvas coordinates, less the offset at which the
    primary node was grabbed. *)
Definition pointer_x (e : PointerEvent) (canvas : Canvas) (ds : DragState)
  : Q :=
  (clientX e - rect_left (canvasRect canvas) - offsetX ds
   + scrollLeft canvas)%Q.

Definition pointer_y (e : PointerEvent) (canvas : Canvas) (ds : DragState)
  : Q :=
  (clientY e - rect_top (canvasRect canvas) - offsetY ds
   + scrollTop canvas)%Q.

(** An editor that snaps to a grid of 10, with one node at (5, 5), while
    that node is being dragged. *)
Definition grid_options : Options :=
  {| gridSize := 10; edgeStyle := default_edgeStyle;
     nodeDefaults := default_nodeDefaults; callbacks := ["onNodeMove"] |}.

Definition grid_dragging : Editor :=
  startDrag (mkPointer 6 6 false false) "node-1" (mkRect 5 5)
    (createNode None (at_point 5 5) None (new_editor grid_options half)).2.

(** The editor [one_node] while its node is being dragged. *)
Definition dragging : Editor :=
  startDrag (mkPointer 6 6 false false) "node-1" (mkRect 5 5) one_node.

(** The drag state of [dragging] and of [grid_dragging]: the single node,
    grabbed one unit right of and below its corner at (5, 5). *)
Definition drag_one : DragState :=
  mkDrag ["node-1"] "node-1" 1 1 [("node-1", mkPos 5 5)].

(** A pointer position for the examples, and a canvas at the origin that
    is not scrolled. *)
Definition pointer_at (x y : Q) : PointerEvent := mkPointer x y false false.

Definition plain_canvas : Canvas := mkCanvas (mkRect 0 0) 0 0.

(** [v] is the least, respectively the greatest, value of [f] over the
    nodes of the editor. *)
Definition least (f : Node → Q) (st : Editor) (v : Q) : Prop :=
  (∀ n, n ∈ jm_values (nodes st) → (v <= f n)%Q)
  ∧ ∃ n, n ∈ jm_values (nodes st) ∧ f n = v.

Definition greatest (f : Node → Q) (st : Editor) (v : Q) : Prop :=
  (∀ n, n ∈ jm_values (nodes st) → (f n <= v)%Q)
  ∧ ∃ n, n ∈ jm_values (nodes st) ∧ f n = v.

Definition node_x (n : Node) : Q := pos_x (node_position n).
Definition node_y (n : Node) : Q := pos_y (node_position n).

(** The ids under which the node entries of a document are known to its
    edge entries. *)
Definition document_ids (ns : list (option NodeData)) : list (option string) :=
  nd_id <$> omap id ns.

(** An edge entry one of whose ends is not the id of a node entry. *)
Definition dangling (ns : list (option NodeData)) (entry : option EdgeData)
  : Prop :=
  match entry with
  | None => False
  | Some edgeData =>
      ed_source edgeData ∉ document_ids ns
      ∨ ed_target edgeData ∉ document_ids ns
  end.

Global Instance dangling_dec ns entry : Decision (dangling ns entry).
Proof. destruct entry; simpl; apply _. Defined.

(** What the listeners installed by [setupEventListeners] and the batch
    timer can be handed, together with the calls of the host. *)
Inductive Input :=
  | MouseDown (e : PointerEvent) (target : Target)
  | MouseMove (e : PointerEvent) (canvas : Canvas)
  | MouseUp (target : option (string * string))
  | KeyDown (e : KeyEvent)
  | NodeUpdate (nodeId : string) (data : Obj)
  | EdgeClick (edgeId : string) (confirmed : bool)
  | BatchTimer
  | Method (c : Call).

Definition handle (i : Input) : M unit :=
  match i with
  | MouseDown e target => modify (handleMouseDown e target)
  | MouseMove e canvas => handleMouseMove e canvas
  | MouseUp target => handleMouseUp target
  | KeyDown e => handleKeyDown e
  | NodeUpdate nodeId data => modify (updateNodeData nodeId data)
  | EdgeClick edgeId confirmed => selectEdge edgeId confirmed
  | BatchTimer => modify (λ st, (processDirtyNodes st).2)
  | Method c => perform c
  end.

(** The inputs are handled one after the other, up to the first handler
    that raises. *)
Definition session (inputs : list Input) : M unit := forEach handle inputs.

(** The monadic action keeps well-formed editors well formed when it
    returns normally. *)
Definition keeps_wf (m : M unit) : Prop :=
  ∀ st st', wf st → m st = (Ok tt, st') → wf st'.


(** Every node marked dirty is in the node store. *)
Definition dirty_ok (st : Editor) : Prop :=
  ∀ k, k ∈ dirtyNodes st → k ∈ (nodes st).*1.

(** From [st] to [st'] no node went away and the dirty set gained live
    nodes only. *)
Definition grows (st st' : Editor) : Prop :=
  (∀ k, k ∈ (nodes st).*1 → k ∈ (nodes st').*1)
  ∧ (∀ k, k ∈ dirtyNodes st' → k ∈ dirtyNodes st ∨ k ∈ (nodes st').*1).

(** The action, when it returns normally on a well-formed editor, lets the
    editor grow in that sense. *)
Definition gentle (m : M unit) : Prop :=
  ∀ st st', wf st → m st = (Ok tt, st') → grows st st'.

(** The action keeps the dirty set within the live nodes. *)
Definition keeps_dirty (m : M unit) : Prop :=
  ∀ st st', wf st → dirty_ok st → m st = (Ok tt, st') → dirty_ok st'.

(** A session that ends with two nodes marked dirty: two nodes are created
    and a connection is drawn from the first to the second. *)
Definition linking_session : list Input :=
  [Method (CallCreateNode None (at_point 10 10) None);
   Method (CallCreateNode None (at_point 20 20) None);
   MouseDown (mkPointer 0 0 false false) (OnPort "node-1" "output");
   MouseUp (Some ("node-2", "input"))].

(** * Properties *)

(** ** JS maps and sets *)

Section JsMapFacts.
Context {K V : Type} `{EqDecision K}.
Implicit Types (k : K) (v : V) (m : list (K * V)).

Lemma jm_get_Some_elem k v m : jm_get k m = Some v → (k, v) ∈ m.
Proof.
  induction m as [|[k' v'] m IH]; simpl; [done|].
  case_decide; [intros [= ->]; subst; left | right; auto].
Qed.

Lemma jm_get_None k m : jm_get k m = None ↔ k ∉ m.*1.
Proof.
  induction m as [|[k' v'] m IH]; simpl.
  - split; [intros _; apply not_elem_of_nil | done].
  - rewrite not_elem_of_cons. case_decide; [|tauto].
    split; [done|]. intros [? _]. congruence.
Qed.

Lemma jm_get_is_Some k m : is_Some (jm_get k m) ↔ k ∈ m.*1.
Proof.
  rewrite <-not_eq_None_Some, jm_get_None.
  split; [apply dec_stable | auto].
Qed.

Lemma jm_has_true k m : jm_has k m = true ↔ k ∈ m.*1.
Proof.
  rewrite <-jm_get_is_Some. unfold jm_has.
  destruct (jm_get k m); split; (done || intros [? [=]] || eauto).
Qed.

Lemma jm_has_false k m : jm_has k m = false ↔ k ∉ m.*1.
Proof.
  rewrite <-jm_has_true. destruct (jm_has k m); naive_solver.
Qed.

Lemma jm_get_elem k v m : NoDup m.*1 → (k, v) ∈ m → jm_get k m = Some v.
Proof.
  induction m as [|[k' v'] m IH]; simpl; intros Hnd Hin.
  - by apply elem_of_nil in Hin.
  - apply NoDup_cons in Hnd as [Hk' Hnd].
    apply elem_of_cons in Hin as [[= -> ->]|Hin].
    + by rewrite decide_True.
    + rewrite decide_False; [auto|].
      intros ->. apply Hk'. apply list_elem_of_fmap. by exists (k', v).
Qed.

Lemma jm_set_fresh k v m : k ∉ m.*1 → jm_set k v m = m ++ [(k, v)].
Proof.
  induction m as [|[k' v'] m IH]; simpl; [done|].
  rewrite not_elem_of_cons. intros [Hne Hk].
  rewrite decide_False by done. by rewrite IH.
Qed.

Lemma jm_get_set k k' v m :
  jm_get k' (jm_set k v m) = if decide (k' = k) then Some v else jm_get k' m.
Proof.
  induction m as [|[k0 v0] m IH]; simpl.
  - by case_decide.
  - repeat (case_decide; simpl; subst); congruence.
Qed.

Lemma jm_get_alter f k k' m :
  jm_get k' (jm_alter f k m)
  = if decide (k' = k) then f <$> jm_get k' m else jm_get k' m.
Proof.
  induction m as [|[k0 v0] m IH]; simpl.
  - by case_decide.
  - repeat (case_decide; simpl; subst); try congruence.
Qed.

Lemma jm_alter_keys f k m : (jm_alter f k m).*1 = m.*1.
Proof.
  induction m as [|[k0 v0] m IH]; simpl; [done|].
  case_decide; simpl; f_equal; exact IH.
Qed.

Lemma jm_alter_absent f k m : k ∉ m.*1 → jm_alter f k m = m.
Proof.
  induction m as [|[k0 v0] m IH]; simpl; [done|].
  rewrite not_elem_of_cons. intros [Hne Hk].
  rewrite decide_False by done. by rewrite IH.
Qed.

Lemma jm_elem_alter f k k' v' m :
  (k', v') ∈ jm_alter f k m →
  ∃ v, (k', v) ∈ m ∧ (v' = v ∨ (k' = k ∧ v' = f v)).
Proof.
  induction m as [|[k0 v0] m IH]; simpl; [by intros ?%elem_of_nil|].
  case_decide; subst.
  - intros [[= -> ->]|Hin]%elem_of_cons.
    + exists v0. split; [left|auto].
    + exists v'. split; [by right|auto].
  - intros [[= -> ->]|Hin]%elem_of_cons.
    + exists v0. split; [left|auto].
    + destruct (IH Hin) as (v & ? & ?). exists v. split; [by right|done].
Qed.

Lemma jm_elem_delete k k' v m :
  (k', v) ∈ jm_delete k m ↔ (k', v) ∈ m ∧ k' ≠ k.
Proof. unfold jm_delete. rewrite list_elem_of_filter. naive_solver. Qed.

Lemma jm_delete_keys k m : (jm_delete k m).*1 = filter (λ k', k' ≠ k) m.*1.
Proof.
  unfold jm_delete. induction m as [|[k0 v0] m IH]; simpl; [done|].
  rewrite !filter_cons. simpl. case_decide; simpl; [f_equal|]; exact IH.
Qed.

Lemma jm_delete_absent k m : k ∉ m.*1 → jm_delete k m = m.
Proof.
  unfold jm_delete. induction m as [|[k0 v0] m IH]; simpl; [done|].
  rewrite not_elem_of_cons. intros [Hne Hk].
  rewrite filter_cons. simpl. rewrite decide_True by done. by rewrite IH.
Qed.

Lemma jm_get_delete k k' m :
  jm_get k' (jm_delete k m)
  = if decide (k' = k) then None else jm_get k' m.
Proof.
  unfold jm_delete. induction m as [|[k0 v0] m IH]; simpl.
  - by case_decide.
  - rewrite filter_cons. simpl.
    repeat (case_decide; simpl; subst); try congruence.
Qed.

Lemma jm_delete_nodup k m : NoDup m.*1 → NoDup (jm_delete k m).*1.
Proof. rewrite jm_delete_keys. apply NoDup_filter. Qed.

Lemma jm_values_elem v m : v ∈ jm_values m ↔ ∃ k, (k, v) ∈ m.
Proof.
  unfold jm_values. rewrite list_elem_of_fmap. split.
  - intros ([k v'] & -> & Hin). by exists k.
  - intros (k & Hin). by exists (k, v).
Qed.

Lemma jm_keys_elem k m : k ∈ m.*1 ↔ ∃ v, (k, v) ∈ m.
Proof.
  rewrite list_elem_of_fmap. split.
  - intros ([k' v] & -> & Hin). by exists v.
  - intros (v & Hin). by exists (k, v).
Qed.
End JsMapFacts.

Section JsSetFacts.
Context {A : Type} `{EqDecision A}.
Implicit Types (a : A) (s : list A).

Lemma js_add_fresh a s : a ∉ s → js_add a s = s ++ [a].
Proof. intros. unfold js_add, js_has. by rewrite bool_decide_eq_false_2. Qed.

Lemma js_add_elem a b s : b ∈ js_add a s ↔ b = a ∨ b ∈ s.
Proof.
  unfold js_add, js_has. case_bool_decide.
  - naive_solver.
  - rewrite elem_of_app, list_elem_of_singleton. naive_solver.
Qed.

Lemma js_delete_elem a b s : b ∈ js_delete a s ↔ b ∈ s ∧ b ≠ a.
Proof. unfold js_delete. rewrite list_elem_of_filter. naive_solver. Qed.

Lemma js_delete_absent a s : a ∉ s → js_delete a s = s.
Proof.
  unfold js_delete. induction s as [|b s IH]; [done|].
  rewrite not_elem_of_cons. intros [Hne Hs].
  rewrite filter_cons. rewrite decide_True by done. by rewrite IH.
Qed.

Lemma fold_js_add_nodup s acc :
  NoDup (acc ++ s) → fold_left (λ t a, js_add a t) s acc = acc ++ s.
Proof.
  revert acc. induction s as [|a s IH]; intros acc Hnd; simpl.
  - by rewrite app_nil_r.
  - rewrite js_add_fresh.
    + rewrite IH; rewrite <-app_assoc; done.
    + apply NoDup_app in Hnd as (_ & Hd & _). intros Ha.
      apply (Hd a Ha). left.
Qed.
End JsSetFacts.

(** ** What a method leaves alone *)

Create Rewrite HintDb editor.

Lemma triggerCallback_options name subject st :
  options (triggerCallback name subject st) = options st.
Proof. unfold triggerCallback. by case_bool_decide. Qed.
Lemma triggerCallback_nodes name subject st :
  nodes (triggerCallback name subject st) = nodes st.
Proof. unfold triggerCallback. by case_bool_decide. Qed.
Lemma triggerCallback_edges name subject st :
  edges (triggerCallback name subject st) = edges st.
Proof. unfold triggerCallback. by case_bool_decide. Qed.
Lemma triggerCallback_selectedNodes name subject st :
  selectedNodes (triggerCallback name subject st) = selectedNodes st.
Proof. unfold triggerCallback. by case_bool_decide. Qed.
Lemma triggerCallback_dragState name subject st :
  dragState (triggerCallback name subject st) = dragState st.
Proof. unfold triggerCallback. by case_bool_decide. Qed.
Lemma triggerCallback_connectionState name subject st :
  connectionState (triggerCallback name subject st) = connectionState st.
Proof. unfold triggerCallback. by case_bool_decide. Qed.
Lemma triggerCallback_connectionCache name subject st :
  connectionCache (triggerCallback name subject st) = connectionCache st.
Proof. unfold triggerCallback. by case_bool_decide. Qed.
Lemma triggerCallback_dirtyNodes name subject st :
  dirtyNodes (triggerCallback name subject st) = dirtyNodes st.
Proof. unfold triggerCallback. by case_bool_decide. Qed.
Lemma triggerCallback_nodeIdCounter name subject st :
  nodeIdCounter (triggerCallback name subject st) = nodeIdCounter st.
Proof. unfold triggerCallback. by case_bool_decide. Qed.
Lemma triggerCallback_edgeIdCounter name subject st :
  edgeIdCounter (triggerCallback name subject st) = edgeIdCounter st.
Proof. unfold triggerCallback. by case_bool_decide. Qed.
Lemma triggerCallback_nodeTypes name subject st :
  nodeTypes (triggerCallback name subject st) = nodeTypes st.
Proof. unfold triggerCallback. by case_bool_decide. Qed.
Lemma triggerCallback_clipboard name subject st :
  clipboard (triggerCallback name subject st) = clipboard st.
Proof. unfold triggerCallback. by case_bool_decide. Qed.
Lemma triggerCallback_random name subject st :
  random (triggerCallback name subject st) = random st.
Proof. unfold triggerCallback. by case_bool_decide. Qed.
Lemma triggerCallback_drawn name subject st :
  drawn (triggerCallback name subject st) = drawn st.
Proof. unfold triggerCallback. by case_bool_decide. Qed.
Lemma initNodeCache_options nodeId st :
  options (initNodeCache nodeId st) = options st.
Proof. unfold initNodeCache. by case_match. Qed.
Lemma initNodeCache_nodes nodeId st :
  nodes (initNodeCache nodeId st) = nodes st.
Proof. unfold initNodeCache. by case_match. Qed.
Lemma initNodeCache_edges nodeId st :
  edges (initNodeCache nodeId st) = edges st.
Proof. unfold initNodeCache. by case_match. Qed.
Lemma initNodeCache_selectedNodes nodeId st :
  selectedNodes (initNodeCache nodeId st) = selectedNodes st.
Proof. unfold initNodeCache. by case_match. Qed.
Lemma initNodeCache_dragState nodeId st :
  dragState (initNodeCache nodeId st) = dragState st.
Proof. unfold initNodeCache. by case_match. Qed.
Lemma initNodeCache_connectionState nodeId st :
  connectionState (initNodeCache nodeId st) = connectionState st.
Proof. unfold initNodeCache. by case_match. Qed.
Lemma initNodeCache_dirtyNodes nodeId st :
  dirtyNodes (initNodeCache nodeId st) = dirtyNodes st.
Proof. unfold initNodeCache. by case_match. Qed.
Lemma initNodeCache_nodeIdCounter nodeId st :
  nodeIdCounter (initNodeCache nodeId st) = nodeIdCounter st.
Proof. unfold initNodeCache. by case_match. Qed.
Lemma initNodeCache_edgeIdCounter nodeId st :
  edgeIdCounter (initNodeCache nodeId st) = edgeIdCounter st.
Proof. unfold initNodeCache. by case_match. Qed.
Lemma initNodeCache_nodeTypes nodeId st :
  nodeTypes (initNodeCache nodeId st) = nodeTypes st.
Proof. unfold initNodeCache. by case_match. Qed.
Lemma initNodeCache_clipboard nodeId st :
  clipboard (initNodeCache nodeId st) = clipboard st.
Proof. unfold initNodeCache. by case_match. Qed.
Lemma initNodeCache_random nodeId st :
  random (initNodeCache nodeId st) = random st.
Proof. unfold initNodeCache. by case_match. Qed.
Lemma initNodeCache_drawn nodeId st :
  drawn (initNodeCache nodeId st) = drawn st.
Proof. unfold initNodeCache. by case_match. Qed.

Hint Rewrite
  triggerCallback_options triggerCallback_nodes triggerCallback_edges
  triggerCallback_selectedNodes triggerCallback_dragState
  triggerCallback_connectionState triggerCallback_connectionCache
  triggerCallback_dirtyNodes triggerCallback_nodeIdCounter
  triggerCallback_edgeIdCounter triggerCallback_nodeTypes
  triggerCallback_clipboard triggerCallback_random triggerCallback_drawn
  initNodeCache_options initNodeCache_nodes initNodeCache_edges
  initNodeCache_selectedNodes initNodeCache_dragState
  initNodeCache_connectionState initNodeCache_dirtyNodes
  initNodeCache_nodeIdCounter initNodeCache_edgeIdCounter
  initNodeCache_nodeTypes initNodeCache_clipboard initNodeCache_random
  initNodeCache_drawn
  : editor.

Lemma node_name_inj i j : node_name i = node_name j → i = j.
Proof.
  unfold node_name. intros H%(inj (String.append "node-")).
  by apply (inj pretty) in H.
Qed.

Lemma edge_name_inj i j : edge_name i = edge_name j → i = j.
Proof.
  unfold edge_name. intros H%(inj (String.append "edge-")).
  by apply (inj pretty) in H.
Qed.

Lemma triggerCallback_is_set_log name subject st :
  ∃ l, triggerCallback name subject st = set_log l st.
Proof.
  unfold triggerCallback. case_bool_decide; [eauto|].
  exists (log st). by destruct st.
Qed.

Lemma coord_or_random_state c span st :
  ∃ d, (coord_or_random c span st).2 = set_drawn d st.
Proof.
  assert (st = set_drawn (drawn st) st) by (by destruct st).
  unfold coord_or_random, Math_random.
  destruct c as [q|]; [destruct (Qeq_bool q 0)|]; simpl; eauto.
Qed.

(** ** Well-formed editors *)

Lemma new_editor_wf o rnd : wf (new_editor o rnd).
Proof.
  split; [|split].
  - split; simpl; try apply NoDup_nil_2; intros *; by intros ?%elem_of_nil.
  - split; simpl; [done|]. intros * [=].
  - intros k e n ?%elem_of_nil; done.
Qed.

Lemma fresh_node_name st :
  store_ok st → node_name (nodeIdCounter st) ∉ (nodes st).*1.
Proof.
  intros Hok [n Hin]%jm_keys_elem.
  destruct (ok_node_key st Hok _ _ Hin) as (_ & i & Hlt & Heq).
  apply node_name_inj in Heq. lia.
Qed.

Lemma fresh_edge_name st :
  store_ok st → edge_name (edgeIdCounter st) ∉ (edges st).*1.
Proof.
  intros Hok [e Hin]%jm_keys_elem.
  destruct (ok_edge_key st Hok _ _ Hin) as (_ & i & Hlt & Heq).
  apply edge_name_inj in Heq. lia.
Qed.

(** ** [createNode] *)

Lemma createNode_post type position data st :
  store_ok st → cache_ok st →
  ∃ x y d l,
    createNode type position data st
    = (node_name (nodeIdCounter st),
       {| options := options st;
          nodes := nodes st
                   ++ [(node_name (nodeIdCounter st),
                        created_node type x y data st)];
          edges := edges st;
          selectedNodes := selectedNodes st;
          dragState := dragState st;
          connectionState := connectionState st;
          connectionCache := connectionCache st
                   ++ [(node_name (nodeIdCounter st), mkCache [] [])];
          dirtyNodes := dirtyNodes st;
          nodeIdCounter := S (nodeIdCounter st);
          edgeIdCounter := edgeIdCounter st;
          nodeTypes := nodeTypes st;
          clipboard := clipboard st;
          random := random st;
          drawn := d;
          log := l |}).
Proof.
  intros Hok Hc. pose proof (fresh_node_name st Hok) as Hfresh.
  assert (node_name (nodeIdCounter st) ∉ (connectionCache st).*1) as Hfresh'
    by (by rewrite (ok_cache_keys st Hc)).
  unfold createNode.
  set (st1 := set_nodeIdCounter _ st).
  destruct (coord_or_random_state
              (arg_x (default (mkPosArg None None) position)) 400 st1)
    as [d1 E1].
  destruct (coord_or_random _ 400 st1) as [x st2]. simpl in E1. subst st2.
  set (st2 := set_drawn d1 st1).
  destruct (coord_or_random_state
              (arg_y (default (mkPosArg None None) position)) 300 st2)
    as [d2 E2].
  destruct (coord_or_random _ 300 st2) as [y st3]. simpl in E2. subst st3.
  destruct (triggerCallback_is_set_log "onNodeCreate"
              (node_name (nodeIdCounter st))
              (initNodeCache (node_name (nodeIdCounter st))
                 (set_nodes
                    (jm_set (node_name (nodeIdCounter st))
                       (created_node type x y data st) (nodes st))
                    (set_drawn d2 st2)))) as [l El].
  exists x, y, d2, l. f_equal.
  unfold created_node in El. simpl in El |- *. rewrite El.
  unfold initNodeCache. simpl.
  rewrite (proj2 (jm_has_false _ _)) by exact Hfresh'.
  simpl. by rewrite !jm_set_fresh.
Qed.

Lemma jm_get_app {K V} `{EqDecision K} (k : K) (m1 m2 : list (K * V)) :
  jm_get k (m1 ++ m2)
  = match jm_get k m1 with Some v => Some v | None => jm_get k m2 end.
Proof.
  induction m1 as [|[k' v'] m1 IH]; simpl; [done|]. by case_decide.
Qed.

Lemma filter_none {A} (P : A → Prop) `{∀ x, Decision (P x)} (l : list A) :
  (∀ x, x ∈ l → ¬ P x) → filter P l = [].
Proof.
  induction l as [|a l IH]; intros Hl; [done|].
  rewrite filter_cons_False by (apply Hl; left).
  apply IH. intros x Hx. apply Hl. by right.
Qed.

Lemma filter_all {A} (P : A → Prop) `{∀ x, Decision (P x)} (l : list A) :
  (∀ x, x ∈ l → P x) → filter P l = l.
Proof.
  induction l as [|a l IH]; intros Hl; [done|].
  rewrite filter_cons_True by (apply Hl; left).
  f_equal. apply IH. intros x Hx. apply Hl. by right.
Qed.

Lemma in_ids_nil k es :
  (∀ k' e, (k', e) ∈ es → edge_target e ≠ k) → in_ids k es = [].
Proof.
  intros H. unfold in_ids. rewrite filter_none; [done|].
  intros e [k' Hin]%jm_values_elem. by apply (H k').
Qed.

Lemma out_ids_nil k es :
  (∀ k' e, (k', e) ∈ es → edge_source e ≠ k) → out_ids k es = [].
Proof.
  intros H. unfold out_ids. rewrite filter_none; [done|].
  intros e [k' Hin]%jm_values_elem. by apply (H k').
Qed.

Lemma createNode_wf type position data st :
  wf st → wf (createNode type position data st).2.
Proof.
  intros (Hok & Hc & Hty).
  destruct (createNode_post type position data st Hok Hc)
    as (x & y & d & l & ->). simpl.
  pose proof (fresh_node_name st Hok) as Hfresh.
  split; [|split].
  - split; simpl.
    + rewrite fmap_app. apply NoDup_app. split; [apply Hok|]. split.
      * intros k Hk [->|[]%elem_of_nil]%elem_of_cons. done.
      * apply NoDup_singleton.
    + intros k n [Hin|[= -> ->]%list_elem_of_singleton]%elem_of_app.
      * destruct (ok_node_key st Hok _ _ Hin) as (? & i & ? & ?).
        split; [done|]. exists i. split; [lia|done].
      * split; [done|]. exists (nodeIdCounter st). split; [lia|done].
    + apply Hok.
    + apply Hok.
    + intros k e Hin. rewrite fmap_app, !elem_of_app.
      destruct (ok_edge_ends st Hok _ _ Hin). auto.
    + apply Hok.
    + intros k Hk. rewrite fmap_app, elem_of_app. left.
      by apply (ok_selected st Hok).
    + intros k n [Hin|[= -> ->]%list_elem_of_singleton]%elem_of_app.
      * by apply (ok_node_data st Hok k).
      * simpl. rewrite dom_union. set_solver.
    + apply Hok.
  - split; simpl.
    + intros k. rewrite !fmap_app, !elem_of_app.
      by rewrite (ok_cache_keys st Hc).
    + intros k c. rewrite jm_get_app.
      destruct (jm_get k (connectionCache st)) as [c'|] eqn:E.
      * intros [= ->]. by apply (ok_cache_sets st Hc).
      * simpl. case_decide; [|done]. intros [= <-]. subst k. simpl.
        rewrite in_ids_nil, out_ids_nil; [done| |].
        -- intros k' e Hin Heq. apply Hfresh. rewrite <-Heq.
           apply (ok_edge_ends st Hok _ _ Hin).
        -- intros k' e Hin Heq. apply Hfresh. rewrite <-Heq.
           apply (ok_edge_ends st Hok _ _ Hin).
  - intros k e n Hin. simpl in Hin |- *.
    destruct (ok_edge_ends st Hok _ _ Hin) as [Hs Ht].
    intros [[H|H%list_elem_of_singleton]%elem_of_app
           |[H|H%list_elem_of_singleton]%elem_of_app].
    + eapply Hty; eauto.
    + injection H as E1 E2. rewrite E1 in Hs. done.
    + eapply Hty; eauto.
    + injection H as E1 E2. rewrite E1 in Ht. done.
Qed.

(** ** [deleteEdge] *)

Lemma ids_delete (P : Edge → Prop) `{∀ e, Decision (P e)} es id :
  (∀ k e, (k, e) ∈ es → edge_id e = k) →
  edge_id <$> filter P (jm_values (jm_delete id es))
  = js_delete id (edge_id <$> filter P (jm_values es)).
Proof.
  unfold jm_values, jm_delete, js_delete.
  induction es as [|[k e] es IH]; intros Hk; [done|].
  assert (edge_id e = k) as Hid by (apply Hk; left).
  assert (∀ k e, (k, e) ∈ es → edge_id e = k) as Hk'
    by (intros ???; apply Hk; by right).
  specialize (IH Hk'). subst k. csimpl.
  destruct (decide (edge_id e = id)) as [Heq|Hne].
  - rewrite (filter_cons_False _ (edge_id e, e)) by (simpl; tauto).
    rewrite IH. rewrite filter_cons. case_decide; [|done].
    csimpl. by rewrite filter_cons_False by tauto.
  - rewrite (filter_cons_True _ (edge_id e, e)) by done. csimpl.
    rewrite !filter_cons. case_decide; [|done].
    csimpl. rewrite filter_cons_True by done. by rewrite IH.
Qed.

Lemma in_ids_elem id k es :
  id ∈ in_ids k es
  ↔ ∃ k' e, (k', e) ∈ es ∧ edge_id e = id ∧ edge_target e = k.
Proof.
  unfold in_ids. rewrite list_elem_of_fmap. split.
  - intros (e & -> & [Ht [k' Hin]%jm_values_elem]%list_elem_of_filter).
    eauto.
  - intros (k' & e & Hin & <- & Ht). exists e. split; [done|].
    apply list_elem_of_filter. split; [done|]. apply jm_values_elem. eauto.
Qed.

Lemma out_ids_elem id k es :
  id ∈ out_ids k es
  ↔ ∃ k' e, (k', e) ∈ es ∧ edge_id e = id ∧ edge_source e = k.
Proof.
  unfold out_ids. rewrite list_elem_of_fmap. split.
  - intros (e & -> & [Ht [k' Hin]%jm_values_elem]%list_elem_of_filter).
    eauto.
  - intros (k' & e & Hin & <- & Ht). exists e. split; [done|].
    apply list_elem_of_filter. split; [done|]. apply jm_values_elem. eauto.
Qed.

Lemma type_hooks_ok type st :
  type ∈ nodeTypes st → type_hooks type st = (Ok tt, st).
Proof. intros. unfold type_hooks. by rewrite bool_decide_eq_true_2. Qed.

Lemma disconnect_hooks_ok edge st :
  hooks_ok st (edge_source edge) (edge_target edge) →
  disconnect_hooks edge st = (Ok tt, st).
Proof.
  intros Hh. unfold disconnect_hooks, node_type_of.
  destruct (jm_get (edge_source edge) (nodes st)) as [ns|] eqn:Es; [|done].
  destruct (jm_get (edge_target edge) (nodes st)) as [nt|] eqn:Et; [|done].
  simpl. unfold mbind, M_bind.
  rewrite type_hooks_ok by (apply Hh; left; by apply jm_get_Some_elem).
  apply type_hooks_ok. apply Hh. right. by apply jm_get_Some_elem.
Qed.

Lemma disconnect_hooks_state edge st : (disconnect_hooks edge st).2 = st.
Proof.
  unfold disconnect_hooks, node_type_of.
  destruct (jm_get (edge_source edge) (nodes st)) as [ns|]; [|done].
  destruct (jm_get (edge_target edge) (nodes st)) as [nt|]; [|done].
  simpl. unfold mbind, M_bind, type_hooks. by repeat case_bool_decide.
Qed.

Lemma deleteEdge_absent edgeId st :
  edgeId ∉ (edges st).*1 → deleteEdge edgeId st = (Ok tt, st).
Proof.
  intros H%jm_get_None. unfold deleteEdge. by rewrite H.
Qed.

Lemma deleteEdge_post edge st :
  jm_get (edge_id edge) (edges st) = Some edge →
  hooks_ok st (edge_source edge) (edge_target edge) →
  ∃ l, deleteEdge (edge_id edge) st = (Ok tt, edge_deleted edge l st).
Proof.
  intros Hget Hh. unfold deleteEdge. rewrite Hget.
  unfold mbind, M_bind, modify. simpl.
  rewrite disconnect_hooks_ok by exact Hh.
  match goal with |- context [triggerCallback ?n ?s ?x] =>
    destruct (triggerCallback_is_set_log n s x) as [l ->] end.
  by exists l.
Qed.

Lemma edge_deleted_store edge l st :
  (edge_id edge, edge) ∈ edges st →
  store_ok st → store_ok (edge_deleted edge l st).
Proof.
  intros Hin Hok. split; simpl; try apply Hok.
  - apply jm_delete_nodup, Hok.
  - intros k e [H _]%jm_elem_delete. by apply (ok_edge_key st Hok).
  - intros k e [H _]%jm_elem_delete. by apply (ok_edge_ends st Hok k).
  - intros k1 e1 k2 e2 [H1 _]%jm_elem_delete [H2 _]%jm_elem_delete.
    by apply (ok_edge_pair st Hok).
  - intros k e [H _]%jm_elem_delete. by apply (ok_edge_style st Hok k).
Qed.

Lemma edge_deleted_cache edge l st :
  (edge_id edge, edge) ∈ edges st →
  store_ok st → cache_ok st → cache_ok (edge_deleted edge l st).
Proof.
  intros Hin Hok Hc.
  assert (∀ k e, (k, e) ∈ edges st → edge_id e = k) as Hkey
    by (intros k e H; by apply (ok_edge_key st Hok)).
  assert (∀ k' e, (k', e) ∈ edges st → edge_id e = edge_id edge → e = edge)
    as Huniq.
  { intros k' e H Hid. pose proof (Hkey _ _ H) as Hk'.
    pose proof (jm_get_elem _ _ _ (ok_edges_nodup st Hok) H) as G1.
    pose proof (jm_get_elem _ _ _ (ok_edges_nodup st Hok) Hin) as G2.
    congruence. }
  split; simpl.
  - intros k. rewrite !jm_alter_keys. apply Hc.
  - intros k c'. rewrite !jm_get_alter.
    destruct (jm_get k (connectionCache st)) as [c|] eqn:Ec;
      [|by repeat case_decide].
    destruct (ok_cache_sets st Hc _ _ Ec) as [Hi Ho].
    unfold in_ids, out_ids. rewrite !ids_delete by exact Hkey.
    fold (in_ids k (edges st)). fold (out_ids k (edges st)).
    intros Hc'. assert (c' =
      (if decide (k = edge_target edge) then del_input (edge_id edge)
       else id)
      ((if decide (k = edge_source edge) then del_output (edge_id edge)
        else id) c)) as ->.
    { repeat case_decide; simpl in *; congruence. }
    assert (∀ k, k ≠ edge_target edge → edge_id edge ∉ in_ids k (edges st))
      as Hni.
    { intros k0 Hne (k' & e0 & He & Hid & Ht)%in_ids_elem.
      rewrite (Huniq _ _ He Hid) in Ht. done. }
    assert (∀ k, k ≠ edge_source edge → edge_id edge ∉ out_ids k (edges st))
      as Hno.
    { intros k0 Hne (k' & e0 & He & Hid & Ht)%out_ids_elem.
      rewrite (Huniq _ _ He Hid) in Ht. done. }
    split.
    + destruct (decide (k = edge_target edge)) as [E1|E1];
        destruct (decide (k = edge_source edge)) as [E2|E2]; simpl;
        rewrite Hi; try done;
        symmetry; apply js_delete_absent; auto.
    + destruct (decide (k = edge_target edge)) as [E1|E1];
        destruct (decide (k = edge_source edge)) as [E2|E2]; simpl;
        rewrite Ho; try done;
        symmetry; apply js_delete_absent; auto.
Qed.

Lemma edge_deleted_typed edge l st :
  typed_edges st → typed_edges (edge_deleted edge l st).
Proof.
  intros Hty k e n [H _]%jm_elem_delete. simpl. by apply (Hty k).
Qed.

Lemma typed_hooks_ok k edge st :
  typed_edges st → (k, edge) ∈ edges st →
  hooks_ok st (edge_source edge) (edge_target edge).
Proof. intros Hty Hin n Hn. by apply (Hty k edge). Qed.

Lemma frame_refl st : frame st st.
Proof. by repeat split. Qed.

Lemma frame_trans st1 st2 st3 : frame st1 st2 → frame st2 st3 → frame st1 st3.
Proof. unfold frame. intros H1 H2. destruct_and!. repeat split; congruence. Qed.

Lemma deleteEdge_wf edgeId st :
  wf st →
  ∃ st', deleteEdge edgeId st = (Ok tt, st') ∧ wf st'
         ∧ edges st' = jm_delete edgeId (edges st) ∧ frame st st'.
Proof.
  intros (Hok & Hc & Hty).
  destruct (jm_get edgeId (edges st)) as [edge|] eqn:Hget.
  - pose proof (jm_get_Some_elem _ _ _ Hget) as Hin.
    destruct (ok_edge_key st Hok _ _ Hin) as [<- _].
    destruct (deleteEdge_post edge st Hget (typed_hooks_ok _ _ _ Hty Hin))
      as [l ->].
    eexists. split; [done|]. split; [|split; [done|by repeat split]].
    split; [|split].
    + by apply edge_deleted_store.
    + by apply edge_deleted_cache.
    + by apply edge_deleted_typed.
  - apply jm_get_None in Hget. exists st.
    rewrite deleteEdge_absent by done.
    rewrite jm_delete_absent by done.
    split; [done|]. split; [exact (conj Hok (conj Hc Hty))|].
    split; [done|apply frame_refl].
Qed.

Lemma filter_ext_in {A} (P Q : A → Prop) `{∀ x, Decision (P x)}
    `{∀ x, Decision (Q x)} (l : list A) :
  (∀ x, x ∈ l → P x ↔ Q x) → filter P l = filter Q l.
Proof.
  induction l as [|a l IH]; intros Hl; [done|].
  rewrite !filter_cons.
  rewrite IH by (intros x Hx; apply Hl; by right).
  destruct (Hl a) as [H1 H2]; [left|]. repeat case_decide; tauto.
Qed.

Lemma forEach_deleteEdge (l : list Edge) st :
  wf st →
  ∃ st', forEach (λ e, deleteEdge (edge_id e)) l st = (Ok tt, st')
         ∧ wf st'
         ∧ edges st' = filter (λ p, p.1 ∉ edge_id <$> l) (edges st)
         ∧ frame st st'.
Proof.
  revert st. induction l as [|e l IH]; intros st Hwf; simpl.
  - exists st. split; [done|]. split; [done|]. split; [|apply frame_refl].
    symmetry. apply filter_all. intros x _. apply not_elem_of_nil.
  - destruct (deleteEdge_wf (edge_id e) st Hwf) as (st1 & E1 & Hwf1 & He1 & F1).
    destruct (IH st1 Hwf1) as (st2 & E2 & Hwf2 & He2 & F2).
    exists st2. unfold mbind, M_bind. rewrite E1. split; [done|].
    split; [done|]. split; [|by eapply frame_trans].
    rewrite He2, He1. unfold jm_delete. rewrite list_filter_filter.
    apply list_filter_iff. intros [k v]. simpl. rewrite not_elem_of_cons.
    tauto.
Qed.

(** ** [deleteNode] *)

Lemma deleteNode_absent nodeId st :
  nodeId ∉ (nodes st).*1 → deleteNode nodeId st = (Ok tt, st).
Proof. intros H%jm_get_None. unfold deleteNode. by rewrite H. Qed.

Lemma deleteNode_live nodeId st :
  wf st → nodeId ∈ (nodes st).*1 →
  ∃ st', deleteNode nodeId st = (Ok tt, st') ∧ wf st'
    ∧ nodes st' = jm_delete nodeId (nodes st)
    ∧ edges st' = filter (λ p, ¬ incident nodeId p.2) (edges st)
    ∧ selectedNodes st' = js_delete nodeId (selectedNodes st)
    ∧ options st' = options st ∧ dragState st' = dragState st
    ∧ connectionState st' = connectionState st
    ∧ nodeIdCounter st' = nodeIdCounter st
    ∧ edgeIdCounter st' = edgeIdCounter st ∧ nodeTypes st' = nodeTypes st
    ∧ clipboard st' = clipboard st ∧ random st' = random st
    ∧ drawn st' = drawn st.
Proof.
  intros Hwf [node Hget]%jm_get_is_Some.
  unfold deleteNode. rewrite Hget.
  destruct (forEach_deleteEdge
              (filter (incident nodeId) (jm_values (edges st))) st Hwf)
    as (st1 & E1 & (Hok1 & Hc1 & Hty1) & He1 & F1).
  unfold mbind, M_bind, modify. rewrite E1. simpl.
  match goal with |- context [triggerCallback ?n ?s ?x] =>
    destruct (triggerCallback_is_set_log n s x) as [l ->] end.
  unfold frame in F1. destruct_and!.
  destruct Hwf as (Hok & Hc & Hty).
  assert (edges st1 = filter (λ p, ¬ incident nodeId p.2) (edges st)) as He.
  { rewrite He1. apply filter_ext_in. intros [k e] Hin. simpl.
    destruct (ok_edge_key st Hok _ _ Hin) as [Hid _]. split.
    - intros Hn Hinc. apply Hn. apply list_elem_of_fmap. exists e.
      split; [done|]. apply list_elem_of_filter. split; [done|].
      apply jm_values_elem. eauto.
    - intros Hn (e' & Hid' & [Hinc [k' Hin']%jm_values_elem]%list_elem_of_filter)%list_elem_of_fmap.
      destruct (ok_edge_key st Hok _ _ Hin') as [Hid'' _].
      assert (k' = k) as -> by congruence.
      pose proof (jm_get_elem _ _ _ (ok_edges_nodup st Hok) Hin).
      pose proof (jm_get_elem _ _ _ (ok_edges_nodup st Hok) Hin').
      assert (e' = e) as -> by congruence. done. }
  assert (∀ k e, (k, e) ∈ edges st1 → ¬ incident nodeId e) as Hninc.
  { intros k e. rewrite He. by intros [? _]%list_elem_of_filter. }
  eexists. split; [done|]. split; [|simpl; repeat split; congruence].
  split; [|split].
  - split; simpl.
    + apply jm_delete_nodup, Hok1.
    + intros k n [Hin _]%jm_elem_delete. by apply (ok_node_key st1 Hok1).
    + apply Hok1.
    + apply Hok1.
    + intros k e Hin. rewrite jm_delete_keys, !list_elem_of_filter.
      destruct (ok_edge_ends st1 Hok1 _ _ Hin) as [Hs Ht].
      split; (split; [|done]); intros Heq; apply (Hninc _ _ Hin);
        [by left|by right].
    + apply Hok1.
    + intros k [Hk Hne]%js_delete_elem. rewrite jm_delete_keys.
      apply list_elem_of_filter. split; [done|].
      by apply (ok_selected st1 Hok1).
    + intros k n [Hin _]%jm_elem_delete. by apply (ok_node_data st1 Hok1 k).
    + apply Hok1.
  - split; simpl.
    + intros k. rewrite !jm_delete_keys, !list_elem_of_filter.
      by rewrite (ok_cache_keys st1 Hc1).
    + intros k c. rewrite jm_get_delete. case_decide; [done|].
      apply (ok_cache_sets st1 Hc1).
  - intros k e n Hin [[Hn _]%jm_elem_delete|[Hn _]%jm_elem_delete];
      simpl; eapply Hty1; eauto.
Qed.

(** ** [createEdge] *)

Lemma createEdge_missing sourceId targetId opts st :
  sourceId ∉ (nodes st).*1 ∨ targetId ∉ (nodes st).*1 →
  createEdge sourceId targetId opts st = (Ok None, st).
Proof.
  intros H. unfold createEdge.
  destruct H as [H%jm_has_false|H%jm_has_false]; rewrite H; simpl;
    [done|by rewrite orb_true_r].
Qed.

Lemma createEdge_existing sourceId targetId opts st i e :
  sourceId ∈ (nodes st).*1 → targetId ∈ (nodes st).*1 →
  list_find (same_pair sourceId targetId) (jm_values (edges st))
    = Some (i, e) →
  createEdge sourceId targetId opts st = (Ok (Some (edge_id e)), st).
Proof.
  intros Hs%jm_has_true Ht%jm_has_true Hf. unfold createEdge.
  by rewrite Hs, Ht, Hf.
Qed.

Lemma connect_hooks_state sourceId targetId st :
  (connect_hooks sourceId targetId st).2 = st.
Proof.
  unfold connect_hooks.
  destruct (node_type_of sourceId st); [|done].
  destruct (node_type_of targetId st); [|done].
  simpl. unfold mbind, M_bind, type_hooks. by repeat case_bool_decide.
Qed.

Lemma connect_hooks_ok sourceId targetId st :
  sourceId ∈ (nodes st).*1 → targetId ∈ (nodes st).*1 →
  hooks_ok st sourceId targetId →
  connect_hooks sourceId targetId st = (Ok tt, st).
Proof.
  intros [ns Hs]%jm_get_is_Some [nt Ht]%jm_get_is_Some Hh.
  unfold connect_hooks, node_type_of. rewrite Hs, Ht. simpl.
  unfold mbind, M_bind.
  rewrite type_hooks_ok by (apply Hh; left; by apply jm_get_Some_elem).
  apply type_hooks_ok. apply Hh. right. by apply jm_get_Some_elem.
Qed.

Lemma connect_hooks_throw sourceId targetId st :
  NoDup (nodes st).*1 →
  ¬ hooks_ok st sourceId targetId →
  connect_hooks sourceId targetId st = (Throw "TypeError", st).
Proof.
  intros Hnd Hh. unfold connect_hooks, node_type_of.
  destruct (jm_get sourceId (nodes st)) as [ns|] eqn:Hs; [|done].
  destruct (jm_get targetId (nodes st)) as [nt|] eqn:Ht; [|done].
  simpl. unfold mbind, M_bind, type_hooks.
  repeat case_bool_decide; try done.
  exfalso. apply Hh. intros n [Hn|Hn];
    apply (jm_get_elem _ _ _ Hnd) in Hn; congruence.
Qed.

Lemma initNodeCache_live nodeId st :
  nodeId ∈ (connectionCache st).*1 → initNodeCache nodeId st = st.
Proof. intros H%jm_has_true. unfold initNodeCache. by rewrite H. Qed.

Lemma updateCacheOnEdgeCreate_live edge st :
  edge_source edge ∈ (connectionCache st).*1 →
  edge_target edge ∈ (connectionCache st).*1 →
  updateCacheOnEdgeCreate edge st
  = set_dirtyNodes
      (js_add (edge_target edge) (js_add (edge_source edge) (dirtyNodes st)))
      (set_connectionCache
         (jm_alter (add_input (edge_id edge)) (edge_target edge)
            (jm_alter (add_output (edge_id edge)) (edge_source edge)
               (connectionCache st))) st).
Proof.
  intros Hs Ht. unfold updateCacheOnEdgeCreate.
  rewrite (initNodeCache_live _ st Hs), (initNodeCache_live _ st Ht).
  by destruct st.
Qed.

Lemma createEdge_new sourceId targetId opts st :
  store_ok st → cache_ok st →
  sourceId ∈ (nodes st).*1 → targetId ∈ (nodes st).*1 →
  list_find (same_pair sourceId targetId) (jm_values (edges st)) = None →
  (hooks_ok st sourceId targetId →
   ∃ l, createEdge sourceId targetId opts st
        = (Ok (Some (edge_name (edgeIdCounter st))),
           edge_created (new_edge sourceId targetId opts st) l st))
  ∧ (¬ hooks_ok st sourceId targetId →
     createEdge sourceId targetId opts st
     = (Throw "TypeError",
        edge_created (new_edge sourceId targetId opts st) (log st) st)).
Proof.
  intros Hok Hc Hs Ht Hf.
  pose proof (fresh_edge_name st Hok) as Hfresh.
  pose proof (proj2 (jm_has_true _ _) Hs) as Hs'.
  pose proof (proj2 (jm_has_true _ _) Ht) as Ht'.
  unfold createEdge. rewrite Hs', Ht', Hf. simpl.
  unfold mbind, M_bind, modify, mret, M_ret. simpl.
  fold (new_edge sourceId targetId opts st).
  rewrite updateCacheOnEdgeCreate_live
    by (simpl; by apply (ok_cache_keys st Hc)).
  simpl. rewrite jm_set_fresh by done.
  match goal with |- context [connect_hooks ?s ?t ?x] =>
    set (st1 := x) end.
  assert (hooks_ok st1 sourceId targetId ↔ hooks_ok st sourceId targetId)
    as Hh1 by done.
  split; intros Hh.
  - rewrite connect_hooks_ok by (done || by apply Hh1).
    match goal with |- context [triggerCallback ?n ?s ?x] =>
      destruct (triggerCallback_is_set_log n s x) as [l ->] end.
    by exists l.
  - rewrite connect_hooks_throw; [|apply Hok|by rewrite Hh1].
    reflexivity.
Qed.

Lemma in_ids_snoc k es id e :
  in_ids k (es ++ [(id, e)])
  = in_ids k es ++ (if decide (edge_target e = k) then [edge_id e] else []).
Proof.
  unfold in_ids, jm_values. rewrite fmap_app, filter_app, fmap_app.
  f_equal. csimpl. rewrite filter_cons, filter_nil. by case_decide.
Qed.

Lemma out_ids_snoc k es id e :
  out_ids k (es ++ [(id, e)])
  = out_ids k es ++ (if decide (edge_source e = k) then [edge_id e] else []).
Proof.
  unfold out_ids, jm_values. rewrite fmap_app, filter_app, fmap_app.
  f_equal. csimpl. rewrite filter_cons, filter_nil. by case_decide.
Qed.

Lemma edge_created_store sourceId targetId opts l st :
  store_ok st →
  sourceId ∈ (nodes st).*1 → targetId ∈ (nodes st).*1 →
  list_find (same_pair sourceId targetId) (jm_values (edges st)) = None →
  store_ok (edge_created (new_edge sourceId targetId opts st) l st).
Proof.
  intros Hok Hs Ht Hf. pose proof (fresh_edge_name st Hok) as Hfresh.
  assert (∀ k e, (k, e) ∈ edges st → ¬ same_pair sourceId targetId e)
    as Hnone.
  { intros k e Hin. apply list_find_None in Hf.
    apply (proj1 (Forall_forall _ _) Hf). apply jm_values_elem. eauto. }
  split; simpl; try apply Hok.
  - rewrite fmap_app. apply NoDup_app. split; [apply Hok|]. split.
    + intros k Hk [->|[]%elem_of_nil]%elem_of_cons. done.
    + apply NoDup_singleton.
  - intros k e [Hin|[= -> ->]%list_elem_of_singleton]%elem_of_app.
    + destruct (ok_edge_key st Hok _ _ Hin) as (? & i & ? & ?).
      split; [done|]. exists i. split; [lia|done].
    + split; [done|]. exists (edgeIdCounter st). split; [lia|done].
  - intros k e [Hin|[= -> ->]%list_elem_of_singleton]%elem_of_app.
    + by apply (ok_edge_ends st Hok k).
    + done.
  - intros k1 e1 k2 e2
      [H1|[= -> ->]%list_elem_of_singleton]%elem_of_app
      [H2|[= -> ->]%list_elem_of_singleton]%elem_of_app; simpl.
    + by apply (ok_edge_pair st Hok).
    + intros E1 E2. by destruct (Hnone _ _ H1).
    + intros E1 E2. by destruct (Hnone _ _ H2).
    + done.
  - intros k e [Hin|[= -> ->]%list_elem_of_singleton]%elem_of_app.
    + by apply (ok_edge_style st Hok k).
    + simpl. rewrite dom_union. set_solver.
Qed.

Lemma edge_created_cache edge l st :
  store_ok st → cache_ok st →
  edge_id edge ∉ (edges st).*1 →
  cache_ok (edge_created edge l st).
Proof.
  intros Hok Hc Hfresh.
  assert (∀ k, edge_id edge ∉ in_ids k (edges st)) as Hni.
  { intros k (k' & e & He & Hid & _)%in_ids_elem. apply Hfresh.
    destruct (ok_edge_key st Hok _ _ He) as [Hk _].
    apply jm_keys_elem. exists e. congruence. }
  assert (∀ k, edge_id edge ∉ out_ids k (edges st)) as Hno.
  { intros k (k' & e & He & Hid & _)%out_ids_elem. apply Hfresh.
    destruct (ok_edge_key st Hok _ _ He) as [Hk _].
    apply jm_keys_elem. exists e. congruence. }
  split; simpl.
  - intros k. rewrite !jm_alter_keys. apply Hc.
  - intros k c'. rewrite !jm_get_alter.
    destruct (jm_get k (connectionCache st)) as [c|] eqn:Ec;
      [|by repeat case_decide].
    destruct (ok_cache_sets st Hc _ _ Ec) as [Hi Ho].
    rewrite in_ids_snoc, out_ids_snoc.
    intros Hc'. assert (c' =
      (if decide (k = edge_target edge) then add_input (edge_id edge)
       else id)
      ((if decide (k = edge_source edge) then add_output (edge_id edge)
        else id) c)) as ->.
    { repeat case_decide; simpl in *; congruence. }
    split.
    + destruct (decide (k = edge_target edge)) as [E1|E1];
        destruct (decide (k = edge_source edge)) as [E2|E2]; simpl;
        rewrite Hi.
      * rewrite decide_True by done. by apply js_add_fresh.
      * rewrite decide_True by done. by apply js_add_fresh.
      * rewrite decide_False by done. by rewrite app_nil_r.
      * rewrite decide_False by done. by rewrite app_nil_r.
    + destruct (decide (k = edge_target edge)) as [E1|E1];
        destruct (decide (k = edge_source edge)) as [E2|E2]; simpl;
        rewrite Ho.
      * rewrite decide_True by done. by apply js_add_fresh.
      * rewrite decide_False by done. by rewrite app_nil_r.
      * rewrite decide_True by done. by apply js_add_fresh.
      * rewrite decide_False by done. by rewrite app_nil_r.
Qed.

Lemma edge_created_typed edge l st :
  typed_edges st →
  hooks_ok st (edge_source edge) (edge_target edge) →
  typed_edges (edge_created edge l st).
Proof.
  intros Hty Hh k e n. simpl.
  intros [Hin|[= -> ->]%list_elem_of_singleton]%elem_of_app.
  - by apply (Hty k).
  - apply Hh.
Qed.

Lemma createEdge_cases sourceId targetId opts st :
  store_ok st → cache_ok st →
  ∃ r st', createEdge sourceId targetId opts st = (r, st')
           ∧ createEdge_outcome sourceId targetId opts st r st'.
Proof.
  intros Hok Hc.
  destruct (decide (sourceId ∈ (nodes st).*1)) as [Hs|Hs].
  2:{ exists (Ok None), st. split; [apply createEdge_missing; auto|].
      constructor; auto. }
  destruct (decide (targetId ∈ (nodes st).*1)) as [Ht|Ht].
  2:{ exists (Ok None), st. split; [apply createEdge_missing; auto|].
      constructor; auto. }
  destruct (list_find (same_pair sourceId targetId) (jm_values (edges st)))
    as [[i e]|] eqn:Hf.
  - exists (Ok (Some (edge_id e))), st.
    split; [by eapply createEdge_existing|].
    apply list_find_Some in Hf as (Hl & HP & _).
    apply list_elem_of_lookup_2, jm_values_elem in Hl as [k Hin].
    destruct (ok_edge_key st Hok _ _ Hin) as [-> _].
    by eapply ce_existing.
  - assert (∀ k e, (k, e) ∈ edges st → ¬ same_pair sourceId targetId e)
      as Hnone.
    { intros k e Hin. apply list_find_None in Hf.
      apply (proj1 (Forall_forall _ _) Hf). apply jm_values_elem. eauto. }
    destruct (createEdge_new sourceId targetId opts st Hok Hc Hs Ht Hf)
      as [H1 H2].
    destruct (decide (hooks_ok st sourceId targetId)) as [Hh|Hh].
    + destruct (H1 Hh) as [l El]. do 2 eexists. split; [exact El|].
      by constructor.
    + do 2 eexists. split; [exact (H2 Hh)|]. by constructor.
Qed.

Lemma createEdge_outcome_ok sourceId targetId opts st r st' :
  wf st → createEdge_outcome sourceId targetId opts st r st' →
  store_ok st' ∧ cache_ok st'
  ∧ (typed_edges st' ∨ ∃ e, r = Throw e).
Proof.
  intros (Hok & Hc & Hty) Hout.
  assert (∀ s t, (∀ k e, (k, e) ∈ edges st → ¬ same_pair s t e) →
     list_find (same_pair s t) (jm_values (edges st)) = None) as Hfind.
  { intros s t Hn. apply list_find_None, Forall_forall.
    intros e [k Hin]%jm_values_elem. by apply (Hn k). }
  destruct Hout as [H|k e Hin HP|l Hs Ht Hn Hh|Hs Ht Hn Hh]; auto.
  - split; [apply edge_created_store; auto|].
    split; [apply edge_created_cache; auto; by apply fresh_edge_name|].
    left. by apply edge_created_typed.
  - split; [apply edge_created_store; auto|].
    split; [apply edge_created_cache; auto; by apply fresh_edge_name|].
    right. eauto.
Qed.

(** ** [validateCache] *)

Lemma jm_set_keys {K V} `{EqDecision K} (k : K) (v : V) (m : list (K * V)) :
  (jm_set k v m).*1 = if decide (k ∈ m.*1) then m.*1 else m.*1 ++ [k].
Proof.
  induction m as [|[k' v'] m IH]; csimpl.
  - done.
  - destruct (decide (k = k')) as [->|Hne]; csimpl.
    + rewrite decide_True; [done|left].
    + rewrite IH. destruct (decide (k ∈ m.*1)).
      * rewrite decide_True; [done|by right].
      * rewrite decide_False; [done|]. rewrite not_elem_of_cons. done.
Qed.

Lemma empty_cache_get (ks : list string) (m : list (string * CacheEntry)) :
  NoDup m.*1 →
  (∀ k c, jm_get k m = Some c → c = mkCache [] []) →
  let m' := fold_left (λ m nodeId, jm_set nodeId (mkCache [] []) m) ks m in
  NoDup m'.*1
  ∧ (∀ k, k ∈ m'.*1 ↔ k ∈ ks ∨ k ∈ m.*1)
  ∧ (∀ k c, jm_get k m' = Some c → c = mkCache [] []).
Proof.
  revert m. induction ks as [|k0 ks IH]; intros m Hnd Hm; simpl.
  - split; [done|]. split; [|done]. intros k. rewrite elem_of_nil. tauto.
  - destruct (IH (jm_set k0 (mkCache [] []) m)) as (H1 & H2 & H3).
    + rewrite jm_set_keys. case_decide; [done|].
      apply NoDup_app. split; [done|]. split; [|apply NoDup_singleton].
      intros k Hk ->%list_elem_of_singleton. done.
    + intros k c. rewrite jm_get_set. case_decide; [congruence|apply Hm].
    + split; [done|]. split; [|done]. intros k. rewrite H2, jm_set_keys.
      rewrite elem_of_cons. case_decide.
      * split; [tauto|]. intros [[->|?]|?]; auto.
      * rewrite elem_of_app, list_elem_of_singleton. tauto.
Qed.

Lemma rebuild_get (es : list Edge) (m : list (string * CacheEntry)) k :
  (∀ e, e ∈ es → edge_source e ∈ m.*1 ∧ edge_target e ∈ m.*1) →
  jm_get k (fold_left rebuild_edge es m)
  = (λ c, mkCache
            (add_all (edge_id <$> filter (λ e, edge_target e = k) es)
               (inputs c))
            (add_all (edge_id <$> filter (λ e, edge_source e = k) es)
               (outputs c)))
    <$> jm_get k m.
Proof.
  revert m. induction es as [|e es IH]; intros m Hm; simpl.
  - by destruct (jm_get k m) as [[]|].
  - destruct (Hm e) as [Hs Ht]; [left|].
    unfold rebuild_edge at 2.
    rewrite (proj2 (jm_has_true _ _) Hs), (proj2 (jm_has_true _ _) Ht).
    simpl. rewrite IH.
    2:{ intros e' He'. rewrite !jm_alter_keys. apply Hm. by right. }
    rewrite !jm_get_alter. rewrite !filter_cons.
    destruct (jm_get k m) as [c|]; [|by repeat case_decide].
    destruct (decide (k = edge_target e)) as [->|E1];
      destruct (decide (_ = edge_source e)) as [E2|E2]; simpl.
    + rewrite decide_True by done. by rewrite decide_True by done.
    + rewrite decide_True by done. by rewrite decide_False by done.
    + rewrite decide_False by done. by rewrite decide_True by done.
    + rewrite decide_False by done. by rewrite decide_False by done.
Qed.

Lemma rebuild_keys (es : list Edge) (m : list (string * CacheEntry)) :
  (fold_left rebuild_edge es m).*1 = m.*1.
Proof.
  revert m. induction es as [|e es IH]; intros m; simpl; [done|].
  rewrite IH. unfold rebuild_edge. case_match; [|done].
  by rewrite !jm_alter_keys.
Qed.

Lemma edge_ids_nodup (P : Edge → Prop) `{∀ e, Decision (P e)} st :
  store_ok st → NoDup (edge_id <$> filter P (jm_values (edges st))).
Proof.
  intros Hok. eapply sublist_NoDup; [apply (ok_edges_nodup st Hok)|].
  assert (edge_id <$> jm_values (edges st) = (edges st).*1) as <-.
  { unfold jm_values. rewrite <-list_fmap_compose. apply list_fmap_ext.
    intros i [k e] Hin%list_elem_of_lookup_2. simpl.
    by apply (ok_edge_key st Hok). }
  apply fmap_sublist, sublist_filter.
Qed.

Lemma rebuildCache_get st k c :
  store_ok st →
  jm_get k (rebuildCache st) = Some c →
  k ∈ (nodes st).*1
  ∧ inputs c = in_ids k (edges st) ∧ outputs c = out_ids k (edges st).
Proof.
  intros Hok. unfold rebuildCache.
  destruct (empty_cache_get (jm_keys (nodes st)) [] (NoDup_nil_2))
    as (H1 & H2 & H3); [by intros ? ? [=]|]. simpl in *.
  rewrite rebuild_get.
  2:{ intros e [k' Hin]%jm_values_elem. rewrite !H2.
      destruct (ok_edge_ends st Hok _ _ Hin). auto. }
  destruct (jm_get k _) as [c0|] eqn:E0; [|done]. simpl. intros [= <-].
  pose proof (H3 _ _ E0) as ->. simpl.
  split.
  - assert (is_Some (jm_get k
      (fold_left (λ m nodeId, jm_set nodeId (mkCache [] []) m)
         (jm_keys (nodes st)) []))) as Hk%jm_get_is_Some by (by eexists).
    apply H2 in Hk as [Hk|Hk%elem_of_nil]; done.
  - unfold add_all, in_ids, out_ids.
    rewrite !fold_js_add_nodup; simpl; (done || by apply edge_ids_nodup).
Qed.

Lemma rebuildCache_nodup st : NoDup (rebuildCache st).*1.
Proof.
  unfold rebuildCache. rewrite rebuild_keys.
  by destruct (empty_cache_get (jm_keys (nodes st)) [] (NoDup_nil_2))
    as (H1 & _); [by intros ? ? [=]|].
Qed.

Lemma count_none {A} (f : A → bool) (l : list A) n :
  (∀ a, a ∈ l → f a = false) →
  fold_left (λ n p, if f p then S n else n) l n = n.
Proof.
  revert n. induction l as [|a l IH]; intros n Hl; simpl; [done|].
  rewrite (Hl a) by left. apply IH. intros b Hb. apply Hl. by right.
Qed.

(** On a well-formed store with a faithful cache the validation pass finds
    nothing and leaves the editor as it is. *)
Lemma validateCache_clean st :
  store_ok st → cache_ok st → validateCache st = (0, st).
Proof.
  intros Hok Hc. unfold validateCache.
  rewrite count_none; [done|].
  intros [k c'] Hin. unfold cache_issue. simpl.
  apply (jm_get_elem _ _ _ (rebuildCache_nodup st)) in Hin.
  destruct (rebuildCache_get st k c' Hok Hin) as (Hk & Hi & Ho).
  apply (ok_cache_keys st Hc), jm_get_is_Some in Hk as [c Ec].
  rewrite Ec. destruct (ok_cache_sets st Hc _ _ Ec) as [-> ->].
  rewrite Hi, Ho. by rewrite !Nat.eqb_refl.
Qed.

(** ** Sequences of store operations *)

Lemma deleteNode_wf nodeId st :
  wf st → ∃ st', deleteNode nodeId st = (Ok tt, st') ∧ wf st'.
Proof.
  intros Hwf. destruct (decide (nodeId ∈ (nodes st).*1)) as [Hin|Hin].
  - destruct (deleteNode_live nodeId st Hwf Hin) as (st' & E & Hwf' & _).
    eauto.
  - exists st. by rewrite deleteNode_absent.
Qed.

Lemma call_wf op st :
  wf st →
  ∃ r st', call op st = (r, st') ∧ store_ok st' ∧ cache_ok st'
           ∧ (r = Ok tt → typed_edges st').
Proof.
  intros Hwf. destruct op as [type position data|nodeId|s t opts|edgeId];
    simpl.
  - destruct (createNode_wf type position data st Hwf) as (? & ? & ?).
    eauto 10.
  - destruct (deleteNode_wf nodeId st Hwf) as (st' & -> & ? & ? & ?).
    eauto 10.
  - destruct Hwf as (Hok & Hc & Hty).
    destruct (createEdge_cases s t opts st Hok Hc) as (r & st' & E & Hout).
    destruct (createEdge_outcome_ok s t opts st r st'
                (conj Hok (conj Hc Hty)) Hout) as (Hok' & Hc' & Hty').
    unfold mbind, M_bind. rewrite E.
    destruct r as [v|msg]; do 2 eexists; (split; [done|]);
      (split; [done|]); (split; [done|]).
    + intros _. by destruct Hty' as [?|[? [=]]].
    + intros [=].
  - destruct (deleteEdge_wf edgeId st Hwf) as (st' & -> & (? & ? & ?) & _).
    eauto 10.
Qed.

Lemma run_store_cache ops st :
  wf st → store_ok (run ops st).2 ∧ cache_ok (run ops st).2.
Proof.
  revert st. induction ops as [|op ops IH]; intros st Hwf; simpl.
  - split; apply Hwf.
  - destruct (call_wf op st Hwf) as (r & st' & E & Hok & Hc & Hty).
    unfold run in *. simpl. unfold mbind, M_bind. rewrite E.
    destruct r as [[]|msg]; simpl; [|done].
    apply IH. split; [done|]. split; [done|]. by apply Hty.
Qed.

Lemma run_wf ops st st' :
  wf st → run ops st = (Ok tt, st') → wf st'.
Proof.
  revert st. induction ops as [|op ops IH]; intros st Hwf; simpl.
  - by intros [= <-].
  - destruct (call_wf op st Hwf) as (r & st1 & E & Hok & Hc & Hty).
    unfold run in *. simpl. unfold mbind, M_bind. rewrite E.
    destruct r as [[]|msg]; simpl; [|done].
    apply IH. split; [done|]. split; [done|]. by apply Hty.
Qed.

(** X23.  Cache consistency up to the first exception.  Whatever sequence
    of [createNode], [deleteNode], [createEdge] and [deleteEdge] calls is
    started on a new editor, when it has run to its end or to the first
    call that raises, the validation pass finds no issue.  What happens
    when the caller goes on after an exception is shown further down,
    with the nodes of an unregistered type. *)
Theorem validateCache_after_run (o : Options) (rnd : nat → Q)
    (ops : list Op) :
  (validateCache (run ops (new_editor o rnd)).2).1 = 0.
Proof.
  destruct (run_store_cache ops (new_editor o rnd) (new_editor_wf o rnd))
    as [Hok Hc].
  by rewrite validateCache_clean.
Qed.

(** ** Positions given to [createNode] *)

Lemma coord_or_random_random c span st :
  random (coord_or_random c span st).2 = random st.
Proof. by destruct (coord_or_random_state c span st) as [d ->]. Qed.

Lemma coord_or_random_given v span st :
  ¬ (v == 0)%Q → (coord_or_random (Some v) span st).1 = v.
Proof.
  intros Hv. unfold coord_or_random.
  destruct (Qeq_bool v 0) eqn:E; [|done].
  by apply Qeq_bool_iff in E.
Qed.

Lemma coord_or_random_drawn c span st :
  match c with Some v => (v == 0)%Q | None => True end →
  (coord_or_random c span st).1 = (random st (drawn st) * span + 100)%Q.
Proof.
  unfold coord_or_random, Math_random. destruct c as [v|]; [|done].
  intros Hv%Qeq_bool_iff. by rewrite Hv.
Qed.

Lemma createNode_nodes type position data st :
  let st1 := set_nodeIdCounter (S (nodeIdCounter st)) st in
  let p := default (mkPosArg None None) position in
  let cx := coord_or_random (arg_x p) 400 st1 in
  let cy := coord_or_random (arg_y p) 300 cx.2 in
  nodes (createNode type position data st).2
  = jm_set (node_name (nodeIdCounter st))
      (created_node type cx.1 cy.1 data st) (nodes st).
Proof.
  simpl. unfold createNode.
  destruct (coord_or_random_state
              (arg_x (default (mkPosArg None None) position)) 400
              (set_nodeIdCounter (S (nodeIdCounter st)) st)) as [d1 E1].
  destruct (coord_or_random _ 400 _) as [x st2]. simpl in E1. subst st2.
  simpl.
  destruct (coord_or_random_state
              (arg_y (default (mkPosArg None None) position)) 300
              (set_drawn d1 (set_nodeIdCounter (S (nodeIdCounter st)) st)))
    as [d2 E2].
  destruct (coord_or_random _ 300 _) as [y st3]. simpl in E2. subst st3.
  simpl. by autorewrite with editor.
Qed.

Lemma createNode_id type position data st :
  (createNode type position data st).1 = node_name (nodeIdCounter st).
Proof.
  unfold createNode.
  destruct (coord_or_random _ 400 _) as [x st2].
  by destruct (coord_or_random _ 300 _) as [y st3].
Qed.

(** C10.  [createNode] keeps a supplied coordinate only when it is not
    zero: a supplied [x] (or [y]) equal to 0 is replaced by a random draw
    scaled into [100, 500) (respectively [100, 400)), any other supplied
    coordinate is stored as given. *)
Theorem createNode_zero_coordinate (type : option string)
    (position : PositionArg) (data : option Obj) (st : Editor) :
  (∀ n, (0 <= random st n)%Q ∧ (random st n < 1)%Q) →
  ∃ node,
    jm_get (createNode type (Some position) data st).1
      (nodes (createNode type (Some position) data st).2) = Some node
    ∧ (∀ v, arg_x position = Some v → (v == 0)%Q →
         (100 <= pos_x (node_position node))%Q
         ∧ (pos_x (node_position node) < 500)%Q)
    ∧ (∀ v, arg_x position = Some v → ¬ (v == 0)%Q →
         pos_x (node_position node) = v)
    ∧ (∀ v, arg_y position = Some v → (v == 0)%Q →
         (100 <= pos_y (node_position node))%Q
         ∧ (pos_y (node_position node) < 400)%Q)
    ∧ (∀ v, arg_y position = Some v → ¬ (v == 0)%Q →
         pos_y (node_position node) = v).
Proof.
  intros Hrnd. rewrite createNode_id, createNode_nodes.
  eexists. split; [rewrite jm_get_set; by rewrite decide_True|].
  simpl. repeat split.
  - rewrite H, coord_or_random_drawn by done. simpl.
    destruct (Hrnd (drawn st)). lra.
  - rewrite H, coord_or_random_drawn by done. simpl.
    destruct (Hrnd (drawn st)). lra.
  - intros v -> Hv. by apply coord_or_random_given.
  - rewrite H, coord_or_random_drawn by done.
    rewrite coord_or_random_random. simpl.
    destruct (Hrnd (drawn (coord_or_random (arg_x position) 400
      (set_nodeIdCounter (S (nodeIdCounter st)) st)).2)). lra.
  - rewrite H, coord_or_random_drawn by done.
    rewrite coord_or_random_random. simpl.
    destruct (Hrnd (drawn (coord_or_random (arg_x position) 400
      (set_nodeIdCounter (S (nodeIdCounter st)) st)).2)). lra.
  - intros v -> Hv. by apply coord_or_random_given.
Qed.

Lemma createNode_zero_coordinate_witness :
  ∃ node,
    jm_get "node-1"
      (nodes (createNode None (Some (mkPosArg (Some 0%Q) (Some 7%Q))) None
                (new_editor default_options half)).2) = Some node
    ∧ (pos_x (node_position node) == 300)%Q
    ∧ pos_y (node_position node) = 7%Q.
Proof.
  destruct (createNode_zero_coordinate None (mkPosArg (Some 0%Q) (Some 7%Q)) None
              (new_editor default_options half)) as (node & Hget & Hx & _ & _ & Hy).
  - intros n. unfold half. simpl. split; [discriminate|reflexivity].
  - exists node. split; [exact Hget|].
    split; [|apply (Hy 7%Q); [reflexivity|discriminate]].
    vm_compute in Hget. injection Hget as <-. reflexivity.
Defined.

(** ** Drag sessions *)


Lemma selectNode_nodes nodeId multi st :
  nodes (selectNode nodeId multi st) = nodes st.
Proof.
  unfold selectNode, clearSelection.
  destruct multi; simpl; case_match; by autorewrite with editor.
Qed.

Lemma selectNode_dragState nodeId multi st :
  dragState (selectNode nodeId multi st) = dragState st.
Proof.
  unfold selectNode, clearSelection.
  destruct multi; simpl; case_match; by autorewrite with editor.
Qed.

Lemma selectNode_options nodeId multi st :
  options (selectNode nodeId multi st) = options st.
Proof.
  unfold selectNode, clearSelection.
  destruct multi; simpl; case_match; by autorewrite with editor.
Qed.


Lemma forEach_drag_node ds dx dy (l : list string) st :
  (∀ id, id ∈ l → id ∈ (nodes st).*1 → id ∈ (startPositions ds).*1) →
  ∃ st', forEach (drag_node ds dx dy) l st = (Ok tt, st')
         ∧ (nodes st').*1 = (nodes st).*1
         ∧ dragState st' = dragState st ∧ log st' = log st
         ∧ options st' = options st
         ∧ (∀ k n, (k, n) ∈ nodes st' →
              ∃ n0, (k, n0) ∈ nodes st ∧ node_id n = node_id n0).
Proof.
  revert st. induction l as [|a l IH]; intros st Hl; simpl.
  - exists st. repeat split; eauto.
  - unfold mbind, M_bind. unfold drag_node at 1.
    destruct (jm_get a (nodes st)) as [node|] eqn:Ea.
    + assert (a ∈ (startPositions ds).*1) as [p Hp]%jm_get_is_Some.
      { apply Hl; [left|]. apply jm_get_is_Some. eauto. }
      rewrite Hp.
      match goal with |- context [forEach _ l ?x] => set (st1 := x) end.
      destruct (IH st1) as (st' & E & Hk & Hd & Hlog & Ho & Hn).
      { intros id Hin Hlive. apply Hl; [by right|].
        subst st1. simpl in Hlive. by rewrite jm_alter_keys in Hlive. }
      exists st'. split; [done|]. subst st1. simpl in *.
      rewrite jm_alter_keys in Hk. repeat split; try done.
      intros k n Hin. destruct (Hn k n Hin) as (n1 & Hin1 & Hid1).
      apply jm_elem_alter in Hin1 as (n0 & Hin0 & [->|[_ ->]]); eauto.
    + apply IH. intros id Hin. apply Hl. by right.
Qed.

Lemma updateDrag_ok e canvas st ds :
  dragState st = Some ds → drag_ok st ds →
  ∃ st', updateDrag e canvas st = (Ok tt, st')
         ∧ (nodes st').*1 = (nodes st).*1
         ∧ dragState st' = Some ds ∧ log st' = log st
         ∧ options st' = options st
         ∧ (∀ k n, (k, n) ∈ nodes st' →
              ∃ n0, (k, n0) ∈ nodes st ∧ node_id n = node_id n0).
Proof.
  intros Hds [Hall [p Hp]%jm_get_is_Some]. unfold updateDrag.
  rewrite Hds, Hp.
  match goal with |- context [forEach (drag_node ds ?dx ?dy)] =>
    destruct (forEach_drag_node ds dx dy (drag_nodes ds) st Hall)
      as (st' & E & ? & Hd & ? & ? & ?) end.
  exists st'. rewrite Hd. by repeat split.
Qed.





Lemma one_node_wf : wf one_node.
Proof. apply createNode_wf, new_editor_wf. Qed.


(** The session above ends with the node clamped to the left and top
    borders, and the move is reported. *)
Example drag_to_origin :
  ∃ st', drag_session (mkPointer 6 6 false false) "node-1" (mkRect 5 5)
           [(mkPointer 0 0 false false, mkCanvas (mkRect 0 0) 0 0)] one_node
         = (Ok tt, st')
         ∧ (node_position <$> jm_get "node-1" (nodes st'))
           = Some (mkPos 0 0)
         ∧ log st' = [mkEvent "onNodeMove" "node-1"].
Proof. eexists. split; [vm_compute; reflexivity|]. by vm_compute. Qed.

(** ** Self-loops *)

(** X24.  [createEdge] has no test for [sourceId === targetId]: on a
    well-formed editor, for a live node of a registered type that has no
    loop yet, it stores the loop under the next edge id and returns that
    id. *)
Lemma createEdge_self_loop nodeId opts st :
  wf st → nodeId ∈ (nodes st).*1 → hooks_ok st nodeId nodeId →
  (∀ k e, (k, e) ∈ edges st → ¬ same_pair nodeId nodeId e) →
  ∃ l, createEdge nodeId nodeId opts st
       = (Ok (Some (edge_name (edgeIdCounter st))),
          edge_created (new_edge nodeId nodeId opts st) l st).
Proof.
  intros (Hok & Hc & _) Hin Hh Hn.
  apply (createEdge_new nodeId nodeId opts st Hok Hc Hin Hin); [|done].
  apply list_find_None, Forall_forall.
  intros e [k He]%jm_values_elem. by apply (Hn k).
Qed.

(** C1 (the code departs from the claim).  On an editor holding the single
    node [node-1], [createEdge('node-1', 'node-1')] returns the id
    [edge-1] instead of [null], and the edge store grows from no edge to
    one edge from [node-1] to itself. *)
Theorem createEdge_self_loop_stored :
  ∃ st',
    createEdge "node-1" "node-1" no_options one_node
    = (Ok (Some "edge-1"), st')
    ∧ jm_keys (nodes one_node) = ["node-1"]
    ∧ length (edges one_node) = 0
    ∧ length (edges st') = 1
    ∧ ((λ e, (edge_source e, edge_target e)) <$> jm_get "edge-1" (edges st'))
      = Some ("node-1", "node-1").
Proof. eexists. split; [vm_compute; reflexivity|]. by vm_compute. Qed.

(** ** Duplicate requests *)

Lemma filter_unique {A} (P : A → Prop) `{∀ x, Decision (P x)} (l : list A)
    (a : A) :
  NoDup l → a ∈ l → P a → (∀ x, x ∈ l → P x → x = a) → filter P l = [a].
Proof.
  induction l as [|b l IH]; intros Hnd Hin Ha Hu.
  - by apply elem_of_nil in Hin.
  - apply NoDup_cons in Hnd as [Hb Hnd].
    apply elem_of_cons in Hin as [->|Hin].
    + rewrite filter_cons_True by done. f_equal.
      apply filter_none. intros x Hx HP.
      assert (x = b) as -> by (apply Hu; [by right|done]). done.
    + rewrite filter_cons_False.
      * apply IH; try done. intros x Hx. apply Hu. by right.
      * intros Hb'. assert (b = a) as -> by (apply Hu; [left|done]). done.
Qed.

Lemma edges_values_nodup st : store_ok st → NoDup (jm_values (edges st)).
Proof.
  intros Hok. apply (NoDup_fmap_1 edge_id).
  assert (edge_id <$> jm_values (edges st) = (edges st).*1) as ->.
  { unfold jm_values. rewrite <-list_fmap_compose. apply list_fmap_ext.
    intros i [k e] Hin%list_elem_of_lookup_2. simpl.
    by apply (ok_edge_key st Hok). }
  apply Hok.
Qed.

Lemma one_edge_per_pair st k e :
  store_ok st → (k, e) ∈ edges st →
  filter (same_pair (edge_source e) (edge_target e)) (jm_values (edges st))
  = [e].
Proof.
  intros Hok Hin. apply filter_unique.
  - by apply edges_values_nodup.
  - apply jm_values_elem. eauto.
  - done.
  - intros e' [k' Hin']%jm_values_elem [Hs Ht].
    assert (k' = k) as -> by (by eapply (ok_edge_pair st Hok)).
    pose proof (jm_get_elem _ _ _ (ok_edges_nodup st Hok) Hin).
    pose proof (jm_get_elem _ _ _ (ok_edges_nodup st Hok) Hin').
    congruence.
Qed.

Lemma list_find_same_pair st k e :
  store_ok st → (k, e) ∈ edges st →
  ∃ i, list_find (same_pair (edge_source e) (edge_target e))
         (jm_values (edges st)) = Some (i, e).
Proof.
  intros Hok Hin.
  destruct (list_find (same_pair (edge_source e) (edge_target e))
              (jm_values (edges st))) as [[i e']|] eqn:Hf.
  - exists i. apply list_find_Some in Hf as (Hl & HP & _).
    apply list_elem_of_lookup_2 in Hl.
    assert (e' ∈ filter (same_pair (edge_source e) (edge_target e))
                   (jm_values (edges st))) as He'
      by (by apply list_elem_of_filter).
    rewrite (one_edge_per_pair st k e Hok Hin) in He'.
    by apply list_elem_of_singleton in He' as ->.
  - apply list_find_None in Hf. rewrite Forall_forall in Hf.
    destruct (Hf e); [apply jm_values_elem; eauto|done].
Qed.

(** X25.  On a well-formed editor, for two live nodes whose types are
    registered, two requests for the same ordered pair return the same id,
    the second changes nothing, and the store holds exactly one edge for
    the pair. *)
Lemma createEdge_twice a b opts opts' st :
  wf st → a ∈ (nodes st).*1 → b ∈ (nodes st).*1 → hooks_ok st a b →
  ∃ id st1,
    createEdge a b opts st = (Ok (Some id), st1)
    ∧ createEdge a b opts' st1 = (Ok (Some id), st1)
    ∧ ∃ e, (id, e) ∈ edges st1
           ∧ filter (same_pair a b) (jm_values (edges st1)) = [e].
Proof.
  intros Hwf Ha Hb Hh. pose proof Hwf as (Hok & Hc & Hty).
  destruct (createEdge_cases a b opts st Hok Hc) as (r & st1 & E & Hout).
  destruct (createEdge_outcome_ok a b opts st r st1 Hwf Hout)
    as (Hok1 & Hc1 & _).
  assert (∀ id e, (id, e) ∈ edges st1 → same_pair a b e →
            nodes st1 = nodes st →
            createEdge a b opts' st1 = (Ok (Some id), st1)
            ∧ ∃ e, (id, e) ∈ edges st1
                   ∧ filter (same_pair a b) (jm_values (edges st1)) = [e])
    as Hsecond.
  { intros id e Hin [Hs Ht] Hn.
    destruct (list_find_same_pair st1 id e Hok1 Hin) as [i Hf].
    rewrite Hs, Ht in Hf. split.
    - rewrite (createEdge_existing a b opts' st1 i e); try congruence.
      by destruct (ok_edge_key st1 Hok1 _ _ Hin) as [-> _].
    - exists e. split; [done|].
      rewrite <-Hs, <-Ht. by eapply one_edge_per_pair. }
  destruct Hout as [[H|H]|k e Hin HP|l Hs Ht Hn _|Hs Ht Hn Hh']; try done.
  - exists k, st. split; [done|]. by eapply Hsecond.
  - eexists _, _. split; [done|].
    eapply (Hsecond _ (new_edge a b opts st)); try done.
    simpl. apply elem_of_app. right. by left.
Qed.

(** C3 (the code departs from the claim).  [node-1] and [node-2] are live,
    distinct nodes of a type that was never registered.  The first
    [createEdge('node-1', 'node-2')] stores [edge-1] and then raises a
    [TypeError] instead of returning its id; the second request returns
    [edge-1]. *)
Theorem createEdge_unregistered_type :
  ∃ st1 st2,
    jm_keys (nodes two_ghosts) = ["node-1"; "node-2"]
    ∧ createEdge "node-1" "node-2" no_options two_ghosts
      = (Throw "TypeError", st1)
    ∧ jm_keys (edges st1) = ["edge-1"]
    ∧ createEdge "node-1" "node-2" no_options st1
      = (Ok (Some "edge-1"), st2)
    ∧ jm_keys (edges st2) = ["edge-1"].
Proof.
  eexists _, _. split; [by vm_compute|].
  split; [vm_compute; reflexivity|]. split; [by vm_compute|].
  split; [vm_compute; reflexivity|by vm_compute].
Qed.

(** ** Clipboard *)

Lemma selectNode_edges nodeId multi st :
  edges (selectNode nodeId multi st) = edges st.
Proof.
  unfold selectNode, clearSelection.
  destruct multi; simpl; case_match; by autorewrite with editor.
Qed.

Lemma createNode_edges type position data st :
  edges (createNode type position data st).2 = edges st.
Proof.
  unfold createNode.
  destruct (coord_or_random_state
              (arg_x (default (mkPosArg None None) position)) 400
              (set_nodeIdCounter (S (nodeIdCounter st)) st)) as [d1 E1].
  destruct (coord_or_random _ 400 _) as [x st2]. simpl in E1. subst st2.
  destruct (coord_or_random_state
              (arg_y (default (mkPosArg None None) position)) 300
              (set_drawn d1 (set_nodeIdCounter (S (nodeIdCounter st)) st)))
    as [d2 E2].
  destruct (coord_or_random _ 300 _) as [y st3]. simpl in E2. subst st3.
  simpl. by autorewrite with editor.
Qed.

Lemma paste_nodes_edges (l : list ClipNode) st :
  edges (fold_left (λ st nodeData, paste_node nodeData st) l st) = edges st.
Proof.
  revert st. induction l as [|nd nds IH]; intros st; simpl; [done|].
  rewrite IH. unfold paste_node.
  destruct (createNode _ _ _ st) as [newId st1] eqn:E.
  rewrite selectNode_edges.
  change st1 with (newId, st1).2. rewrite <-E. apply createNode_edges.
Qed.

(** X26.  [paste] recreates the copied nodes only: whatever is on the
    clipboard, the edge store is the same before and after. *)
Lemma paste_edges st : edges (paste st) = edges st.
Proof.
  unfold paste. destruct (clipboard st) as [cb|]; [|done].
  destruct (clip_nodes cb) as [|c l]; [done|].
  by rewrite paste_nodes_edges.
Qed.

(** C7 (the code departs from the claim).  Two nodes joined by [edge-1] are
    both selected.  [copySelected] puts the two nodes and the edge on the
    clipboard; [paste] then creates [node-3] and [node-4], 50 further right
    and down, and selects them, but creates no edge between them: the edge
    store still holds [edge-1] alone. *)
Theorem paste_creates_no_edge :
  ∃ st1,
    jm_keys (nodes two_linked) = ["node-1"; "node-2"]
    ∧ selectedNodes two_linked = ["node-1"; "node-2"]
    ∧ ((λ e, (edge_source e, edge_target e)) <$> jm_values (edges two_linked))
      = [("node-1", "node-2")]
    ∧ copySelected two_linked = (Ok tt, st1)
    ∧ (((λ cb, (length (clip_nodes cb), edge_id <$> clip_edges cb))
          <$> clipboard st1)
       = Some (2, ["edge-1"]))
    ∧ jm_keys (nodes (paste st1))
      = ["node-1"; "node-2"; "node-3"; "node-4"]
    ∧ (node_position <$> jm_values (nodes (paste st1)))
      = [mkPos 10 10; mkPos 20 20; mkPos (10 + 50) (10 + 50);
         mkPos (20 + 50) (20 + 50)]
    ∧ selectedNodes (paste st1) = ["node-3"; "node-4"]
    ∧ ((λ e, (edge_source e, edge_target e))
         <$> jm_values (edges (paste st1)))
      = [("node-1", "node-2")].
Proof.
  eexists. split; [by vm_compute|]. split; [by vm_compute|].
  split; [by vm_compute|]. split; [vm_compute; reflexivity|].
  repeat split; by vm_compute.
Qed.

(** ** Cascading node deletion *)

(** X27.  The cascade on a well-formed editor, where in particular every
    stored edge joins nodes of registered types: [deleteNode(n)] returns
    normally; it deletes the edges that start or end at [n], each by a
    [deleteEdge] call, and leaves the other edges; afterwards no edge
    mentions [n], [n] is neither selected nor in the node store, and the
    editor is well formed again.  For an id that is not in the node store
    nothing changes, so a second deletion is a no-op. *)
Theorem deleteNode_cascade (nodeId : string) (st : Editor) :
  wf st →
  ∃ st1 st',
    forEach (λ e, deleteEdge (edge_id e))
      (filter (incident nodeId) (jm_values (edges st))) st = (Ok tt, st1)
    ∧ deleteNode nodeId st = (Ok tt, st')
    ∧ edges st' = edges st1
    ∧ edges st' = filter (λ p, ¬ incident nodeId p.2) (edges st)
    ∧ (∀ k e, (k, e) ∈ edges st' →
         edge_source e ≠ nodeId ∧ edge_target e ≠ nodeId)
    ∧ (nodeId ∉ selectedNodes st')
    ∧ (nodeId ∉ (nodes st').*1)
    ∧ wf st'
    ∧ (nodeId ∉ (nodes st).*1 → st' = st)
    ∧ deleteNode nodeId st' = (Ok tt, st').
Proof.
  intros Hwf. pose proof Hwf as (Hok & Hc & Hty).
  destruct (forEach_deleteEdge
              (filter (incident nodeId) (jm_values (edges st))) st Hwf)
    as (st1 & E1 & Hwf1 & He1 & F1).
  exists st1.
  destruct (decide (nodeId ∈ (nodes st).*1)) as [Hin|Hin].
  - destruct (deleteNode_live nodeId st Hwf Hin)
      as (st' & E & Hwf' & Hn & He & Hs & _).
    exists st'. split; [done|]. split; [done|].
    assert (nodeId ∉ (nodes st').*1) as Hgone.
    { rewrite Hn, jm_delete_keys. intros [? _]%list_elem_of_filter. done. }
    split.
    { revert E. unfold deleteNode.
      apply jm_get_is_Some in Hin as [node ->].
      unfold mbind, M_bind, modify. rewrite E1. simpl.
      intros [= <-]. by autorewrite with editor. }
    split; [done|]. split.
    { intros k e. rewrite He. intros [Hn' _]%list_elem_of_filter.
      unfold incident in Hn'. simpl in Hn'. tauto. }
    split. { rewrite Hs. intros [_ ?]%js_delete_elem. done. }
    split; [done|]. split; [done|]. split; [done|].
    by apply deleteNode_absent.
  - assert (filter (incident nodeId) (jm_values (edges st)) = []) as Hnil.
    { apply filter_none. intros e [k He]%jm_values_elem [<-|<-];
        apply Hin, (ok_edge_ends st Hok _ _ He). }
    rewrite Hnil in E1. simpl in E1. injection E1 as <-.
    exists st. rewrite Hnil. split; [done|].
    split; [by apply deleteNode_absent|]. split; [done|].
    split.
    { symmetry. apply filter_all. intros [k e] He [<-|<-];
        apply Hin, (ok_edge_ends st Hok _ _ He). }
    split.
    { intros k e He. split; intros <-;
        apply Hin, (ok_edge_ends st Hok _ _ He). }
    split. { intros Hs. by apply Hin, (ok_selected st Hok). }
    split; [done|]. split; [done|]. split; [done|].
    by apply deleteNode_absent.
Qed.

Lemma wf_same st st' :
  wf st →
  options st' = options st → nodes st' = nodes st → edges st' = edges st →
  connectionCache st' = connectionCache st →
  nodeIdCounter st' = nodeIdCounter st →
  edgeIdCounter st' = edgeIdCounter st →
  nodeTypes st' = nodeTypes st →
  (∀ k, k ∈ selectedNodes st' → k ∈ (nodes st).*1) →
  wf st'.
Proof.
  intros (Hok & Hc & Hty) Ho Hn He Hcc Hnc Hec Hnt Hsel.
  split; [|split].
  - destruct Hok. split; rewrite ?Ho, ?Hn, ?He, ?Hnc, ?Hec; done.
  - destruct Hc. split; rewrite ?Hn, ?He, ?Hcc; done.
  - unfold typed_edges. by rewrite Hn, He, Hnt.
Qed.

Lemma selectNode_is nodeId multi st :
  ∃ sel l,
    selectNode nodeId multi st = set_log l (set_selectedNodes sel st)
    ∧ ∀ k, k ∈ sel →
           k ∈ selectedNodes st ∨ (k = nodeId ∧ nodeId ∈ (nodes st).*1).
Proof.
  assert (∀ s, s = set_log (log s) s) as Hlog by (by intros []).
  assert (∀ s, s = set_selectedNodes (selectedNodes s) s) as Hsel
    by (by intros []).
  unfold selectNode, clearSelection.
  destruct multi; simpl;
    destruct (jm_get nodeId (nodes st)) as [node|] eqn:E.
  - match goal with |- context [triggerCallback ?n ?s ?x] =>
      destruct (triggerCallback_is_set_log n s x) as [l ->] end.
    exists (js_add nodeId (selectedNodes st)), l. split; [done|].
    intros k [->|?]%js_add_elem; [right|by left].
    split; [done|]. apply jm_get_is_Some. eauto.
  - exists (selectedNodes st), (log st). split; [|by left].
    rewrite <-Hsel. apply Hlog.
  - match goal with |- context [triggerCallback ?n ?s ?x] =>
      destruct (triggerCallback_is_set_log n s x) as [l ->] end.
    exists (js_add nodeId []), l. split; [done|].
    intros k [->|[]%elem_of_nil]%js_add_elem. right.
    split; [done|]. apply jm_get_is_Some. eauto.
  - exists [], (log st). split; [|by intros k ?%elem_of_nil].
    apply (Hlog (set_selectedNodes [] st)).
Qed.

Lemma selectNode_wf nodeId multi st : wf st → wf (selectNode nodeId multi st).
Proof.
  intros Hwf. destruct (selectNode_is nodeId multi st) as (sel & l & -> & Hs).
  apply (wf_same st); try done. simpl.
  intros k [Hk|[-> Hk]]%Hs; [|done]. by apply (ok_selected st (proj1 Hwf)).
Qed.

Lemma fan_wf : wf fan.
Proof.
  apply selectNode_wf.
  apply (run_wf fan_ops _ _ (new_editor_wf demo_options half)).
  vm_compute. reflexivity.
Qed.

Lemma deleteNode_cascade_witness :
  ∃ st1 st',
    forEach (λ e, deleteEdge (edge_id e))
      (filter (incident "node-2") (jm_values (edges fan))) fan = (Ok tt, st1)
    ∧ deleteNode "node-2" fan = (Ok tt, st')
    ∧ edges st' = edges st1
    ∧ edges st' = filter (λ p, ¬ incident "node-2" p.2) (edges fan)
    ∧ (∀ k e, (k, e) ∈ edges st' →
         edge_source e ≠ "node-2" ∧ edge_target e ≠ "node-2")
    ∧ ("node-2" ∉ selectedNodes st')
    ∧ ("node-2" ∉ (nodes st').*1)
    ∧ wf st'
    ∧ ("node-2" ∉ (nodes fan).*1 → st' = fan)
    ∧ deleteNode "node-2" st' = (Ok tt, st').
Proof. apply (deleteNode_cascade "node-2" fan). apply fan_wf. Defined.

Example deleteNode_fan :
  ∃ st', deleteNode "node-2" fan = (Ok tt, st')
         ∧ jm_keys (edges fan) = ["edge-1"; "edge-2"]
         ∧ selectedNodes fan = ["node-2"]
         ∧ jm_keys (nodes st') = ["node-1"; "node-3"]
         ∧ edges st' = [] ∧ selectedNodes st' = [].
Proof. eexists. split; [vm_compute; reflexivity|]. by vm_compute. Qed.

(** ** The two duplicate checks *)

(** X28.  The two duplicate checks on a well-formed editor, where in
    particular every stored edge joins nodes of registered types.  [a] and
    [b] are distinct nodes, an edge [b → a] is stored and no edge [a → b].
    [validateConnection] refuses the pair (it looks for an edge in either
    direction), whereas [createEdge(a, b)] stores a new edge under a fresh
    id and returns that id (it looks for an edge [a → b] only). *)
Theorem duplicate_checks_disagree (a b k : string) (e : Edge) (st : Editor) :
  wf st → a ≠ b →
  (k, e) ∈ edges st → edge_source e = b → edge_target e = a →
  (∀ k' e', (k', e') ∈ edges st → ¬ same_pair a b e') →
  validateConnection a "output" b "input" st = false
  ∧ ∃ st',
      createEdge a b no_options st
      = (Ok (Some (edge_name (edgeIdCounter st))), st')
      ∧ (edge_name (edgeIdCounter st) ∉ (edges st).*1)
      ∧ edges st'
        = edges st
          ++ [(edge_name (edgeIdCounter st), new_edge a b no_options st)]
      ∧ edge_source (new_edge a b no_options st) = a
      ∧ edge_target (new_edge a b no_options st) = b.
Proof.
  intros (Hok & Hc & Hty) Hne Hin Hs Ht Hnone.
  destruct (ok_edge_ends st Hok _ _ Hin) as [Hb Ha].
  rewrite Hs in Hb. rewrite Ht in Ha.
  split.
  - unfold validateConnection.
    rewrite bool_decide_eq_false_2 by done.
    rewrite bool_decide_eq_false_2 by done.
    destruct (list_find (between a b) (jm_values (edges st))) eqn:Hf;
      [done|].
    apply list_find_None in Hf. rewrite Forall_forall in Hf.
    destruct (Hf e); [apply jm_values_elem; eauto|]. right. done.
  - assert (hooks_ok st a b) as Hh.
    { intros n [Hn|Hn]; apply (Hty k e n Hin); rewrite ?Hs, ?Ht; auto. }
    destruct (createEdge_new a b no_options st Hok Hc Ha Hb) as [Hnew _].
    { apply list_find_None, Forall_forall.
      intros e' [k' He']%jm_values_elem. by apply (Hnone k'). }
    destruct (Hnew Hh) as [l ->]. eexists. split; [done|].
    split; [by apply fresh_edge_name|]. done.
Qed.

Lemma back_edge_wf : wf back_edge.
Proof.
  apply (run_wf back_edge_ops _ _ (new_editor_wf demo_options half)).
  vm_compute. reflexivity.
Qed.

Lemma back_edge_edges :
  edges back_edge
  = [("edge-1",
      new_edge "node-2" "node-1" no_options
        (set_edgeIdCounter 1 back_edge))].
Proof. vm_compute. reflexivity. Qed.

Lemma duplicate_checks_disagree_witness :
  validateConnection "node-1" "output" "node-2" "input" back_edge = false
  ∧ ∃ st',
      createEdge "node-1" "node-2" no_options back_edge
      = (Ok (Some (edge_name (edgeIdCounter back_edge))), st')
      ∧ (edge_name (edgeIdCounter back_edge) ∉ (edges back_edge).*1)
      ∧ edges st'
        = edges back_edge
          ++ [(edge_name (edgeIdCounter back_edge),
               new_edge "node-1" "node-2" no_options back_edge)]
      ∧ edge_source (new_edge "node-1" "node-2" no_options back_edge)
        = "node-1"
      ∧ edge_target (new_edge "node-1" "node-2" no_options back_edge)
        = "node-2".
Proof.
  apply (duplicate_checks_disagree "node-1" "node-2" "edge-1"
           (new_edge "node-2" "node-1" no_options
              (set_edgeIdCounter 1 back_edge)) back_edge).
  - apply back_edge_wf.
  - discriminate.
  - rewrite back_edge_edges. apply list_elem_of_singleton. reflexivity.
  - reflexivity.
  - reflexivity.
  - rewrite back_edge_edges.
    intros k' e' [= -> ->]%list_elem_of_singleton [Hs Ht]. discriminate Hs.
Defined.

Example createEdge_back_edge :
  (createEdge "node-1" "node-2" no_options back_edge).1 = Ok (Some "edge-2")
  ∧ jm_keys (edges (createEdge "node-1" "node-2" no_options back_edge).2)
    = ["edge-1"; "edge-2"].
Proof. by vm_compute. Qed.

(** ** [clear] and failed imports *)

Lemma same_setup_refl st : same_setup st st.
Proof. by repeat split. Qed.

Lemma same_setup_trans st1 st2 st3 :
  same_setup st1 st2 → same_setup st2 st3 → same_setup st1 st3.
Proof.
  unfold same_setup. intros H1 H2. destruct_and!. repeat split; congruence.
Qed.

Lemma deleteNode_nodes nodeId st :
  wf st →
  ∃ st', deleteNode nodeId st = (Ok tt, st') ∧ wf st'
         ∧ nodes st' = jm_delete nodeId (nodes st)
         ∧ nodeIdCounter st' = nodeIdCounter st
         ∧ edgeIdCounter st' = edgeIdCounter st
         ∧ same_setup st st'.
Proof.
  intros Hwf. destruct (decide (nodeId ∈ (nodes st).*1)) as [Hin|Hin].
  - destruct (deleteNode_live nodeId st Hwf Hin) as (st' & E & ? & ? & H).
    destruct_and!. exists st'. unfold same_setup. by repeat (split; [done|]).
  - exists st. rewrite deleteNode_absent, jm_delete_absent by done.
    repeat (split; [done|]). apply same_setup_refl.
Qed.

Lemma forEach_deleteNode (l : list string) st :
  wf st →
  ∃ st', forEach deleteNode l st = (Ok tt, st') ∧ wf st'
         ∧ nodes st' = filter (λ p, p.1 ∉ l) (nodes st)
         ∧ nodeIdCounter st' = nodeIdCounter st
         ∧ edgeIdCounter st' = edgeIdCounter st
         ∧ same_setup st st'.
Proof.
  revert st. induction l as [|a l IH]; intros st Hwf; simpl.
  - exists st. repeat (split; [done|]). split; [|by repeat split].
    symmetry. apply filter_all. intros x _. apply not_elem_of_nil.
  - destruct (deleteNode_nodes a st Hwf) as (st1 & E1 & Hwf1 & Hn1 & ? & ? & ?).
    destruct (IH st1 Hwf1) as (st2 & E2 & Hwf2 & Hn2 & ? & ? & ?).
    exists st2. unfold mbind, M_bind. rewrite E1. split; [done|].
    split; [done|]. split.
    { rewrite Hn2, Hn1. unfold jm_delete. rewrite list_filter_filter.
      apply list_filter_iff. intros [k v]. simpl. rewrite not_elem_of_cons.
      tauto. }
    split; [congruence|]. split; [congruence|].
    by eapply same_setup_trans.
Qed.

(** On a well-formed editor [clear] returns normally and leaves no node, no
    edge, no cache entry and no selection, with both counters back at 1. *)
Lemma clear_wf st :
  wf st →
  ∃ st', clear st = (Ok tt, st') ∧ wf st'
         ∧ nodes st' = [] ∧ edges st' = [] ∧ connectionCache st' = []
         ∧ selectedNodes st' = []
         ∧ nodeIdCounter st' = 1 ∧ edgeIdCounter st' = 1
         ∧ same_setup st st'.
Proof.
  intros Hwf. unfold clear.
  destruct (forEach_deleteNode (jm_keys (nodes st)) st Hwf)
    as (st1 & E1 & (Hok1 & Hc1 & Hty1) & Hn1 & _ & _ & Hs1).
  unfold mbind, M_bind, modify. rewrite E1. simpl.
  assert (nodes st1 = []) as Hn.
  { rewrite Hn1. apply filter_none. intros [k n] Hin Hk. apply Hk.
    apply jm_keys_elem. eauto. }
  assert (edges st1 = []) as He.
  { destruct (edges st1) as [|[k e] es] eqn:E; [done|].
    destruct (ok_edge_ends st1 Hok1 k e) as [Hs _]; [rewrite E; left|].
    rewrite Hn in Hs. by apply elem_of_nil in Hs. }
  assert (connectionCache st1 = []) as Hcc.
  { destruct (connectionCache st1) as [|[k c] cs] eqn:E; [done|].
    assert (k ∈ (nodes st1).*1) as Hk.
    { apply (ok_cache_keys st1 Hc1). rewrite E. left. }
    rewrite Hn in Hk. by apply elem_of_nil in Hk. }
  eexists. split; [done|]. simpl.
  split; [|by repeat (split; [done|])].
  split; [|split].
  - split; simpl; rewrite ?Hn, ?He; try apply NoDup_nil_2;
      intros *; by intros ?%elem_of_nil.
  - split; simpl; rewrite ?Hn, ?He, ?Hcc; [done|]. intros * [=].
  - intros k e n. simpl. rewrite He. by intros ?%elem_of_nil.
Qed.




(** ** Round trip through the exported document *)

Lemma union_absorb (m1 m2 : Obj) : dom m2 ⊆ dom m1 → m1 ∪ m2 = m1.
Proof.
  intros Hd. apply map_eq. intros i. rewrite lookup_union.
  destruct (m1 !! i) as [v|] eqn:E1; [by destruct (m2 !! i)|].
  destruct (m2 !! i) as [w|] eqn:E2; [|done].
  assert (i ∈ dom m1) as [v Hv]%elem_of_dom
    by (apply Hd, elem_of_dom; eauto).
  congruence.
Qed.

(** A node created with both coordinates given and not zero. *)
Lemma createNode_given type x y data st :
  store_ok st → cache_ok st → ¬ (x == 0)%Q → ¬ (y == 0)%Q →
  ∃ d l,
    createNode type (Some (mkPosArg (Some x) (Some y))) data st
    = (node_name (nodeIdCounter st),
       node_created (created_node type x y data st) d l st).
Proof.
  intros Hok Hc Hx Hy.
  destruct (createNode_post type (Some (mkPosArg (Some x) (Some y))) data st
              Hok Hc) as (x' & y' & d & l & E).
  pose proof (createNode_nodes type (Some (mkPosArg (Some x) (Some y)))
                data st) as Hn.
  assert (Qeq_bool x 0 = false) as Ex.
  { destruct (Qeq_bool x 0) eqn:E0; [|done]. by apply Qeq_bool_iff in E0. }
  assert (Qeq_bool y 0 = false) as Ey.
  { destruct (Qeq_bool y 0) eqn:E0; [|done]. by apply Qeq_bool_iff in E0. }
  rewrite E in Hn. simpl in Hn. rewrite Ex, Ey in Hn. simpl in Hn.
  rewrite jm_set_fresh in Hn by (by apply fresh_node_name).
  apply app_inv_head in Hn. injection Hn as Hx' Hy'.
  exists d, l. rewrite E. unfold node_created. simpl. by rewrite Hx', Hy'.
Qed.



Lemma position_of_lookup old ids c p :
  position_of old ids c = Some p →
  (c ≤ p)%nat ∧ ids !! (p - c) = Some old.
Proof.
  revert c. induction ids as [|k ids IH]; intros c; simpl; [done|].
  case_decide as Hk.
  - intros [= <-]. subst. by rewrite Nat.sub_diag.
  - intros [Hle Hl]%IH. split; [lia|].
    replace (p - c) with (S (p - S c)) by lia. done.
Qed.


Lemma position_of_inj a b ids c p :
  position_of a ids c = Some p → position_of b ids c = Some p → a = b.
Proof.
  intros [_ Ha]%position_of_lookup [_ Hb]%position_of_lookup. congruence.
Qed.


Lemma renumber_keys c (l : list Node) :
  (renumber c l).*1 = node_name <$> seq c (length l).
Proof.
  revert c. induction l as [|n l IH]; intros c; csimpl; [done|].
  by rewrite IH.
Qed.











(** ** Dragging keeps the editor well formed *)

Lemma wf_moved st k p :
  wf st → wf (set_nodes (jm_alter (move_to p) k (nodes st)) st).
Proof.
  intros (Hok & Hc & Hty).
  assert (∀ k' n', (k', n') ∈ jm_alter (move_to p) k (nodes st) →
            ∃ n, (k', n) ∈ nodes st ∧ node_id n' = node_id n
                 ∧ node_type n' = node_type n
                 ∧ node_data n' = node_data n) as Hsame.
  { intros k' n' (n & Hin & [->|[_ ->]])%jm_elem_alter; eauto. }
  split; [|split].
  - split; simpl; rewrite ?jm_alter_keys; try apply Hok.
    + intros k' n' (n & Hin & -> & _)%Hsame. by apply (ok_node_key st Hok).
    + intros k' n' (n & Hin & _ & _ & ->)%Hsame.
      by apply (ok_node_data st Hok k').
  - split; simpl; rewrite ?jm_alter_keys; apply Hc.
  - intros k' e n'. simpl. intros Hin [(n & Hn & _ & -> & _)%Hsame
                                      |(n & Hn & _ & -> & _)%Hsame];
      apply (Hty k' e n Hin); auto.
Qed.

Lemma forEach_drag_node_wf ds dx dy (l : list string) st r st' :
  wf st → forEach (drag_node ds dx dy) l st = (r, st') → wf st'.
Proof.
  revert st. induction l as [|a l IH]; intros st Hwf; simpl.
  - by intros [= _ <-].
  - unfold mbind, M_bind. unfold drag_node at 1.
    destruct (jm_get a (nodes st)); [|by apply IH].
    destruct (jm_get a (startPositions ds)); [|by intros [= _ <-]].
    apply IH. by apply wf_moved.
Qed.

Lemma updateDrag_wf e canvas st r st' :
  wf st → updateDrag e canvas st = (r, st') → wf st'.
Proof.
  intros Hwf. unfold updateDrag.
  destruct (dragState st) as [ds|]; [|by intros [= _ <-]].
  destruct (jm_get _ _); [|by intros [= _ <-]].
  by apply forEach_drag_node_wf.
Qed.

Lemma startDrag_wf e nodeId rect st : wf st → wf (startDrag e nodeId rect st).
Proof.
  intros Hwf. unfold startDrag.
  destruct (jm_get nodeId (nodes st)); [|done].
  assert (∀ ds, wf (set_dragState ds st)) as Hds.
  { intros ds. apply (wf_same st); try done. apply Hwf. }
  case_match; [apply Hds|apply selectNode_wf, Hds].
Qed.

Lemma forEach_notify_move_wf ds (l : list string) st r st' :
  wf st → forEach (notify_move ds) l st = (r, st') → wf st'.
Proof.
  revert st. induction l as [|a l IH]; intros st Hwf; simpl.
  - by intros [= _ <-].
  - unfold mbind, M_bind. unfold notify_move at 1.
    destruct (jm_get a (nodes st)); [|by apply IH].
    destruct (jm_get a (startPositions ds)); [|by intros [= _ <-]].
    destruct (moved _ _); [|by apply IH]. apply IH.
    apply (wf_same st); autorewrite with editor; try done. apply Hwf.
Qed.

Lemma endDrag_wf st r st' : wf st → endDrag st = (r, st') → wf st'.
Proof.
  intros Hwf. unfold endDrag.
  destruct (dragState st) as [ds|]; [|by intros [= _ <-]].
  unfold mbind, M_bind, modify.
  destruct (forEach (notify_move ds) (drag_nodes ds) st) as [[[]|msg] st1]
    eqn:E; intros [= _ <-];
    pose proof (forEach_notify_move_wf ds _ st _ st1 Hwf E) as Hwf1;
    [|done].
  apply (wf_same st1); try done. apply Hwf1.
Qed.






(** ** Nodes of an unregistered type *)

(** C2 (the code departs from the claim).  The four calls
    [createNode('ghost')], [createNode('ghost')],
    [createEdge('node-1', 'node-2')], [deleteEdge('edge-1')] are made in
    turn on a new editor.  The last two raise a [TypeError]; [deleteEdge]
    raises after it has taken [edge-1] out of the cache and before it
    takes it out of the edge store.  The validation pass then counts two
    nodes whose cached sizes are wrong. *)
Theorem cache_drift_unregistered_type :
  ∃ st,
    (createEdge "node-1" "node-2" no_options two_ghosts).1
    = Throw "TypeError"
    ∧ deleteEdge "edge-1" ghost_edge = (Throw "TypeError", st)
    ∧ jm_keys (edges st) = ["edge-1"]
    ∧ connectionCache st
      = [("node-1", mkCache [] []); ("node-2", mkCache [] [])]
    ∧ (validateCache st).1 = 2.
Proof.
  eexists. split; [by vm_compute|]. split; [vm_compute; reflexivity|].
  by vm_compute.
Qed.

(** C4 (the code departs from the claim).  In the editor left by the
    import above, [node-1] and [node-2] have an unregistered type and
    [edge-1] joins them.  [deleteNode('node-1')] raises a [TypeError] from
    the [deleteEdge] call of its cascade: the node and the edge are both
    still stored afterwards. *)
Theorem deleteNode_unregistered_type :
  ∃ st,
    (importJSON (Ok (Some ghost_document)) (new_editor demo_options half)).1
    = false
    ∧ jm_keys (nodes ghost_imported) = ["node-1"; "node-2"]
    ∧ ((λ e, (edge_source e, edge_target e))
         <$> jm_values (edges ghost_imported)) = [("node-1", "node-2")]
    ∧ deleteNode "node-1" ghost_imported = (Throw "TypeError", st)
    ∧ jm_keys (nodes st) = ["node-1"; "node-2"]
    ∧ ((λ e, (edge_source e, edge_target e)) <$> jm_values (edges st))
      = [("node-1", "node-2")].
Proof.
  eexists. split; [by vm_compute|]. split; [by vm_compute|].
  split; [by vm_compute|]. split; [vm_compute; reflexivity|].
  by vm_compute.
Qed.

(** C8 (the code departs from the claim).  In the same editor, with
    [edge-1] from [node-1] to [node-2], [validateConnection] refuses the
    reverse pair, and [createEdge('node-2', 'node-1')] lets it through its
    own duplicate check and stores [edge-2], but raises a [TypeError]
    instead of returning the new id. *)
Theorem createEdge_reverse_unregistered_type :
  ∃ st,
    ((λ e, (edge_source e, edge_target e))
       <$> jm_values (edges ghost_imported)) = [("node-1", "node-2")]
    ∧ validateConnection "node-2" "output" "node-1" "input" ghost_imported
      = false
    ∧ createEdge "node-2" "node-1" no_options ghost_imported
      = (Throw "TypeError", st)
    ∧ ((λ e, (edge_id e, edge_source e, edge_target e))
         <$> jm_values (edges st))
      = [("edge-1", "node-1", "node-2"); ("edge-2", "node-2", "node-1")].
Proof.
  eexists. split; [by vm_compute|]. split; [by vm_compute|].
  split; [vm_compute; reflexivity|]. by vm_compute.
Qed.

(** ** Every call that completes keeps the editor well formed *)

Lemma wf_alter_node (f : Node → Node) k st :
  (∀ n, node_id (f n) = node_id n ∧ node_type (f n) = node_type n
        ∧ dom (node_data n) ⊆ dom (node_data (f n))) →
  wf st → wf (set_nodes (jm_alter f k (nodes st)) st).
Proof.
  intros Hf (Hok & Hc & Hty).
  assert (∀ k' n', (k', n') ∈ jm_alter f k (nodes st) →
            ∃ n, (k', n) ∈ nodes st ∧ node_id n' = node_id n
                 ∧ node_type n' = node_type n
                 ∧ dom (node_data n) ⊆ dom (node_data n')) as Hsame.
  { intros k' n' (n & Hin & [->|[_ ->]])%jm_elem_alter.
    - by exists n.
    - exists n. destruct (Hf n) as (? & ? & ?). by repeat split. }
  split; [|split].
  - split; simpl; rewrite ?jm_alter_keys; try apply Hok.
    + intros k' n' (n & Hin & -> & _)%Hsame. by apply (ok_node_key st Hok).
    + intros k' n' (n & Hin & _ & _ & Hd)%Hsame.
      etrans; [|exact Hd]. by apply (ok_node_data st Hok k').
  - split; simpl; rewrite ?jm_alter_keys; apply Hc.
  - intros k' e n'. simpl. intros Hin [(n & Hn & _ & -> & _)%Hsame
                                      |(n & Hn & _ & -> & _)%Hsame];
      apply (Hty k' e n Hin); auto.
Qed.

Lemma updateNodeData_wf nodeId data st :
  wf st → wf (updateNodeData nodeId data st).
Proof.
  intros Hwf. unfold updateNodeData.
  destruct (jm_get nodeId (nodes st)) as [node|]; [|done].
  apply (wf_same (set_nodes (jm_alter (merge_data data) nodeId (nodes st))
                    st));
    autorewrite with editor; try done.
  - apply wf_alter_node; [|done]. intros n. simpl.
    repeat split. rewrite dom_union. set_solver.
  - simpl. rewrite jm_alter_keys. apply (ok_selected st (proj1 Hwf)).
Qed.

Lemma registerNodeType_wf type st : wf st → wf (registerNodeType type st).
Proof.
  intros (Hok & Hc & Hty). split; [|split].
  - by destruct Hok.
  - by destruct Hc.
  - intros k e n Hin Hn. simpl. apply elem_of_union. right.
    by apply (Hty k e n).
Qed.

Lemma fold_js_add_elem (l s : list string) k :
  k ∈ fold_left (λ s id, js_add id s) l s → k ∈ l ∨ k ∈ s.
Proof.
  revert s. induction l as [|a l IH]; intros s; simpl; [auto|].
  intros [Hk|[->|Hk]%js_add_elem]%IH.
  - left. by right.
  - left. left.
  - by right.
Qed.

Lemma selectAll_wf st : wf st → wf (selectAll st).
Proof.
  intros Hwf. apply (wf_same st); try done. simpl.
  intros k [Hk|Hk]%fold_js_add_elem; [done|].
  by apply (ok_selected st (proj1 Hwf)).
Qed.

Lemma clearSelection_wf st : wf st → wf (clearSelection st).
Proof.
  intros Hwf. apply (wf_same st); try done. simpl.
  by intros k ?%elem_of_nil.
Qed.

Lemma set_dragState_wf ds st : wf st → wf (set_dragState ds st).
Proof. intros Hwf. apply (wf_same st); try done. apply Hwf. Qed.

Lemma set_connectionState_wf cs st : wf st → wf (set_connectionState cs st).
Proof. intros Hwf. apply (wf_same st); try done. apply Hwf. Qed.

Lemma deleteSelected_wf st r st' :
  wf st → deleteSelected st = (r, st') → wf st'.
Proof.
  intros Hwf. unfold deleteSelected.
  destruct (forEach_deleteNode (selectedNodes st) st Hwf)
    as (st1 & E & Hwf1 & _).
  unfold mbind, M_bind, modify. rewrite E. intros [= _ <-].
  by apply clearSelection_wf.
Qed.

Lemma createEdge_wf sourceId targetId opts st v st' :
  wf st → createEdge sourceId targetId opts st = (Ok v, st') → wf st'.
Proof.
  intros Hwf E. pose proof Hwf as (Hok & Hc & Hty).
  destruct (createEdge_cases sourceId targetId opts st Hok Hc)
    as (r & st1 & E1 & Hout).
  rewrite E in E1. injection E1 as <- <-.
  destruct (createEdge_outcome_ok _ _ _ _ _ _ Hwf Hout)
    as (Hok' & Hc' & [Hty'|[msg [=]]]).
  done.
Qed.

Lemma endConnection_wf target st st' :
  wf st → endConnection target st = (Ok tt, st') → wf st'.
Proof.
  intros Hwf. unfold endConnection.
  destruct (connectionState st) as [cs|]; [|by intros [= <-]].
  unfold mbind at 1, M_bind at 1.
  match goal with |- context [match ?m st with _ => _ end] =>
    destruct (m st) as [[[]|msg] st1] eqn:E end; [|done].
  unfold modify. intros [= <-]. apply set_connectionState_wf.
  destruct target as [[t p]|]; [|by injection E as <-].
  destruct (validateConnection _ _ _ _ st); [|by injection E as <-].
  revert E. unfold mbind, M_bind.
  case_bool_decide.
  - destruct (createEdge _ _ _ st) as [[v|msg] st2] eqn:E2; [|done].
    intros [= <-]. by eapply createEdge_wf.
  - destruct (createEdge _ _ _ st) as [[v|msg] st2] eqn:E2; [|done].
    intros [= <-]. by eapply createEdge_wf.
Qed.

Lemma mapM_copy_node_state (l : list string) st :
  (mapM copy_node l st).2 = st.
Proof.
  induction l as [|a l IH]; simpl; [done|].
  unfold mbind, M_bind. unfold copy_node at 1.
  destruct (jm_get a (nodes st)); [|done].
  destruct (mapM copy_node l st) as [[bs|msg] st1]; simpl in *; by subst.
Qed.

Lemma copySelected_wf st r st' :
  wf st → copySelected st = (r, st') → wf st'.
Proof.
  intros Hwf. unfold copySelected, mbind, M_bind.
  pose proof (mapM_copy_node_state (selectedNodes st) st) as Hs.
  destruct (mapM copy_node (selectedNodes st) st) as [[copied|msg] st1];
    simpl in Hs; subst st1; intros [= _ <-]; [|done].
  apply (wf_same st); try done. apply Hwf.
Qed.

Lemma paste_wf st : wf st → wf (paste st).
Proof.
  intros Hwf. unfold paste. destruct (clipboard st) as [cb|]; [|done].
  destruct (clip_nodes cb) as [|c0 l0] eqn:E; [done|]. rewrite <-E. clear E.
  pose proof (clearSelection_wf st Hwf) as Hwf0. revert Hwf0.
  generalize (clearSelection st) as st0.
  induction (clip_nodes cb) as [|nd nds IH]; intros st0 Hwf0; simpl; [done|].
  apply IH. unfold paste_node.
  destruct (createNode _ _ _ st0) as [newId st1] eqn:E1.
  apply selectNode_wf. change st1 with (newId, st1).2. rewrite <-E1.
  by apply createNode_wf.
Qed.

Lemma load_nodes_wf (l : list (option NodeData)) idMap st r st' :
  wf st → load_nodes l idMap st = (r, st') → wf st'.
Proof.
  revert idMap st. induction l as [|[nd|] l IH]; intros idMap st Hwf; simpl.
  - by intros [= _ <-].
  - unfold mbind, M_bind.
    destruct (createNode (nd_type nd) (nd_position nd) (nd_data nd) st)
      as [id st1] eqn:E1.
    apply IH. change st1 with (id, st1).2. rewrite <-E1.
    by apply createNode_wf.
  - by intros [= _ <-].
Qed.

Lemma load_edges_wf idMap (l : list (option EdgeData)) st st' :
  wf st → forEach (load_edge idMap) l st = (Ok tt, st') → wf st'.
Proof.
  revert st. induction l as [|[ed|] l IH]; intros st Hwf; simpl.
  - by intros [= <-].
  - unfold mbind at 1, M_bind at 1.
    destruct (jm_get (ed_source ed) idMap) as [s|]; [|by apply IH].
    destruct (jm_get (ed_target ed) idMap) as [t|]; [|by apply IH].
    unfold mbind at 1, M_bind at 1.
    destruct (createEdge s t _ st) as [[v|msg] st1] eqn:E1; [|done].
    simpl. apply IH. by eapply createEdge_wf.
  - done.
Qed.

Lemma loadWorkflowData_wf data st st' :
  wf st → loadWorkflowData data st = (Ok tt, st') → wf st'.
Proof.
  intros Hwf. unfold loadWorkflowData, mbind at 1, M_bind at 1.
  destruct (clear_wf st Hwf) as (st0 & -> & Hwf0 & _).
  destruct data as [d|]; [|done]. simpl. unfold mbind, M_bind.
  destruct (wd_nodes d) as [ln|].
  - destruct (load_nodes ln [] st0) as [[idMap|msg] st1] eqn:E1; [|done].
    pose proof (load_nodes_wf _ _ _ _ _ Hwf0 E1) as Hwf1.
    destruct (wd_edges d) as [le|]; [|by intros [= <-]].
    by apply load_edges_wf.
  - simpl. destruct (wd_edges d) as [le|]; [|by intros [= <-]].
    by apply load_edges_wf.
Qed.

Lemma perform_wf c st st' : wf st → perform c st = (Ok tt, st') → wf st'.
Proof.
  intros Hwf. destruct c; unfold perform, modify.
  - intros [= <-]. by apply createNode_wf.
  - intros [= <-]. by apply updateNodeData_wf.
  - destruct (deleteNode_wf nodeId st Hwf) as (st1 & -> & Hwf1).
    by intros [= <-].
  - unfold mbind, M_bind.
    destruct (createEdge _ _ _ st) as [[v|msg] st1] eqn:E; [|done].
    intros [= <-]. by eapply createEdge_wf.
  - destruct (deleteEdge_wf edgeId st Hwf) as (st1 & -> & Hwf1 & _).
    by intros [= <-].
  - intros [= <-]. by apply registerNodeType_wf.
  - intros E. rewrite validateCache_clean in E by apply Hwf.
    by injection E as <-.
  - intros [= <-]. by apply selectNode_wf.
  - intros [= <-]. by apply selectAll_wf.
  - intros [= <-]. by apply clearSelection_wf.
  - by apply deleteSelected_wf.
  - intros [= <-]. by apply startDrag_wf.
  - by apply updateDrag_wf.
  - by apply endDrag_wf.
  - intros [= <-]. by apply set_connectionState_wf.
  - by apply endConnection_wf.
  - by apply copySelected_wf.
  - intros [= <-]. by apply paste_wf.
  - destruct (clear_wf st Hwf) as (st0 & -> & Hwf0 & _). by intros [= <-].
  - by apply loadWorkflowData_wf.
Qed.

(** Every editor produced from a new one by calls that complete without
    an exception is well formed. *)
Theorem reachable_wf st : reachable st → wf st.
Proof.
  induction 1 as [o rnd|c st st' _ IH E].
  - apply new_editor_wf.
  - by eapply perform_wf.
Qed.

(** ** Connection queries *)

Lemma connected_by_stored far st e n :
  store_ok st → (edge_id e, e) ∈ edges st → (far e, n) ∈ nodes st →
  connected_by far st (edge_id e)
  = Some (mkConnected (far e) (node_type n) (node_data n) (edge_id e)).
Proof.
  intros Hok Hin Hn. unfold connected_by.
  rewrite (jm_get_elem _ _ _ (ok_edges_nodup st Hok) Hin).
  rewrite (jm_get_elem _ _ _ (ok_nodes_nodup st Hok) Hn).
  by destruct (ok_node_key st Hok _ _ Hn) as [-> _].
Qed.

Lemma omap_connected_by far st (es : list Edge) :
  store_ok st →
  (∀ e, e ∈ es → (edge_id e, e) ∈ edges st ∧ far e ∈ (nodes st).*1) →
  Forall2 (entry_via far st) es (omap (connected_by far st) (edge_id <$> es)).
Proof.
  intros Hok. induction es as [|e es IH]; intros Hes; csimpl; [constructor|].
  destruct (Hes e) as [Hin [n Hn]%jm_keys_elem]; [left|].
  rewrite (connected_by_stored far st e n Hok Hin Hn).
  constructor.
  - by exists n.
  - apply IH. intros e' He'. apply Hes. by right.
Qed.

Lemma stored_edges (P : Edge → Prop) `{∀ e, Decision (P e)} st e :
  store_ok st → e ∈ filter P (jm_values (edges st)) →
  (edge_id e, e) ∈ edges st ∧ P e
  ∧ edge_source e ∈ (nodes st).*1 ∧ edge_target e ∈ (nodes st).*1.
Proof.
  intros Hok [HP [k Hin]%jm_values_elem]%list_elem_of_filter.
  destruct (ok_edge_key st Hok _ _ Hin) as [<- _].
  destruct (ok_edge_ends st Hok _ _ Hin). done.
Qed.

Lemma cached_inputs nodeId st :
  store_ok st → cache_ok st →
  Forall2 (entry_via edge_source st)
    (filter (λ e, edge_target e = nodeId) (jm_values (edges st)))
    (cd_inputs (getConnectionDataCached nodeId st)).
Proof.
  intros Hok Hc. unfold getConnectionDataCached.
  destruct (jm_get nodeId (connectionCache st)) as [cache|] eqn:Ec; simpl.
  - destruct (ok_cache_sets st Hc _ _ Ec) as [-> _]. unfold in_ids.
    apply omap_connected_by; [done|]. intros e He.
    by destruct (stored_edges _ st e Hok He) as (? & _ & ? & _).
  - apply jm_get_None in Ec. rewrite (ok_cache_keys st Hc) in Ec.
    rewrite filter_none; [constructor|].
    intros e [k Hin]%jm_values_elem Ht. apply Ec. rewrite <-Ht.
    apply (ok_edge_ends st Hok _ _ Hin).
Qed.

Lemma cached_outputs nodeId st :
  store_ok st → cache_ok st →
  Forall2 (entry_via edge_target st)
    (filter (λ e, edge_source e = nodeId) (jm_values (edges st)))
    (cd_outputs (getConnectionDataCached nodeId st)).
Proof.
  intros Hok Hc. unfold getConnectionDataCached.
  destruct (jm_get nodeId (connectionCache st)) as [cache|] eqn:Ec; simpl.
  - destruct (ok_cache_sets st Hc _ _ Ec) as [_ ->]. unfold out_ids.
    apply omap_connected_by; [done|]. intros e He.
    by destruct (stored_edges _ st e Hok He) as (? & _ & _ & ?).
  - apply jm_get_None in Ec. rewrite (ok_cache_keys st Hc) in Ec.
    rewrite filter_none; [constructor|].
    intros e [k Hin]%jm_values_elem Hs. apply Ec. rewrite <-Hs.
    apply (ok_edge_ends st Hok _ _ Hin).
Qed.

Lemma counts_are_lengths nodeId st :
  inputCount (getConnectionDataCached nodeId st)
  = length (cd_inputs (getConnectionDataCached nodeId st))
  ∧ outputCount (getConnectionDataCached nodeId st)
    = length (cd_outputs (getConnectionDataCached nodeId st)).
Proof.
  unfold getConnectionDataCached.
  by destruct (jm_get nodeId (connectionCache st)).
Qed.

(** X1.  What a connection query returns on a well-formed editor: one
    entry per stored edge that ends at the node (for the inputs), or starts
    at it (for the outputs), in the order of the edge store, each naming
    the node at the other end with its type and data and the edge; the two
    counts are the numbers of those edges.  A node that does not exist has
    no such edges and gets empty lists. *)
Theorem getConnectionDataCached_exact (nodeId : string) (st : Editor) :
  store_ok st → cache_ok st →
  Forall2 (entry_via edge_source st)
    (filter (λ e, edge_target e = nodeId) (jm_values (edges st)))
    (cd_inputs (getConnectionDataCached nodeId st))
  ∧ Forall2 (entry_via edge_target st)
      (filter (λ e, edge_source e = nodeId) (jm_values (edges st)))
      (cd_outputs (getConnectionDataCached nodeId st))
  ∧ inputCount (getConnectionDataCached nodeId st)
    = length (filter (λ e, edge_target e = nodeId) (jm_values (edges st)))
  ∧ outputCount (getConnectionDataCached nodeId st)
    = length (filter (λ e, edge_source e = nodeId) (jm_values (edges st))).
Proof.
  intros Hok Hc.
  pose proof (cached_inputs nodeId st Hok Hc) as Hin.
  pose proof (cached_outputs nodeId st Hok Hc) as Hout.
  destruct (counts_are_lengths nodeId st) as [-> ->].
  split; [done|]. split; [done|].
  by rewrite <-(Forall2_length _ _ _ Hin), <-(Forall2_length _ _ _ Hout).
Qed.

Lemma getConnectionDataCached_exact_witness :
  Forall2 (entry_via edge_source fan)
    (filter (λ e, edge_target e = "node-2") (jm_values (edges fan)))
    (cd_inputs (getConnectionDataCached "node-2" fan))
  ∧ Forall2 (entry_via edge_target fan)
      (filter (λ e, edge_source e = "node-2") (jm_values (edges fan)))
      (cd_outputs (getConnectionDataCached "node-2" fan))
  ∧ inputCount (getConnectionDataCached "node-2" fan)
    = length (filter (λ e, edge_target e = "node-2") (jm_values (edges fan)))
  ∧ outputCount (getConnectionDataCached "node-2" fan)
    = length (filter (λ e, edge_source e = "node-2") (jm_values (edges fan))).
Proof.
  apply (getConnectionDataCached_exact "node-2" fan); apply fan_wf.
Defined.

Lemma Forall2_elem_r {A B} (P : A → B → Prop) (l : list A) (k : list B) y :
  Forall2 P l k → y ∈ k → ∃ x, x ∈ l ∧ P x y.
Proof.
  intros H [i Hi]%list_elem_of_lookup.
  destruct (Forall2_lookup_r _ _ _ _ _ H Hi) as (x & Hx & HP).
  exists x. split; [|done]. apply list_elem_of_lookup. eauto.
Qed.

Lemma Forall2_elem_l {A B} (P : A → B → Prop) (l : list A) (k : list B) x :
  Forall2 P l k → x ∈ l → ∃ y, y ∈ k ∧ P x y.
Proof.
  intros H [i Hi]%list_elem_of_lookup.
  destruct (Forall2_lookup_l _ _ _ _ _ H Hi) as (y & Hy & HP).
  exists y. split; [|done]. apply list_elem_of_lookup. eauto.
Qed.

(** The connection lists of a well-formed editor, entry by entry. *)
Lemma lists_outputs a b edgeId st :
  store_ok st → cache_ok st →
  lists (cd_outputs (getConnectionDataCached a st)) b edgeId
  ↔ ∃ e, (edgeId, e) ∈ edges st ∧ edge_source e = a ∧ edge_target e = b.
Proof.
  intros Hok Hc. pose proof (cached_outputs a st Hok Hc) as H.
  unfold lists. split.
  - intros (c & Hin & <- & <-).
    destruct (Forall2_elem_r _ _ _ _ H Hin) as (e & He & (n & Hn & ->)).
    destruct (stored_edges _ st e Hok He) as (? & ? & _). eauto.
  - intros (e & Hin & Hs & Ht).
    destruct (ok_edge_key st Hok _ _ Hin) as [Hid _].
    assert (e ∈ filter (λ e, edge_source e = a) (jm_values (edges st)))
      as He.
    { apply list_elem_of_filter. split; [done|]. apply jm_values_elem. eauto. }
    destruct (Forall2_elem_l _ _ _ _ H He) as (c & Hc' & (n & Hn & ->)).
    eexists. split; [done|]. by simpl.
Qed.

Lemma lists_inputs a b edgeId st :
  store_ok st → cache_ok st →
  lists (cd_inputs (getConnectionDataCached b st)) a edgeId
  ↔ ∃ e, (edgeId, e) ∈ edges st ∧ edge_source e = a ∧ edge_target e = b.
Proof.
  intros Hok Hc. pose proof (cached_inputs b st Hok Hc) as H.
  unfold lists. split.
  - intros (c & Hin & <- & <-).
    destruct (Forall2_elem_r _ _ _ _ H Hin) as (e & He & (n & Hn & ->)).
    destruct (stored_edges _ st e Hok He) as (? & ? & _). eauto.
  - intros (e & Hin & Hs & Ht).
    destruct (ok_edge_key st Hok _ _ Hin) as [Hid _].
    assert (e ∈ filter (λ e, edge_target e = b) (jm_values (edges st)))
      as He.
    { apply list_elem_of_filter. split; [done|]. apply jm_values_elem. eauto. }
    destruct (Forall2_elem_l _ _ _ _ H He) as (c & Hc' & (n & Hn & ->)).
    eexists. split; [done|]. by simpl.
Qed.

(** X2.  The two directions of a connection query agree: on a well-formed
    editor, node [b] is among the outputs of [a] through an edge exactly
    when [a] is among the inputs of [b] through that edge. *)
Theorem getConnectedNodes_symmetric (a b edgeId : string) (st : Editor) :
  store_ok st → cache_ok st →
  lists (conn_outputs (getConnectedNodes a None st)) b edgeId
  ↔ lists (conn_inputs (getConnectedNodes b None st)) a edgeId.
Proof.
  intros Hok Hc. unfold getConnectedNodes. simpl.
  by rewrite lists_outputs, lists_inputs.
Qed.

Lemma getConnectedNodes_symmetric_witness :
  lists (conn_outputs (getConnectedNodes "node-2" None fan)) "node-3" "edge-2"
  ↔ lists (conn_inputs (getConnectedNodes "node-3" None fan)) "node-2"
      "edge-2".
Proof.
  apply (getConnectedNodes_symmetric "node-2" "node-3" "edge-2" fan);
    apply fan_wf.
Defined.

(** X3.  Once [createEdge(a, b)] has returned an id on a well-formed
    editor, whether of a new edge or of the one that was there, the query
    for the outputs of [a] lists [b] and the query for the inputs of [b]
    lists [a], both through the edge with that id. *)
Theorem createEdge_connects (a b : string) (opts : EdgeOptions)
    (st st' : Editor) (id : string) :
  wf st → createEdge a b opts st = (Ok (Some id), st') →
  lists (conn_outputs (getConnectedNodes a (Some "output") st')) b id
  ∧ conn_inputs (getConnectedNodes a (Some "output") st') = []
  ∧ lists (conn_inputs (getConnectedNodes b (Some "input") st')) a id
  ∧ conn_outputs (getConnectedNodes b (Some "input") st') = [].
Proof.
  intros Hwf E.
  destruct (createEdge_wf _ _ _ _ _ _ Hwf E) as (Hok' & Hc' & _).
  assert (∃ e, (id, e) ∈ edges st' ∧ edge_source e = a ∧ edge_target e = b)
    as He.
  { destruct Hwf as (Hok & Hc & Hty).
    destruct (createEdge_cases a b opts st Hok Hc) as (r & st1 & E1 & Hout).
    rewrite E in E1. injection E1 as <- <-.
    inversion Hout as [|k e Hin [Hs Ht]|l|]; subst.
    - by exists e.
    - exists (new_edge a b opts st). split; [|done]. simpl.
      apply elem_of_app. right. by left. }
  unfold getConnectedNodes. simpl.
  split; [by apply lists_outputs|]. split; [done|].
  split; [by apply lists_inputs|done].
Qed.

Lemma createEdge_connects_witness :
  lists (conn_outputs
           (getConnectedNodes "node-2" (Some "output")
              (createEdge "node-2" "node-3" no_options fan).2))
    "node-3" "edge-2"
  ∧ conn_inputs
      (getConnectedNodes "node-2" (Some "output")
         (createEdge "node-2" "node-3" no_options fan).2) = []
  ∧ lists (conn_inputs
             (getConnectedNodes "node-3" (Some "input")
                (createEdge "node-2" "node-3" no_options fan).2))
      "node-2" "edge-2"
  ∧ conn_outputs
      (getConnectedNodes "node-3" (Some "input")
         (createEdge "node-2" "node-3" no_options fan).2) = [].
Proof.
  apply (createEdge_connects "node-2" "node-3" no_options fan); [apply fan_wf|].
  vm_compute. reflexivity.
Defined.

(** X4.  After [deleteNode(nodeId)] on a well-formed editor no connection
    query mentions the node any more: its own lists are empty and it is in
    no other node's inputs or outputs. *)
Theorem deleteNode_disconnects (nodeId : string) (st : Editor) :
  wf st →
  ∃ st', deleteNode nodeId st = (Ok tt, st')
    ∧ getConnectedNodes nodeId None st' = mkConnectedNodes [] []
    ∧ ∀ k c, c ∈ conn_inputs (getConnectedNodes k None st')
             ∨ c ∈ conn_outputs (getConnectedNodes k None st') →
             cn_id c ≠ nodeId.
Proof.
  intros Hwf.
  assert (∃ st', deleteNode nodeId st = (Ok tt, st') ∧ wf st'
                 ∧ nodeId ∉ (nodes st').*1) as (st' & E & Hwf' & Hgone).
  { destruct (decide (nodeId ∈ (nodes st).*1)) as [Hin|Hin].
    - destruct (deleteNode_live nodeId st Hwf Hin) as (st' & E & Hwf' & Hn & _).
      exists st'. split; [done|]. split; [done|].
      rewrite Hn, jm_delete_keys. intros [? _]%list_elem_of_filter. done.
    - exists st. by rewrite deleteNode_absent. }
  destruct Hwf' as (Hok & Hc & _).
  exists st'. split; [done|]. unfold getConnectedNodes. simpl. split.
  - unfold getConnectionDataCached.
    assert (jm_get nodeId (connectionCache st') = None) as ->; [|done].
    apply jm_get_None. by rewrite (ok_cache_keys st' Hc).
  - intros k c [Hin|Hin] Heq.
    + destruct (Forall2_elem_r _ _ _ _ (cached_inputs k st' Hok Hc) Hin)
        as (e & _ & (n & Hn & ->)).
      apply Hgone. simpl in Heq. rewrite <-Heq. apply jm_keys_elem. eauto.
    + destruct (Forall2_elem_r _ _ _ _ (cached_outputs k st' Hok Hc) Hin)
        as (e & _ & (n & Hn & ->)).
      apply Hgone. simpl in Heq. rewrite <-Heq. apply jm_keys_elem. eauto.
Qed.

Lemma deleteNode_disconnects_witness :
  ∃ st', deleteNode "node-2" fan = (Ok tt, st')
    ∧ getConnectedNodes "node-2" None st' = mkConnectedNodes [] []
    ∧ ∀ k c, c ∈ conn_inputs (getConnectedNodes k None st')
             ∨ c ∈ conn_outputs (getConnectedNodes k None st') →
             cn_id c ≠ "node-2".
Proof. apply (deleteNode_disconnects "node-2" fan). apply fan_wf. Defined.

(** ** What [validateCache] counts and what it repairs *)

Lemma fold_jm_set_keys {V} (v : V) (ks : list string) (m : list (string * V)) :
  NoDup (m.*1 ++ ks) →
  (fold_left (λ m k, jm_set k v m) ks m).*1 = m.*1 ++ ks.
Proof.
  revert m. induction ks as [|k ks IH]; intros m Hnd; simpl.
  - by rewrite app_nil_r.
  - assert (k ∉ m.*1) as Hk.
    { apply NoDup_app in Hnd as (_ & Hd & _). intros Hin.
      apply (Hd k Hin). left. }
    rewrite IH; rewrite jm_set_fresh by done; rewrite fmap_app; simpl;
      by rewrite <-app_assoc.
Qed.

Lemma pairs_determined {V} (f : string → V) (l : list (string * V)) :
  (∀ k c, (k, c) ∈ l → c = f k) → l = (λ k, (k, f k)) <$> l.*1.
Proof.
  induction l as [|[k c] l IH]; intros Hl; csimpl; [done|].
  rewrite (Hl k c) by left. f_equal. apply IH.
  intros k' c' Hin. apply Hl. by right.
Qed.

Lemma rebuildCache_exact st : store_ok st → rebuildCache st = exact_cache st.
Proof.
  intros Hok. unfold exact_cache.
  assert ((rebuildCache st).*1 = jm_keys (nodes st)) as Hkeys.
  { unfold rebuildCache. rewrite rebuild_keys.
    rewrite fold_jm_set_keys; [done|]. simpl. apply (ok_nodes_nodup st Hok). }
  rewrite <-Hkeys. apply pairs_determined. intros k c Hin.
  apply (jm_get_elem _ _ _ (rebuildCache_nodup st)) in Hin.
  destruct (rebuildCache_get st k c Hok Hin) as (_ & Hi & Ho).
  destruct c. simpl in *. by subst.
Qed.

Lemma count_filter {A} (f : A → bool) (l : list A) n :
  fold_left (λ n p, if f p then S n else n) l n
  = (n + length (filter (λ a, f a = true) l))%nat.
Proof.
  revert n. induction l as [|a l IH]; intros n; simpl; [lia|].
  rewrite IH, filter_cons. destruct (f a) eqn:E.
  - rewrite decide_True by done. simpl. lia.
  - rewrite decide_False by done. lia.
Qed.

(** X5.  What the validation pass counts.  On a well-formed store its
    result is the number of live nodes whose cache entry is missing or
    holds the wrong number of inputs or of outputs; which ids an entry
    holds, and entries of nodes that do not exist, play no part. *)
Theorem validateCache_counts (st : Editor) :
  store_ok st →
  (validateCache st).1
  = length (filter (λ k, stale st k = true) (jm_keys (nodes st))).
Proof.
  intros Hok. unfold validateCache. simpl.
  rewrite (rebuildCache_exact st Hok), count_filter. simpl.
  unfold exact_cache. generalize (jm_keys (nodes st)). intros ks.
  induction ks as [|k ks IH]; csimpl; [done|].
  assert (cache_issue st (k, mkCache (in_ids k (edges st))
                                (out_ids k (edges st))) = stale st k) as E.
  { unfold cache_issue, stale. simpl.
    destruct (jm_get k (connectionCache st)) as [c|]; [|done].
    by rewrite (Nat.eqb_sym (length (inputs c))),
               (Nat.eqb_sym (length (outputs c))). }
  rewrite !filter_cons, E.
  destruct (decide (stale st k = true)); simpl; by rewrite IH.
Qed.

Lemma store_ok_same st st' :
  store_ok st →
  options st' = options st → nodes st' = nodes st → edges st' = edges st →
  selectedNodes st' = selectedNodes st →
  nodeIdCounter st' = nodeIdCounter st →
  edgeIdCounter st' = edgeIdCounter st →
  store_ok st'.
Proof.
  intros Hok Ho Hn He Hs Hnc Hec.
  split; rewrite ?Ho, ?Hn, ?He, ?Hs, ?Hnc, ?Hec; apply Hok.
Qed.

Lemma two_ghosts_wf : wf two_ghosts.
Proof. unfold two_ghosts. apply createNode_wf, createNode_wf, new_editor_wf. Qed.

Lemma ghost_edge_store_ok : store_ok ghost_edge.
Proof.
  destruct two_ghosts_wf as (Hok & Hc & Hty).
  destruct (createEdge_cases "node-1" "node-2" no_options two_ghosts Hok Hc)
    as (r & st' & E & Hout).
  apply (createEdge_outcome_ok _ _ _ _ _ _ (conj Hok (conj Hc Hty))) in Hout.
  unfold ghost_edge. rewrite E. apply Hout.
Qed.

Lemma drifted_store_ok : store_ok drifted.
Proof.
  apply (store_ok_same ghost_edge); [apply ghost_edge_store_ok|..];
    vm_compute; reflexivity.
Qed.

Lemma validateCache_counts_witness :
  (validateCache drifted).1
  = length (filter (λ k, stale drifted k = true) (jm_keys (nodes drifted))).
Proof. apply (validateCache_counts drifted). apply drifted_store_ok. Defined.

Lemma exact_cache_ok st :
  store_ok st → cache_ok (set_connectionCache (exact_cache st) st).
Proof.
  intros Hok. split; simpl.
  - intros k. unfold exact_cache. rewrite <-list_fmap_compose.
    by rewrite list_fmap_id.
  - intros k c Hget%jm_get_Some_elem. unfold exact_cache in Hget.
    apply list_elem_of_fmap in Hget as (k' & [= -> ->] & _). done.
Qed.

(** X6.  What the validation pass repairs.  When it finds an issue on a
    well-formed store it replaces the cache by the exact one: afterwards
    every live node has an entry that holds the ids of the stored edges
    into and out of it, and the stores are as they were.  When it finds
    none it changes nothing. *)
Theorem validateCache_rebuilds (st : Editor) :
  store_ok st →
  ((validateCache st).1 = 0%nat → (validateCache st).2 = st)
  ∧ ((validateCache st).1 ≠ 0%nat →
     (validateCache st).2 = set_connectionCache (exact_cache st) st
     ∧ store_ok (validateCache st).2 ∧ cache_ok (validateCache st).2).
Proof.
  intros Hok. unfold validateCache. simpl.
  rewrite (rebuildCache_exact st Hok).
  destruct (fold_left _ _ _) as [|n]; simpl.
  - split; [done|]. intros []. done.
  - split; [done|]. intros _. split; [done|]. split.
    + by apply (store_ok_same st).
    + by apply exact_cache_ok.
Qed.

Lemma validateCache_rebuilds_witness :
  ((validateCache drifted).1 = 0%nat → (validateCache drifted).2 = drifted)
  ∧ ((validateCache drifted).1 ≠ 0%nat →
     (validateCache drifted).2
     = set_connectionCache (exact_cache drifted) drifted
     ∧ store_ok (validateCache drifted).2
     ∧ cache_ok (validateCache drifted).2).
Proof. apply (validateCache_rebuilds drifted). apply drifted_store_ok. Defined.

(** X7.  A second validation pass finds nothing, whatever the editor the
    first one was run on. *)
Theorem validateCache_settles (st : Editor) :
  validateCache (validateCache st).2 = (0%nat, (validateCache st).2).
Proof.
  unfold validateCache at 2 3. simpl.
  destruct (fold_left _ (rebuildCache st) 0%nat) as [|n] eqn:En; simpl.
  - unfold validateCache. by rewrite En.
  - unfold validateCache.
    assert (rebuildCache (set_connectionCache (rebuildCache st) st)
            = rebuildCache st) as -> by done.
    rewrite count_none; [done|]. intros [k c] Hin.
    unfold cache_issue. simpl.
    rewrite (jm_get_elem _ _ _ (rebuildCache_nodup st) Hin).
    by rewrite !Nat.eqb_refl.
Qed.

(** ** Deleting the selection *)

Lemma deleteNode_effect nodeId st :
  wf st →
  ∃ st', deleteNode nodeId st = (Ok tt, st') ∧ wf st'
    ∧ nodes st' = filter (λ p, p.1 ≠ nodeId) (nodes st)
    ∧ edges st' = filter (λ p, ¬ incident nodeId p.2) (edges st)
    ∧ selectedNodes st' = filter (λ k, k ≠ nodeId) (selectedNodes st)
    ∧ nodeIdCounter st' = nodeIdCounter st
    ∧ edgeIdCounter st' = edgeIdCounter st.
Proof.
  intros Hwf. destruct (decide (nodeId ∈ (nodes st).*1)) as [Hin|Hin].
  - destruct (deleteNode_live nodeId st Hwf Hin)
      as (st' & E & ? & ? & ? & ? & H).
    destruct_and!. exists st'. by repeat (split; [done|]).
  - exists st. rewrite deleteNode_absent by done.
    destruct Hwf as (Hok & Hc & Hty).
    split; [done|]. split; [done|]. split; [|split; [|split; [|done]]].
    + symmetry. apply filter_all. intros [k n] Hk Heq. simpl in Heq.
      subst k. apply Hin. apply jm_keys_elem. eauto.
    + symmetry. apply filter_all. intros [k e] Hk [Heq|Heq];
        simpl in Heq; apply Hin; rewrite <-Heq;
        apply (ok_edge_ends st Hok _ _ Hk).
    + symmetry. apply filter_all. intros k Hk ->.
      by apply Hin, (ok_selected st Hok).
Qed.

Lemma forEach_deleteNode_stores (l : list string) st :
  wf st →
  ∃ st', forEach deleteNode l st = (Ok tt, st') ∧ wf st'
    ∧ nodes st' = filter (λ p, p.1 ∉ l) (nodes st)
    ∧ edges st'
      = filter (λ p, (edge_source p.2 ∉ l) ∧ (edge_target p.2 ∉ l)) (edges st)
    ∧ selectedNodes st' = filter (λ k, k ∉ l) (selectedNodes st)
    ∧ nodeIdCounter st' = nodeIdCounter st
    ∧ edgeIdCounter st' = edgeIdCounter st.
Proof.
  revert st. induction l as [|a l IH]; intros st Hwf; simpl.
  - exists st. split; [done|]. split; [done|].
    split; [|split; [|split; [|done]]]; symmetry; apply filter_all.
    + intros x _. apply not_elem_of_nil.
    + intros x _. split; apply not_elem_of_nil.
    + intros x _. apply not_elem_of_nil.
  - destruct (deleteNode_effect a st Hwf)
      as (st1 & E1 & Hwf1 & Hn1 & He1 & Hs1 & ? & ?).
    destruct (IH st1 Hwf1) as (st2 & E2 & Hwf2 & Hn2 & He2 & Hs2 & ? & ?).
    exists st2. unfold mbind, M_bind. rewrite E1. split; [done|].
    split; [done|].
    split; [|split; [|split; [|split; congruence]]].
    + rewrite Hn2, Hn1, list_filter_filter.
      apply list_filter_iff. intros [k v]. simpl. rewrite not_elem_of_cons.
      tauto.
    + rewrite He2, He1, list_filter_filter.
      apply list_filter_iff. intros [k e]. unfold incident. simpl.
      rewrite !not_elem_of_cons. tauto.
    + rewrite Hs2, Hs1, list_filter_filter.
      apply list_filter_iff. intros k. rewrite not_elem_of_cons. tauto.
Qed.

(** X8.  [deleteSelected] on a well-formed editor returns normally and
    removes exactly the selected nodes together with every edge that has a
    selected end; the other nodes and edges stay, in their order, the
    selection ends empty and the id counters keep their values. *)
Theorem deleteSelected_removes (st : Editor) :
  wf st →
  ∃ st', deleteSelected st = (Ok tt, st') ∧ wf st'
    ∧ nodes st' = filter (λ p, p.1 ∉ selectedNodes st) (nodes st)
    ∧ edges st'
      = filter (λ p, (edge_source p.2 ∉ selectedNodes st)
                     ∧ (edge_target p.2 ∉ selectedNodes st)) (edges st)
    ∧ selectedNodes st' = []
    ∧ nodeIdCounter st' = nodeIdCounter st
    ∧ edgeIdCounter st' = edgeIdCounter st.
Proof.
  intros Hwf. unfold deleteSelected.
  destruct (forEach_deleteNode_stores (selectedNodes st) st Hwf)
    as (st1 & E1 & Hwf1 & Hn1 & He1 & Hs1 & ? & ?).
  unfold mbind, M_bind, modify. rewrite E1.
  eexists. split; [done|]. simpl.
  split; [by apply clearSelection_wf|]. by repeat (split; [done|]).
Qed.

Lemma deleteSelected_removes_witness :
  ∃ st', deleteSelected fan = (Ok tt, st') ∧ wf st'
    ∧ nodes st' = filter (λ p, p.1 ∉ selectedNodes fan) (nodes fan)
    ∧ edges st'
      = filter (λ p, (edge_source p.2 ∉ selectedNodes fan)
                     ∧ (edge_target p.2 ∉ selectedNodes fan)) (edges fan)
    ∧ selectedNodes st' = []
    ∧ nodeIdCounter st' = nodeIdCounter fan
    ∧ edgeIdCounter st' = edgeIdCounter fan.
Proof. apply (deleteSelected_removes fan). apply fan_wf. Defined.

(** ** Keyboard shortcuts *)

Lemma selectAll_selects st k :
  k ∈ (nodes st).*1 → k ∈ selectedNodes (selectAll st).
Proof.
  unfold selectAll, jm_keys. simpl.
  generalize (selectedNodes st). induction (nodes st).*1 as [|a l IH];
    intros s Hk; simpl.
  - by apply elem_of_nil in Hk.
  - apply elem_of_cons in Hk as [->|Hk]; [|by apply IH].
    assert (∀ l s, a ∈ s → a ∈ fold_left (λ s id, js_add id s) l s) as Hkeep.
    { clear. induction l as [|b l IH]; intros s Ha; simpl; [done|].
      apply IH. apply js_add_elem. by right. }
    apply Hkeep. apply js_add_elem. by left.
Qed.

Lemma handleKeyDown_select_all ctrl meta st :
  ctrl || meta = true →
  handleKeyDown (mkKey "a" ctrl meta) st = (Ok tt, selectAll st).
Proof. intros H. unfold handleKeyDown. simpl. by rewrite H. Qed.

Lemma handleKeyDown_delete ctrl meta st :
  handleKeyDown (mkKey "Delete" ctrl meta) st = deleteSelected st.
Proof.
  unfold handleKeyDown. simpl. unfold mbind, M_bind, mret, M_ret.
  by destruct (deleteSelected st) as [[[]|] ?].
Qed.

Lemma handleKeyDown_copy ctrl meta st :
  ctrl || meta = true →
  handleKeyDown (mkKey "c" ctrl meta) st = copySelected st.
Proof.
  intros H. unfold handleKeyDown. simpl. rewrite H.
  unfold mbind, M_bind, mret, M_ret.
  by destruct (copySelected st) as [[[]|] ?].
Qed.

Lemma handleKeyDown_paste ctrl meta st :
  ctrl || meta = true →
  handleKeyDown (mkKey "v" ctrl meta) st = (Ok tt, paste st).
Proof. intros H. unfold handleKeyDown. simpl. by rewrite H. Qed.

(** X9.  Ctrl+A (or Cmd+A) followed by Delete empties a well-formed
    editor: no node, no edge, no cache entry and no selection is left.
    Unlike [clear], the two id counters keep their values, so ids handed
    out afterwards do not repeat earlier ones. *)
Theorem select_all_then_delete (ctrl meta ctrl' meta' : bool) (st : Editor) :
  wf st → ctrl || meta = true →
  ∃ st',
    (handleKeyDown (mkKey "a" ctrl meta);;
     handleKeyDown (mkKey "Delete" ctrl' meta')) st = (Ok tt, st')
    ∧ nodes st' = [] ∧ edges st' = [] ∧ connectionCache st' = []
    ∧ selectedNodes st' = []
    ∧ nodeIdCounter st' = nodeIdCounter st
    ∧ edgeIdCounter st' = edgeIdCounter st.
Proof.
  intros Hwf Hmod.
  pose proof (selectAll_wf st Hwf) as Hwf1.
  destruct (forEach_deleteNode_stores (selectedNodes (selectAll st))
              (selectAll st) Hwf1)
    as (st1 & E1 & (Hok1 & Hc1 & _) & Hn1 & He1 & Hs1 & Hnc & Hec).
  assert (nodes st1 = []) as Hn.
  { rewrite Hn1. apply filter_none. intros [k n] Hin Hk. apply Hk.
    apply selectAll_selects, jm_keys_elem. eauto. }
  assert (edges st1 = []) as He.
  { destruct (edges st1) as [|[k e] es] eqn:Ee; [done|].
    destruct (ok_edge_ends st1 Hok1 k e) as [Hs _]; [rewrite Ee; left|].
    rewrite Hn in Hs. by apply elem_of_nil in Hs. }
  assert (connectionCache st1 = []) as Hcc.
  { destruct (connectionCache st1) as [|[k c] cs] eqn:Ee; [done|].
    assert (k ∈ (nodes st1).*1) as Hk.
    { apply (ok_cache_keys st1 Hc1). rewrite Ee. left. }
    rewrite Hn in Hk. by apply elem_of_nil in Hk. }
  exists (clearSelection st1). unfold mbind, M_bind at 1.
  rewrite handleKeyDown_select_all by done.
  rewrite handleKeyDown_delete.
  unfold deleteSelected, mbind, M_bind, modify. rewrite E1.
  by repeat (split; [done|]).
Qed.

Lemma select_all_then_delete_witness :
  ∃ st',
    (handleKeyDown (mkKey "a" true false);;
     handleKeyDown (mkKey "Delete" false false)) fan = (Ok tt, st')
    ∧ nodes st' = [] ∧ edges st' = [] ∧ connectionCache st' = []
    ∧ selectedNodes st' = []
    ∧ nodeIdCounter st' = nodeIdCounter fan
    ∧ edgeIdCounter st' = edgeIdCounter fan.
Proof.
  apply (select_all_then_delete true false false false fan);
    [apply fan_wf|reflexivity].
Defined.

(** ** Copy and paste *)

Lemma mapM_copy_node_live (l : list string) st :
  (∀ k, k ∈ l → k ∈ (nodes st).*1) →
  mapM copy_node l st
  = (Ok (clip_of <$> omap (λ k, jm_get k (nodes st)) l), st).
Proof.
  induction l as [|k l IH]; intros Hl; [done|]. csimpl.
  assert (k ∈ (nodes st).*1) as [node Hn]%jm_get_is_Some
    by (apply Hl; left).
  unfold mbind at 1, M_bind. unfold copy_node at 1. rewrite Hn.
  unfold mbind at 1, M_bind. rewrite IH by (intros k' Hk'; apply Hl; by right).
  done.
Qed.

Lemma paste_node_copy (n : Node) st :
  wf st → clear_of_offset n →
  dom (nodeDefaults (options st)) ⊆ dom (node_data n) →
  let new := mkNode (node_name (nodeIdCounter st)) (node_type n)
               (node_position (shifted n)) (node_data n) in
  wf (paste_node (clip_of n) st)
  ∧ nodes (paste_node (clip_of n) st)
    = nodes st ++ [(node_name (nodeIdCounter st), new)]
  ∧ edges (paste_node (clip_of n) st) = edges st
  ∧ selectedNodes (paste_node (clip_of n) st)
    = selectedNodes st ++ [node_name (nodeIdCounter st)]
  ∧ options (paste_node (clip_of n) st) = options st
  ∧ nodeIdCounter (paste_node (clip_of n) st) = S (nodeIdCounter st)
  ∧ edgeIdCounter (paste_node (clip_of n) st) = edgeIdCounter st.
Proof.
  intros Hwf [Hx Hy] Hd new. pose proof Hwf as (Hok & Hc & Hty).
  unfold paste_node. simpl.
  destruct (createNode_given (Some (node_type n))
              (pos_x (node_position n) + 50) (pos_y (node_position n) + 50)
              (Some (node_data n)) st Hok Hc Hx Hy) as (d & l0 & E).
  pose proof (createNode_wf (Some (node_type n))
                (Some (mkPosArg (Some (pos_x (node_position n) + 50)%Q)
                                (Some (pos_y (node_position n) + 50)%Q)))
                (Some (node_data n)) st Hwf) as Hwf1.
  rewrite E in Hwf1 |- *. simpl in Hwf1.
  assert (created_node (Some (node_type n)) (pos_x (node_position n) + 50)
            (pos_y (node_position n) + 50) (Some (node_data n)) st = new)
    as Hnode.
  { unfold created_node, new. simpl. by rewrite union_absorb by done. }
  rewrite Hnode in *.
  set (st1 := node_created new d l0 st) in *.
  split; [by apply selectNode_wf|].
  rewrite selectNode_nodes, selectNode_edges, selectNode_options.
  split; [done|]. split; [done|].
  assert (jm_get (node_name (nodeIdCounter st)) (nodes st1) = Some new) as Hg.
  { subst st1. simpl. rewrite jm_get_app.
    rewrite (proj2 (jm_get_None _ _)) by (by apply fresh_node_name).
    simpl. by rewrite decide_True. }
  unfold selectNode. rewrite Hg.
  match goal with |- context [triggerCallback ?a ?b ?x] =>
    destruct (triggerCallback_is_set_log a b x) as [l1 ->] end.
  simpl. split; [|done].
  apply js_add_fresh. intros Hsel%(ok_selected st Hok).
  by apply (fresh_node_name st Hok).
Qed.

Lemma paste_nodes_copies (l : list Node) st :
  wf st →
  (∀ n, n ∈ l → clear_of_offset n
               ∧ dom (nodeDefaults (options st)) ⊆ dom (node_data n)) →
  ∃ st',
    fold_left (λ st nodeData, paste_node nodeData st) (clip_of <$> l) st = st'
    ∧ wf st'
    ∧ nodes st' = nodes st ++ renumber (nodeIdCounter st) (shifted <$> l)
    ∧ edges st' = edges st
    ∧ selectedNodes st'
      = selectedNodes st ++ (renumber (nodeIdCounter st) (shifted <$> l)).*1.
Proof.
  revert st. induction l as [|n l IH]; intros st Hwf Hl.
  - exists st. simpl. rewrite !app_nil_r. by repeat (split; [done|]).
  - destruct (Hl n) as [Hoff Hd]; [left|].
    destruct (paste_node_copy n st Hwf Hoff Hd)
      as (Hwf1 & Hn1 & He1 & Hs1 & Ho1 & Hc1 & Hec1).
    destruct (IH (paste_node (clip_of n) st) Hwf1)
      as (st2 & E2 & Hwf2 & Hn2 & He2 & Hs2).
    { intros n' Hn'. destruct (Hl n') as [? ?]; [by right|].
      by rewrite Ho1. }
    exists st2. split; [exact E2|]. split; [done|].
    rewrite Hn2, He2, Hs2, Hn1, He1, Hs1, Hc1.
    rewrite <-!app_assoc. by repeat (split; [done|]).
Qed.

Lemma selected_nodes_length st :
  store_ok st → length (selected_nodes st) = length (selectedNodes st).
Proof.
  intros Hok. unfold selected_nodes.
  pose proof (ok_selected st Hok) as Hlive.
  induction (selectedNodes st) as [|k l IH]; [done|]. csimpl.
  assert (k ∈ (nodes st).*1) as [n ->]%jm_get_is_Some
    by (apply Hlive; left). simpl.
  f_equal. apply IH. intros k' Hk'. apply Hlive. by right.
Qed.

(** X10.  Ctrl+C followed by Ctrl+V (or the Cmd forms) on a well-formed
    editor with a non-empty selection in which no node has a coordinate of
    -50: every selected node gets a copy with the same type and data, 50
    further right and 50 further down, under the next free ids in the order
    of the selection; the copies are appended to the node store and become
    the selection; the old nodes and all edges are as they were. *)
Theorem copy_paste_duplicates (ctrl meta ctrl' meta' : bool) (st : Editor) :
  wf st → ctrl || meta = true → ctrl' || meta' = true →
  selectedNodes st ≠ [] →
  (∀ n, n ∈ selected_nodes st → clear_of_offset n) →
  ∃ st',
    (handleKeyDown (mkKey "c" ctrl meta);;
     handleKeyDown (mkKey "v" ctrl' meta')) st = (Ok tt, st')
    ∧ wf st'
    ∧ nodes st'
      = nodes st
        ++ renumber (nodeIdCounter st) (shifted <$> selected_nodes st)
    ∧ length (selected_nodes st) = length (selectedNodes st)
    ∧ selectedNodes st'
      = node_name <$> seq (nodeIdCounter st) (length (selectedNodes st))
    ∧ edges st' = edges st.
Proof.
  intros Hwf Hc Hv Hsel Hoff. pose proof Hwf as (Hok & Hca & Hty).
  pose proof (selected_nodes_length st Hok) as Hlen.
  unfold mbind, M_bind at 1.
  rewrite handleKeyDown_copy by done. unfold copySelected.
  unfold mbind, M_bind, modify.
  rewrite mapM_copy_node_live by apply (ok_selected st Hok).
  fold (selected_nodes st).
  rewrite handleKeyDown_paste by done.
  set (cb := mkClip _ _). set (st1 := set_clipboard (Some cb) st).
  assert (wf st1) as Hwf1.
  { apply (wf_same st); try done. intros k Hk. by apply (ok_selected st Hok). }
  assert (paste st1
          = fold_left (λ st nodeData, paste_node nodeData st)
              (clip_of <$> selected_nodes st) (clearSelection st1)) as ->.
  { unfold paste. simpl.
    destruct (selected_nodes st) eqn:E; [|done].
    destruct (selectedNodes st); [done|discriminate Hlen]. }
  destruct (paste_nodes_copies (selected_nodes st) (clearSelection st1))
    as (st2 & -> & Hwf2 & Hn2 & He2 & Hs2).
  { by apply clearSelection_wf. }
  { intros n Hn. split; [by apply Hoff|]. simpl.
    apply list_elem_of_omap in Hn as (k & _ & Hn%jm_get_Some_elem).
    by apply (ok_node_data st Hok k). }
  eexists. split; [done|]. split; [done|]. split; [done|]. split; [done|].
  split; [|done]. rewrite Hs2. simpl.
  by rewrite renumber_keys, length_fmap, Hlen.
Qed.

Lemma fan_selected : selectedNodes fan ≠ [].
Proof.
  assert (selectedNodes fan = ["node-2"]) as -> by (vm_compute; reflexivity).
  discriminate.
Qed.

Lemma fan_selected_clear n : n ∈ selected_nodes fan → clear_of_offset n.
Proof.
  intros Hn.
  assert (node_position <$> selected_nodes fan = [mkPos 20 20]) as E
    by (vm_compute; reflexivity).
  destruct (selected_nodes fan) as [|n0 [|]]; try discriminate E.
  injection E as E. apply list_elem_of_singleton in Hn as ->.
  unfold clear_of_offset. rewrite E. simpl. split; intros [=].
Qed.

Lemma copy_paste_duplicates_witness :
  ∃ st',
    (handleKeyDown (mkKey "c" true false);;
     handleKeyDown (mkKey "v" false true)) fan = (Ok tt, st')
    ∧ wf st'
    ∧ nodes st'
      = nodes fan
        ++ renumber (nodeIdCounter fan) (shifted <$> selected_nodes fan)
    ∧ length (selected_nodes fan) = length (selectedNodes fan)
    ∧ selectedNodes st'
      = node_name <$> seq (nodeIdCounter fan) (length (selectedNodes fan))
    ∧ edges st' = edges fan.
Proof.
  apply (copy_paste_duplicates true false false true fan);
    [apply fan_wf|reflexivity|reflexivity|apply fan_selected
    |apply fan_selected_clear].
Defined.

(** ** Connections drawn with the pointer *)

Lemma jm_elem_set {K V} `{EqDecision K} (k k' : K) (v v' : V) m :
  (k', v') ∈ jm_set k v m → (k', v') ∈ m ∨ (k' = k ∧ v' = v).
Proof.
  induction m as [|[k0 v0] m IH]; simpl.
  - intros [= -> ->]%list_elem_of_singleton. auto.
  - case_decide; subst.
    + intros [[= -> ->]|Hin]%elem_of_cons; [auto|]. left. by right.
    + intros [[= -> ->]|Hin]%elem_of_cons; [left; left|].
      destruct (IH Hin) as [?|?]; [left; by right|auto].
Qed.

Lemma updateCacheOnEdgeCreate_edges edge st :
  edges (updateCacheOnEdgeCreate edge st) = edges st.
Proof. unfold updateCacheOnEdgeCreate. simpl. by autorewrite with editor. Qed.

(** Whatever the editor and whatever the outcome, [createEdge] adds at
    most an edge from [sourceId] to [targetId]. *)
Lemma createEdge_edges sourceId targetId opts st r st' k e :
  createEdge sourceId targetId opts st = (r, st') →
  (k, e) ∈ edges st' →
  (k, e) ∈ edges st ∨ (edge_source e = sourceId ∧ edge_target e = targetId).
Proof.
  unfold createEdge.
  destruct (negb _ || negb _); [by intros [= _ <-]; auto|].
  destruct (list_find _ _) as [[i e0]|]; [by intros [= _ <-]; auto|].
  unfold mbind, M_bind, modify, mret, M_ret. simpl.
  match goal with |- context [connect_hooks ?a ?b ?x] =>
    pose proof (connect_hooks_state a b x) as Hst;
    destruct (connect_hooks a b x) as [[[]|msg] st1] end;
    simpl in Hst; subst st1; intros [= _ <-];
    rewrite ?triggerCallback_edges, updateCacheOnEdgeCreate_edges; simpl;
    intros [?|[-> ->]]%jm_elem_set; auto.
Qed.

Lemma between_sym a b e : between a b e ↔ between b a e.
Proof. unfold between. tauto. Qed.

Lemma validateConnection_true a pa b pb st :
  validateConnection a pa b pb st = true
  ↔ a ≠ b ∧ pa ≠ pb ∧ ∀ k e, (k, e) ∈ edges st → ¬ between a b e.
Proof.
  unfold validateConnection. repeat case_bool_decide; try naive_solver.
  destruct (list_find _ _) as [[i e]|] eqn:E.
  - apply list_find_Some in E as (Hi%list_elem_of_lookup_2 & He & _).
    apply jm_values_elem in Hi as [k Hin]. naive_solver.
  - split; [|done]. intros _. split; [done|]. split; [done|].
    intros k e Hin Hb.
    apply list_find_None in E. rewrite Forall_forall in E.
    apply (E e); [|done]. apply jm_values_elem. eauto.
Qed.

(** X11.  A connection drawn with the pointer never yields a self-loop and
    never joins two nodes that an edge already joins in either direction:
    whatever the editor, the release point and the outcome, every edge
    stored after [endConnection] that was not stored before has distinct
    ends, and no edge stored before runs between those ends. *)
Theorem endConnection_guarded (target : option (string * string))
    (st st' : Editor) (r : Result unit) :
  endConnection target st = (r, st') →
  ∀ k e, (k, e) ∈ edges st' →
    (k, e) ∈ edges st
    ∨ (edge_source e ≠ edge_target e
       ∧ ∀ k' e', (k', e') ∈ edges st →
                  ¬ between (edge_source e) (edge_target e) e').
Proof.
  unfold endConnection.
  destruct (connectionState st) as [cs|]; [|by intros [= _ <-]; auto].
  destruct target as [[b pb]|]; [|by intros [= _ <-]; auto].
  destruct (validateConnection (sourceNodeId cs) (sourcePortType cs) b pb st)
    eqn:Hv; [|by intros [= _ <-]; auto].
  apply validateConnection_true in Hv as (Hne & _ & Hfree).
  unfold mbind, M_bind, modify, mret, M_ret.
  case_bool_decide.
  - destruct (createEdge (sourceNodeId cs) b no_options st)
      as [[v|msg] st1] eqn:E; intros [= _ <-] k e Hin; simpl in Hin;
      (destruct (createEdge_edges _ _ _ _ _ _ _ _ E Hin) as [?|[-> ->]];
       [by left|right; eauto]).
  - destruct (createEdge b (sourceNodeId cs) no_options st)
      as [[v|msg] st1] eqn:E; intros [= _ <-] k e Hin; simpl in Hin;
      (destruct (createEdge_edges _ _ _ _ _ _ _ _ E Hin) as [?|[-> ->]];
       [by left|right]).
    all: split; [done|]; intros k' e' Hin' Hb%between_sym; by eapply Hfree.
Qed.

Lemma endConnection_guarded_witness :
  endConnection (Some ("node-1", "input")) linking
  = (Ok tt, (endConnection (Some ("node-1", "input")) linking).2)
  ∧ ∀ k e,
      (k, e) ∈ edges (endConnection (Some ("node-1", "input")) linking).2 →
      (k, e) ∈ edges linking
      ∨ (edge_source e ≠ edge_target e
         ∧ ∀ k' e', (k', e') ∈ edges linking →
                    ¬ between (edge_source e) (edge_target e) e').
Proof.
  split; [vm_compute; reflexivity|].
  apply (endConnection_guarded (Some ("node-1", "input")) linking _ (Ok tt)).
  vm_compute. reflexivity.
Defined.

Lemma hooks_ok_sym st a b : hooks_ok st a b → hooks_ok st b a.
Proof. unfold hooks_ok. naive_solver. Qed.

(** X12.  Drawing a connection.  On a well-formed editor with no drag in
    progress, pressing on a port of node [a] and releasing over a port of
    another role on a different node [b], both of registered types and not
    yet joined in either direction, stores exactly one new edge under the
    next edge id; it runs from [a] to [b] when the first port is an
    output and from [b] to [a] otherwise.  The connection state is reset
    and the nodes are untouched. *)
Theorem connection_gesture (e : PointerEvent) (a pa b pb : string)
    (st : Editor) :
  wf st → dragState st = None →
  a ∈ (nodes st).*1 → b ∈ (nodes st).*1 → a ≠ b → pa ≠ pb →
  hooks_ok st a b →
  (∀ k e', (k, e') ∈ edges st → ¬ between a b e') →
  ∃ st',
    handleMouseUp (Some (b, pb)) (handleMouseDown e (OnPort a pa) st)
    = (Ok tt, st')
    ∧ edges st'
      = edges st
        ++ [(edge_name (edgeIdCounter st),
             new_edge (oriented pa a b).1 (oriented pa a b).2 no_options st)]
    ∧ connectionState st' = None
    ∧ nodes st' = nodes st
    ∧ wf st'.
Proof.
  intros Hwf Hdrag Ha Hb Hne Hp Hh Hfree.
  set (st0 := handleMouseDown e (OnPort a pa) st).
  assert (wf st0) as Hwf0 by (by apply set_connectionState_wf).
  pose proof Hwf0 as (Hok0 & Hc0 & Hty0).
  assert (validateConnection a pa b pb st0 = true) as Hv
    by (by apply validateConnection_true).
  assert (∃ l, createEdge (oriented pa a b).1 (oriented pa a b).2 no_options st0
               = (Ok (Some (edge_name (edgeIdCounter st))),
                  edge_created
                    (new_edge (oriented pa a b).1 (oriented pa a b).2
                       no_options st0) l st0)) as [l E].
  { unfold oriented. case_bool_decide; simpl.
    - destruct (createEdge_new a b no_options st0 Hok0 Hc0 Ha Hb) as [Hnew _].
      { apply list_find_None, Forall_forall.
        intros e' [k Hin]%jm_values_elem [Hs Ht]. apply (Hfree k e' Hin).
        by left. }
      by apply Hnew.
    - destruct (createEdge_new b a no_options st0 Hok0 Hc0 Hb Ha) as [Hnew _].
      { apply list_find_None, Forall_forall.
        intros e' [k Hin]%jm_values_elem [Hs Ht]. apply (Hfree k e' Hin).
        by right. }
      by apply Hnew, hooks_ok_sym. }
  pose proof (createEdge_wf _ _ _ _ _ _ Hwf0 E) as Hwf1.
  exists (set_connectionState None
            (edge_created
               (new_edge (oriented pa a b).1 (oriented pa a b).2
                  no_options st0) l st0)).
  split.
  - unfold handleMouseUp, when_dragging, when_connecting, mbind, M_bind.
    simpl. rewrite Hdrag. unfold endConnection. simpl. rewrite Hv.
    unfold mbind, M_bind, mret, M_ret, modify. unfold oriented in E |- *.
    destruct (bool_decide (pa = "output")); simpl in E |- *; by rewrite E.
  - simpl. split; [done|]. split; [done|]. split; [done|].
    by apply set_connectionState_wf.
Qed.

Lemma fan_free k e : (k, e) ∈ edges fan → ¬ between "node-3" "node-1" e.
Proof.
  intros Hin Hb.
  assert (Forall (λ e, ¬ between "node-3" "node-1" e) (jm_values (edges fan)))
    as Hall.
  { assert ((λ e, (edge_source e, edge_target e)) <$> jm_values (edges fan)
            = [("node-2", "node-1"); ("node-2", "node-3")]) as E
      by (vm_compute; reflexivity).
    destruct (jm_values (edges fan)) as [|e1 [|e2 [|]]]; try discriminate E.
    injection E as E1 E2 E3 E4.
    repeat constructor; unfold between; rewrite ?E1, ?E2, ?E3, ?E4;
      intros [[[=] _]|[[=] _]]. }
  rewrite Forall_forall in Hall. apply (Hall e); [|done].
  apply jm_values_elem. eauto.
Qed.

Lemma fan_nodes : (nodes fan).*1 = ["node-1"; "node-2"; "node-3"].
Proof. vm_compute. reflexivity. Qed.

Lemma fan_hooks a b : hooks_ok fan a b.
Proof.
  intros n Hn.
  assert (Forall (λ p, node_type p.2 ∈ nodeTypes fan) (nodes fan)) as Hall.
  { assert (nodeTypes fan = {[ "default" ]}) as -> by done.
    assert ((λ p, node_type p.2) <$> nodes fan
            = ["default"; "default"; "default"]) as E
      by (vm_compute; reflexivity).
    destruct (nodes fan) as [|p1 [|p2 [|p3 [|]]]]; try discriminate E.
    injection E as E1 E2 E3.
    repeat constructor; rewrite ?E1, ?E2, ?E3; set_solver. }
  rewrite Forall_forall in Hall. destruct Hn as [Hn|Hn]; apply (Hall _ Hn).
Qed.

Lemma connection_gesture_witness :
  ∃ st',
    handleMouseUp (Some ("node-1", "input"))
      (handleMouseDown (mkPointer 0 0 false false) (OnPort "node-3" "output")
         fan)
    = (Ok tt, st')
    ∧ edges st'
      = edges fan
        ++ [(edge_name (edgeIdCounter fan),
             new_edge (oriented "output" "node-3" "node-1").1
               (oriented "output" "node-3" "node-1").2 no_options fan)]
    ∧ connectionState st' = None
    ∧ nodes st' = nodes fan
    ∧ wf st'.
Proof.
  apply (connection_gesture (mkPointer 0 0 false false) "node-3" "output"
           "node-1" "input" fan);
    [apply fan_wf|reflexivity|rewrite fan_nodes; set_solver
    |rewrite fan_nodes; set_solver|discriminate|discriminate
    |apply fan_hooks|apply fan_free].
Defined.

(** ** Where a drag puts the nodes *)

Lemma drag_node_step ds dx dy k st st1 :
  drag_node ds dx dy k st = (Ok tt, st1) →
  options st1 = options st
  ∧ ∀ id n,
      jm_get id (nodes st1) = Some n →
      (id ≠ k ∧ jm_get id (nodes st) = Some n)
      ∨ (id = k
         ∧ ∃ s, jm_get id (startPositions ds) = Some s
                ∧ node_position n
                  = drag_target (gridSize (options st)) s dx dy).
Proof.
  unfold drag_node.
  destruct (jm_get k (nodes st)) as [node|] eqn:Ek.
  - destruct (jm_get k (startPositions ds)) as [s|] eqn:Es; [|done].
    intros [= <-]. simpl. split; [done|]. intros id n.
    rewrite jm_get_alter. case_decide as Hid.
    + subst id. rewrite Ek. simpl. intros [= <-]. right. split; [done|].
      exists s. by split.
    + intros Hn. by left.
  - intros [= <-]. split; [done|]. intros id n Hn.
    left. split; [|done]. intros ->. congruence.
Qed.

Lemma forEach_drag_node_target ds dx dy (l : list string) st st' id :
  forEach (drag_node ds dx dy) l st = (Ok tt, st') →
  let placed st :=
    ∀ n, jm_get id (nodes st) = Some n →
      ∃ s, jm_get id (startPositions ds) = Some s
           ∧ node_position n = drag_target (gridSize (options st)) s dx dy in
  options st' = options st ∧ (id ∈ l ∨ placed st → placed st').
Proof.
  revert st. induction l as [|k l IH]; intros st; simpl.
  - intros [= <-]. split; [done|]. intros [[]%elem_of_nil|?]; done.
  - unfold mbind, M_bind.
    destruct (drag_node ds dx dy k st) as [[[]|msg] st1] eqn:E1; [|done].
    intros E. destruct (drag_node_step _ _ _ _ _ _ E1) as [Ho1 Hstep].
    destruct (IH st1 E) as [Ho Hrest]. split; [congruence|].
    intros Hin. apply Hrest. rewrite Ho1.
    destruct (decide (id = k)) as [->|Hne].
    + right. intros n Hn. destruct (Hstep k n Hn) as [[? _]|[_ ?]]; done.
    + destruct Hin as [[?|?]%elem_of_cons|Hplaced]; [done|by left|].
      right. intros n Hn. destruct (Hstep id n Hn) as [[_ ?]|[? _]]; [|done].
      by apply Hplaced.
Qed.

Lemma updateDrag_target e canvas st st' ds id n :
  dragState st = Some ds → updateDrag e canvas st = (Ok tt, st') →
  id ∈ drag_nodes ds → jm_get id (nodes st') = Some n →
  ∃ s p0,
    jm_get id (startPositions ds) = Some s
    ∧ jm_get (drag_primary ds) (startPositions ds) = Some p0
    ∧ node_position n
      = drag_target (gridSize (options st)) s
          (pointer_x e canvas ds - pos_x p0) (pointer_y e canvas ds - pos_y p0).
Proof.
  intros Hds. unfold updateDrag. rewrite Hds.
  destruct (jm_get (drag_primary ds) (startPositions ds)) as [p0|]; [|done].
  intros E Hin Hn.
  destruct (forEach_drag_node_target _ _ _ _ _ _ id E) as [Ho Hplaced].
  destruct (Hplaced (or_introl Hin) n Hn) as (s & Hs & Hpos).
  exists s, p0. rewrite Ho in Hpos. done.
Qed.

(** X13.  A drag never leaves a node at a negative coordinate: after an
    [updateDrag] that returns normally, both coordinates of every dragged
    node are at least 0, wherever the pointer is. *)
Theorem updateDrag_nonnegative (e : PointerEvent) (canvas : Canvas)
    (st st' : Editor) (ds : DragState) :
  dragState st = Some ds → updateDrag e canvas st = (Ok tt, st') →
  ∀ id n, id ∈ drag_nodes ds → jm_get id (nodes st') = Some n →
    (0 <= pos_x (node_position n))%Q ∧ (0 <= pos_y (node_position n))%Q.
Proof.
  intros Hds E id n Hin Hn.
  destruct (updateDrag_target e canvas st st' ds id n Hds E Hin Hn)
    as (s & p0 & _ & _ & ->).
  simpl. split; apply Q.le_max_l.
Qed.

Lemma dragging_state : dragState dragging = Some drag_one.
Proof. vm_compute. reflexivity. Qed.

Lemma drag_one_moved e canvas st :
  dragState st = Some drag_one →
  updateDrag e canvas st = (Ok tt, (updateDrag e canvas st).2).
Proof.
  intros Hds.
  destruct (updateDrag_ok e canvas st drag_one Hds) as (st' & -> & _); [|done].
  split.
  - intros id [->|[]%elem_of_nil]%elem_of_cons _. left.
  - left.
Qed.

Lemma updateDrag_nonnegative_witness :
  dragState dragging = Some drag_one
  ∧ ∀ id n, id ∈ drag_nodes drag_one →
      jm_get id (nodes (updateDrag (pointer_at (-40) 3) plain_canvas
                          dragging).2) = Some n →
      (0 <= pos_x (node_position n))%Q ∧ (0 <= pos_y (node_position n))%Q.
Proof.
  split; [apply dragging_state|].
  apply (updateDrag_nonnegative (pointer_at (-40) 3) plain_canvas dragging _
           drag_one);
    [apply dragging_state|apply drag_one_moved, dragging_state].
Defined.

(** ** Grid snapping *)

Lemma Math_round_near v :
  (v - (1 # 2) < Math_round v)%Q ∧ (Math_round v <= v + (1 # 2))%Q.
Proof.
  unfold Math_round.
  pose proof (Qfloor_le (v + (1 # 2))) as Hle.
  pose proof (Qlt_floor (v + (1 # 2))) as Hlt.
  rewrite inject_Z_plus in Hlt. change (inject_Z 1) with 1%Q in Hlt.
  split; lra.
Qed.

Lemma snap_off g v : (g <= 1)%Q → snap g v = v.
Proof. intros H. unfold snap. by rewrite (proj2 (Qle_bool_iff g 1) H). Qed.

Lemma snap_on g v : (1 < g)%Q → snap g v = (Math_round (v / g) * g)%Q.
Proof.
  intros H. unfold snap. destruct (Qle_bool g 1) eqn:E; [|done].
  apply Qle_bool_iff in E. lra.
Qed.

(** X14.  Grid snapping.  With a grid size of at most 1 a coordinate is
    left as it is.  With a larger grid size it is replaced by a whole
    multiple of the grid size that is within half a grid step of it, the
    upper one when it lies exactly between two. *)
Theorem snap_nearest (g v : Q) :
  ((g <= 1)%Q → snap g v = v)
  ∧ ((1 < g)%Q →
     (∃ z : Z, snap g v == inject_Z z * g)%Q
     ∧ (v - g / 2 < snap g v)%Q ∧ (snap g v <= v + g / 2)%Q).
Proof.
  split; [apply snap_off|]. intros Hg. rewrite (snap_on g v Hg).
  split; [by exists (Qfloor (v / g + (1 # 2)))|].
  destruct (Math_round_near (v / g)) as [Hlo Hhi].
  assert (0 < g)%Q as Hpos by lra.
  assert (¬ g == 0)%Q as Hnz by lra.
  split.
  - assert ((v / g - (1 # 2)) * g == v - g / 2)%Q as <- by (by field).
    by apply Qmult_lt_compat_r.
  - assert ((v / g + (1 # 2)) * g == v + g / 2)%Q as <- by (by field).
    apply Qmult_le_compat_r; [done|lra].
Qed.

Lemma Qmax_0_multiple (z : Z) (g : Q) :
  (0 < g)%Q →
  ∃ i : Z, (0 <= i)%Z ∧ (Qmax 0 (inject_Z z * g) == inject_Z i * g)%Q.
Proof.
  intros Hg. destruct (decide (0 <= z)%Z) as [Hz|Hz].
  - exists z. split; [done|]. apply Q.max_r.
    apply Qmult_le_0_compat; [|lra].
    change 0%Q with (inject_Z 0). by rewrite <-Zle_Qle.
  - exists 0%Z. split; [done|]. rewrite Q.max_l; [by rewrite Qmult_0_l|].
    assert (inject_Z z <= 0)%Q as Hz'.
    { change 0%Q with (inject_Z 0). rewrite <-Zle_Qle. lia. }
    assert (0 <= (- inject_Z z) * g)%Q by (apply Qmult_le_0_compat; lra).
    lra.
Qed.

(** X15.  On a grid of size above 1, a drag leaves every dragged node on
    the grid: both coordinates are whole, non-negative multiples of the
    grid size. *)
Theorem updateDrag_on_grid (e : PointerEvent) (canvas : Canvas)
    (st st' : Editor) (ds : DragState) :
  dragState st = Some ds → (1 < gridSize (options st))%Q →
  updateDrag e canvas st = (Ok tt, st') →
  ∀ id n, id ∈ drag_nodes ds → jm_get id (nodes st') = Some n →
    ∃ i j : Z,
      (0 <= i)%Z ∧ (0 <= j)%Z
      ∧ (pos_x (node_position n) == inject_Z i * gridSize (options st))%Q
      ∧ (pos_y (node_position n) == inject_Z j * gridSize (options st))%Q.
Proof.
  intros Hds Hg E id n Hin Hn.
  destruct (updateDrag_target e canvas st st' ds id n Hds E Hin Hn)
    as (s & p0 & _ & _ & ->).
  simpl. rewrite !snap_on by done. unfold Math_round.
  assert (0 < gridSize (options st))%Q as Hpos by lra.
  match goal with |- context [Qmax 0 (inject_Z ?z * _)] =>
    destruct (Qmax_0_multiple z _ Hpos) as (i & Hi & Ei) end.
  exists i.
  match goal with |- ∃ j, _ ∧ _ ∧ _ ∧ (Qmax 0 (inject_Z ?z * _) == _)%Q =>
    destruct (Qmax_0_multiple z _ Hpos) as (j & Hj & Ej) end.
  exists j. done.
Qed.

Lemma grid_dragging_state : dragState grid_dragging = Some drag_one.
Proof. vm_compute. reflexivity. Qed.

Lemma grid_dragging_size : (1 < gridSize (options grid_dragging))%Q.
Proof.
  assert (gridSize (options grid_dragging) = 10%Q) as ->
    by (vm_compute; reflexivity).
  reflexivity.
Qed.

Lemma updateDrag_on_grid_witness :
  dragState grid_dragging = Some drag_one
  ∧ ∀ id n, id ∈ drag_nodes drag_one →
      jm_get id (nodes (updateDrag (pointer_at 38 (-7)) plain_canvas
                          grid_dragging).2) = Some n →
      ∃ i j : Z,
        (0 <= i)%Z ∧ (0 <= j)%Z
        ∧ (pos_x (node_position n)
           == inject_Z i * gridSize (options grid_dragging))%Q
        ∧ (pos_y (node_position n)
           == inject_Z j * gridSize (options grid_dragging))%Q.
Proof.
  split; [apply grid_dragging_state|].
  apply (updateDrag_on_grid (pointer_at 38 (-7)) plain_canvas grid_dragging _
           drag_one);
    [apply grid_dragging_state|apply grid_dragging_size
    |apply drag_one_moved, grid_dragging_state].
Defined.




(** ** Centring the view *)

Lemma fold_min (f : Node → Q) (l : list Node) (a : Q) :
  ∃ v, fold_left (λ b n, Math_min b (f n)) l (Some a) = Some v
       ∧ (v <= a)%Q ∧ (∀ n, n ∈ l → (v <= f n)%Q)
       ∧ (v = a ∨ ∃ n, n ∈ l ∧ f n = v).
Proof.
  revert a. induction l as [|n l IH]; intros a; simpl.
  - exists a. split; [done|]. split; [lra|]. split; [|by left].
    by intros n ?%elem_of_nil.
  - destruct (IH (Qmin a (f n))) as (v & E & Hle & Hall & Hex).
    exists v. split; [done|].
    pose proof (Q.le_min_l a (f n)). pose proof (Q.le_min_r a (f n)).
    split; [lra|]. split.
    + intros m [->|Hm]%elem_of_cons; [lra|by apply Hall].
    + destruct Hex as [->|(m & Hm & <-)].
      * unfold Qmin, GenericMinMax.gmin. destruct (a ?= f n)%Q; auto;
          right; exists n; split; (left || done).
      * right. exists m. split; [by right|done].
Qed.

Lemma fold_max (f : Node → Q) (l : list Node) (a : Q) :
  ∃ v, fold_left (λ b n, Math_max b (f n)) l (Some a) = Some v
       ∧ (a <= v)%Q ∧ (∀ n, n ∈ l → (f n <= v)%Q)
       ∧ (v = a ∨ ∃ n, n ∈ l ∧ f n = v).
Proof.
  revert a. induction l as [|n l IH]; intros a; simpl.
  - exists a. split; [done|]. split; [lra|]. split; [|by left].
    by intros n ?%elem_of_nil.
  - destruct (IH (Qmax a (f n))) as (v & E & Hle & Hall & Hex).
    exists v. split; [done|].
    pose proof (Q.le_max_l a (f n)). pose proof (Q.le_max_r a (f n)).
    split; [lra|]. split.
    + intros m [->|Hm]%elem_of_cons; [lra|by apply Hall].
    + destruct Hex as [->|(m & Hm & <-)].
      * unfold Qmax, GenericMinMax.gmax. destruct (a ?= f n)%Q; auto;
          right; exists n; split; (left || done).
      * right. exists m. split; [by right|done].
Qed.

Lemma fold_grow (l : list Node) (b : Bounds) :
  fold_left grow l b
  = mkBounds
      (fold_left (λ b n, Math_min b (node_x n)) l (minX b))
      (fold_left (λ b n, Math_min b (node_y n)) l (minY b))
      (fold_left (λ b n, Math_max b (node_x n + 200)) l (maxX b))
      (fold_left (λ b n, Math_max b (node_y n + 100)) l (maxY b)).
Proof.
  revert b. induction l as [|n l IH]; intros b; simpl; [by destruct b|].
  by rewrite IH.
Qed.

Lemma least_first (f : Node → Q) st n l :
  jm_values (nodes st) = n :: l →
  ∃ v, fold_left (λ b n, Math_min b (f n)) l (Some (f n)) = Some v
       ∧ least f st v.
Proof.
  intros E. destruct (fold_min f l (f n)) as (v & Ev & Hle & Hall & Hex).
  exists v. split; [done|]. unfold least. rewrite E. split.
  - intros m [->|Hm]%elem_of_cons; [done|by apply Hall].
  - destruct Hex as [->|(m & Hm & <-)].
    + exists n. split; [left|done].
    + exists m. split; [by right|done].
Qed.

Lemma greatest_first (f : Node → Q) (c : Q) st n l :
  jm_values (nodes st) = n :: l →
  ∃ v, fold_left (λ b n, Math_max b (f n + c)) l (Some (f n + c)%Q)
       = Some (v + c)%Q
       ∧ greatest f st v.
Proof.
  intros E.
  destruct (fold_max (λ n, f n + c)%Q l (f n + c)%Q)
    as (v & Ev & Hle & Hall & Hex).
  assert (∃ m, m ∈ n :: l ∧ (f m + c)%Q = v) as (m & Hm & <-).
  { destruct Hex as [->|(m & Hm & <-)].
    - exists n. split; [left|done].
    - exists m. split; [by right|done]. }
  exists (f m). split; [done|]. unfold greatest. rewrite E. split.
  - intros m' [->|Hm']%elem_of_cons; [lra|].
    specialize (Hall m' Hm'). simpl in Hall. lra.
  - by exists m.
Qed.

(** X17.  [centerView] on an editor with at least one node asks for the
    scroll position that puts the middle of the nodes' bounding box at the
    middle of the canvas viewport, a node counting as 200 wide and 100
    high: with [x0], [x1] the least and greatest node abscissa and [y0],
    [y1] the least and greatest ordinate, the box runs from [(x0, y0)] to
    [(x1 + 200, y1 + 100)].  On an empty editor nothing is assigned. *)
Theorem centerView_centres (clientWidth clientHeight : Q) (st : Editor) :
  (nodes st = [] → centerView clientWidth clientHeight st = None)
  ∧ (nodes st ≠ [] →
     ∃ x0 x1 y0 y1,
       least node_x st x0 ∧ greatest node_x st x1
       ∧ least node_y st y0 ∧ greatest node_y st y1
       ∧ centerView clientWidth clientHeight st
         = Some (((x0 + (x1 + 200)) / 2 - clientWidth / 2)%Q,
                 ((y0 + (y1 + 100)) / 2 - clientHeight / 2)%Q)).
Proof.
  split; [intros E; unfold centerView; by rewrite E|].
  intros Hne. unfold centerView.
  destruct (nodes st) as [|[k n] ns] eqn:En; [done|].
  assert (jm_values (nodes st) = n :: jm_values ns) as Ev by (by rewrite En).
  rewrite <-En, Ev, fold_grow. simpl.
  change (Math_min None (node_x n)) with (Some (node_x n)).
  change (Math_min None (node_y n)) with (Some (node_y n)).
  change (Math_max None (node_x n + 200)) with (Some (node_x n + 200)%Q).
  change (Math_max None (node_y n + 100)) with (Some (node_y n + 100)%Q).
  destruct (least_first node_x st n _ Ev) as (x0 & -> & Hx0).
  destruct (least_first node_y st n _ Ev) as (y0 & -> & Hy0).
  destruct (greatest_first node_x 200 st n _ Ev) as (x1 & -> & Hx1).
  destruct (greatest_first node_y 100 st n _ Ev) as (y1 & -> & Hy1).
  exists x0, x1, y0, y1. rewrite En. simpl. done.
Qed.

(** ** Documents with edges that lead nowhere *)

Lemma load_nodes_keys (l : list (option NodeData)) idMap st idMap' st' :
  load_nodes l idMap st = (Ok idMap', st') →
  ∀ k, k ∈ idMap'.*1 ↔ k ∈ idMap.*1 ∨ k ∈ document_ids l.
Proof.
  unfold document_ids.
  revert idMap st. induction l as [|[nodeData|] l IH]; intros idMap st; simpl.
  - intros [= <- _] k. rewrite elem_of_nil. tauto.
  - unfold mbind, M_bind.
    destruct (createNode _ _ _ st) as [newId st1]. intros E k.
    rewrite (IH _ _ E k), jm_set_keys. csimpl. rewrite elem_of_cons.
    case_decide as Hk.
    + split; [tauto|]. intros [?|[->|?]]; auto.
    + rewrite elem_of_app, list_elem_of_singleton. tauto.
  - done.
Qed.

Lemma forEach_filter {A} (f : A → M unit) (P : A → Prop)
    `{∀ a, Decision (P a)} (l : list A) st :
  (∀ a st, a ∈ l → ¬ P a → f a st = (Ok tt, st)) →
  forEach f (filter P l) st = forEach f l st.
Proof.
  revert st. induction l as [|a l IH]; intros st Hskip; [done|].
  rewrite filter_cons. simpl. unfold mbind, M_bind.
  assert (∀ st, forEach f (filter P l) st = forEach f l st) as IH'.
  { intros st0. apply IH. intros a' st1 Ha'. apply Hskip. by right. }
  case_decide as HP; simpl.
  - unfold mbind, M_bind. destruct (f a st) as [[[]|msg] st1]; [|done].
    apply IH'.
  - rewrite (Hskip a st) by (done || left). apply IH'.
Qed.

(** X18.  Edge entries that lead nowhere are ignored on load: an entry
    whose source or target is not the id of a node entry of the same
    document creates nothing and raises nothing, so that loading a
    document and loading it without those entries give the same outcome
    and the same editor. *)
Theorem loadWorkflowData_skips_dangling (ns : list (option NodeData))
    (es : list (option EdgeData)) (st : Editor) :
  loadWorkflowData (Some (mkWorkflow (Some ns) (Some es))) st
  = loadWorkflowData
      (Some (mkWorkflow (Some ns)
               (Some (filter (λ entry, ¬ dangling ns entry) es)))) st.
Proof.
  unfold loadWorkflowData, mbind, M_bind.
  destruct (clear st) as [[[]|msg] st0]; [|done].
  unfold load_document. simpl. unfold mbind, M_bind.
  destruct (load_nodes ns [] st0) as [[idMap|msg] st1] eqn:E; [|done].
  symmetry. apply forEach_filter.
  intros [edgeData|] st2 _ Hd; [|exfalso; apply Hd; intros []].
  apply dec_stable in Hd. simpl in Hd.
  pose proof (load_nodes_keys _ _ _ _ _ E) as Hkeys.
  unfold load_edge.
  destruct (jm_get (ed_source edgeData) idMap) as [sourceId|] eqn:Es;
    [|done].
  destruct (jm_get (ed_target edgeData) idMap) as [targetId|] eqn:Et;
    [|done].
  exfalso. destruct Hd as [Hd|Hd]; apply Hd.
  - assert (ed_source edgeData ∈ idMap.*1) as Hin
      by (apply jm_get_is_Some; eauto).
    apply Hkeys in Hin as [[]%elem_of_nil|?]; done.
  - assert (ed_target edgeData ∈ idMap.*1) as Hin
      by (apply jm_get_is_Some; eauto).
    apply Hkeys in Hin as [[]%elem_of_nil|?]; done.
Qed.

(** ** Registering a node type *)

Lemma registerNodeType_store type st :
  (store_ok st → store_ok (registerNodeType type st))
  ∧ (cache_ok st → cache_ok (registerNodeType type st)).
Proof.
  split.
  - intros Hok. by apply (store_ok_same st).
  - intros Hc. split; apply Hc.
Qed.

(** X19.  Registering the types of two nodes is what makes them
    connectable: on a well-formed store, once the type of node [a] and the
    type of node [b] have been registered, [createEdge(a, b)] returns an
    edge id, whatever was registered before. *)
Theorem registerNodeType_enables (a b ta tb : string) (opts : EdgeOptions)
    (st : Editor) :
  store_ok st → cache_ok st →
  node_type_of a st = Some ta → node_type_of b st = Some tb →
  ∃ id st',
    createEdge a b opts (registerNodeType tb (registerNodeType ta st))
    = (Ok (Some id), st')
    ∧ ∃ e, (id, e) ∈ edges st' ∧ edge_source e = a ∧ edge_target e = b.
Proof.
  intros Hok Hc Ha Hb.
  set (st2 := registerNodeType tb (registerNodeType ta st)).
  assert (store_ok st2) as Hok2 by (by do 2 apply registerNodeType_store).
  assert (cache_ok st2) as Hc2 by (by do 2 apply registerNodeType_store).
  unfold node_type_of in Ha, Hb.
  destruct (jm_get a (nodes st)) as [na|] eqn:Ea; [|done].
  destruct (jm_get b (nodes st)) as [nb|] eqn:Eb; [|done].
  simpl in Ha, Hb. injection Ha as <-. injection Hb as <-.
  assert (hooks_ok st2 a b) as Hh.
  { intros n [Hn|Hn]; simpl in Hn;
      apply (jm_get_elem _ _ _ (ok_nodes_nodup st Hok)) in Hn;
      simpl; set_solver. }
  destruct (createEdge_cases a b opts st2 Hok2 Hc2) as (r & st' & E & Hout).
  inversion Hout as [[Hm|Hm]|k e Hin [Hs Ht]|l Hsa Hsb Hnone _
                    |? ? ? Hno]; subst.
  - exfalso. apply Hm. apply jm_get_is_Some. simpl. eauto.
  - exfalso. apply Hm. apply jm_get_is_Some. simpl. eauto.
  - eexists _, _. split; [done|]. by exists e.
  - eexists _, _. split; [done|].
    exists (new_edge a b opts st2). split; [|done]. simpl.
    apply elem_of_app. right. by left.
  - done.
Qed.

Lemma two_ghosts_types :
  node_type_of "node-1" two_ghosts = Some "ghost"
  ∧ node_type_of "node-2" two_ghosts = Some "ghost".
Proof. split; vm_compute; reflexivity. Qed.

Lemma registerNodeType_enables_witness :
  ∃ id st',
    createEdge "node-1" "node-2" no_options
      (registerNodeType "ghost" (registerNodeType "ghost" two_ghosts))
    = (Ok (Some id), st')
    ∧ ∃ e, (id, e) ∈ edges st' ∧ edge_source e = "node-1"
           ∧ edge_target e = "node-2".
Proof.
  apply (registerNodeType_enables "node-1" "node-2" "ghost" "ghost"
           no_options two_ghosts);
    [apply two_ghosts_wf|apply two_ghosts_wf
    |apply two_ghosts_types|apply two_ghosts_types].
Defined.

(** ** Whole sessions *)

Lemma keeps_wf_bind (m1 m2 : M unit) :
  keeps_wf m1 → keeps_wf m2 → keeps_wf (m1;; m2).
Proof.
  intros H1 H2 st st' Hwf. unfold mbind, M_bind.
  destruct (m1 st) as [[[]|msg] st1] eqn:E1; [|done].
  intros E2. eapply H2; [|done]. by eapply H1.
Qed.

Lemma keeps_wf_ret : keeps_wf (mret tt).
Proof. by intros st st' Hwf [= <-]. Qed.

Lemma keeps_wf_modify (f : Editor → Editor) :
  (∀ st, wf st → wf (f st)) → keeps_wf (modify f).
Proof. intros Hf st st' Hwf [= <-]. by apply Hf. Qed.

Lemma keeps_wf_if (b : bool) (m : M unit) :
  keeps_wf m → keeps_wf (if b then m else mret tt).
Proof. intros Hm. destruct b; [done|apply keeps_wf_ret]. Qed.

Lemma deleteSelected_keeps : keeps_wf deleteSelected.
Proof. intros st st' Hwf. by apply deleteSelected_wf. Qed.

Lemma copySelected_keeps : keeps_wf copySelected.
Proof. intros st st' Hwf. by apply copySelected_wf. Qed.

Lemma handleKeyDown_wf e : keeps_wf (handleKeyDown e).
Proof.
  unfold handleKeyDown.
  apply keeps_wf_bind; [apply keeps_wf_if, deleteSelected_keeps|].
  apply keeps_wf_bind; [apply keeps_wf_if, keeps_wf_modify, selectAll_wf|].
  apply keeps_wf_bind;
    [apply keeps_wf_if, keeps_wf_modify, clearSelection_wf|].
  apply keeps_wf_bind; [apply keeps_wf_if, copySelected_keeps|].
  apply keeps_wf_if, keeps_wf_modify, paste_wf.
Qed.

Lemma handleMouseDown_wf e target st : wf st → wf (handleMouseDown e target st).
Proof.
  intros Hwf. destruct target as [nodeId portType|nodeId rect i h| |]; simpl.
  - by apply set_connectionState_wf.
  - destruct (negb i || h); [by apply startDrag_wf|done].
  - by apply clearSelection_wf.
  - done.
Qed.

Lemma handleMouseUp_wf target : keeps_wf (handleMouseUp target).
Proof.
  unfold handleMouseUp. apply keeps_wf_bind.
  - intros st st' Hwf. unfold when_dragging.
    destruct (dragState st); [by apply endDrag_wf|by intros [= <-]].
  - intros st st' Hwf. unfold when_connecting.
    destruct (connectionState st); [by apply endConnection_wf|by intros [= <-]].
Qed.

Lemma processDirtyNodes_wf st : wf st → wf (processDirtyNodes st).2.
Proof.
  intros Hwf. unfold processDirtyNodes.
  destruct (dirtyNodes st); [done|]. simpl.
  apply (wf_same st); try done. apply Hwf.
Qed.

Lemma handle_wf i : keeps_wf (handle i).
Proof.
  destruct i as [e target|e canvas|target|e|nodeId data|edgeId confirmed| |c];
    simpl.
  - apply keeps_wf_modify. intros st. apply handleMouseDown_wf.
  - intros st st' Hwf. unfold handleMouseMove, when_dragging.
    destruct (dragState st); [by apply updateDrag_wf|by intros [= <-]].
  - apply handleMouseUp_wf.
  - apply handleKeyDown_wf.
  - apply keeps_wf_modify. intros st. apply updateNodeData_wf.
  - intros st st' Hwf. unfold selectEdge.
    destruct (jm_get edgeId (edges st)); [|by intros [= <-]].
    destruct confirmed; [|by intros [= <-]].
    destruct (deleteEdge_wf edgeId st Hwf) as (st1 & -> & Hwf1 & _).
    by intros [= <-].
  - apply keeps_wf_modify, processDirtyNodes_wf.
  - intros st st' Hwf. by apply perform_wf.
Qed.





(** ** What a drag picks up *)

(** X21.  What a press on a node picks up.  On a well-formed store, a
    press on a selected node drags the whole selection and leaves the
    selection as it is; a press on a node that is not selected drags that
    node alone and selects it, in addition to the selection when Ctrl or
    Cmd is held and in place of it otherwise.  The pressed node is the
    primary node of the drag either way. *)
Theorem startDrag_selection (e : PointerEvent) (nodeId : string)
    (rect : Rect) (st : Editor) :
  store_ok st → nodeId ∈ (nodes st).*1 →
  ∃ ds,
    dragState (startDrag e nodeId rect st) = Some ds
    ∧ drag_primary ds = nodeId
    ∧ (nodeId ∈ selectedNodes st →
       drag_nodes ds = selectedNodes st
       ∧ selectedNodes (startDrag e nodeId rect st) = selectedNodes st)
    ∧ (nodeId ∉ selectedNodes st →
       drag_nodes ds = [nodeId]
       ∧ selectedNodes (startDrag e nodeId rect st)
         = if ctrlKey e || metaKey e then selectedNodes st ++ [nodeId]
           else [nodeId]).
Proof.
  intros Hok [node Hget]%jm_get_is_Some.
  destruct (ok_node_key st Hok _ _ (jm_get_Some_elem _ _ _ Hget)) as [Hid _].
  unfold startDrag. rewrite Hget. simpl. unfold js_has.
  destruct (decide (nodeId ∈ selectedNodes st)) as [Hsel|Hsel].
  - rewrite !bool_decide_eq_true_2 by done.
    eexists. split; [done|]. by repeat split.
  - rewrite !bool_decide_eq_false_2 by done.
    eexists. split; [by rewrite selectNode_dragState|]. simpl.
    split; [done|]. split; [done|]. intros _. split; [done|].
    unfold selectNode, clearSelection.
    destruct (ctrlKey e || metaKey e); simpl; rewrite Hget;
      rewrite triggerCallback_selectedNodes; simpl.
    + by apply js_add_fresh.
    + done.
Qed.

Lemma fan_selection : selectedNodes fan = ["node-2"].
Proof. vm_compute. reflexivity. Qed.

Lemma startDrag_selection_witness :
  ∃ ds,
    dragState (startDrag (mkPointer 11 11 false false) "node-1"
                 (mkRect 10 10) fan) = Some ds
    ∧ drag_primary ds = "node-1"
    ∧ ("node-1" ∈ selectedNodes fan →
       drag_nodes ds = selectedNodes fan
       ∧ selectedNodes (startDrag (mkPointer 11 11 false false) "node-1"
                          (mkRect 10 10) fan) = selectedNodes fan)
    ∧ ("node-1" ∉ selectedNodes fan →
       drag_nodes ds = ["node-1"]
       ∧ selectedNodes (startDrag (mkPointer 11 11 false false) "node-1"
                          (mkRect 10 10) fan)
         = if ctrlKey (mkPointer 11 11 false false)
              || metaKey (mkPointer 11 11 false false)
           then selectedNodes fan ++ ["node-1"]
           else ["node-1"]).
Proof.
  apply (startDrag_selection (mkPointer 11 11 false false) "node-1"
           (mkRect 10 10) fan);
    [apply fan_wf|rewrite fan_nodes; set_solver].
Defined.

(** ** Updating node data *)

(** X22.  [updateNodeData] merges: the node keeps its id, type and
    position; every key of the new data takes the new value and every other
    key keeps its old one; no other node and no edge changes.  Two updates
    in a row leave the node store as one update with the second data laid
    over the first does.  For an id that is not in the store nothing
    happens at all, no callback included. *)
Theorem updateNodeData_merges (nodeId : string) (data : Obj) (st : Editor) :
  (jm_get nodeId (nodes st) = None → updateNodeData nodeId data st = st)
  ∧ (∀ node, jm_get nodeId (nodes st) = Some node →
       jm_get nodeId (nodes (updateNodeData nodeId data st))
       = Some (mkNode (node_id node) (node_type node) (node_position node)
                 (data ∪ node_data node))
       ∧ ∀ key, (data ∪ node_data node) !! key
                = match data !! key with
                  | Some v => Some v
                  | None => node_data node !! key
                  end)
  ∧ (∀ k, k ≠ nodeId →
       jm_get k (nodes (updateNodeData nodeId data st)) = jm_get k (nodes st))
  ∧ edges (updateNodeData nodeId data st) = edges st
  ∧ (∀ data', nodes (updateNodeData nodeId data'
                       (updateNodeData nodeId data st))
              = nodes (updateNodeData nodeId (data' ∪ data) st)).
Proof.
  assert (∀ d s, nodes (updateNodeData nodeId d s)
                 = jm_alter (merge_data d) nodeId (nodes s)) as Hnodes.
  { intros d s. unfold updateNodeData.
    destruct (jm_get nodeId (nodes s)) as [n|] eqn:E.
    - by rewrite triggerCallback_nodes.
    - symmetry. apply jm_alter_absent. by apply jm_get_None. }
  split; [|split; [|split; [|split]]].
  - intros E. unfold updateNodeData. by rewrite E.
  - intros node E. rewrite Hnodes, jm_get_alter, decide_True by done.
    rewrite E. split; [done|]. intros key. rewrite lookup_union.
    by destruct (data !! key), (node_data node !! key).
  - intros k Hk. by rewrite Hnodes, jm_get_alter, decide_False.
  - unfold updateNodeData. destruct (jm_get nodeId (nodes st)); [|done].
    by rewrite triggerCallback_edges.
  - intros data'. rewrite !Hnodes. generalize (nodes st). intros m.
    induction m as [|[k n] m IH]; simpl; [done|].
    case_decide; simpl.
    + rewrite decide_True by done. unfold merge_data. simpl.
      by rewrite (assoc_L (∪)).
    + rewrite decide_False by done. by rewrite IH.
Qed.

(** ** Examples for the store operations *)

Lemma createEdge_twice_witness :
  ∃ id st1,
    createEdge "node-1" "node-3" no_options fan = (Ok (Some id), st1)
    ∧ createEdge "node-1" "node-3" no_options st1 = (Ok (Some id), st1)
    ∧ ∃ e, (id, e) ∈ edges st1
           ∧ filter (same_pair "node-1" "node-3") (jm_values (edges st1))
             = [e].
Proof.
  apply (createEdge_twice "node-1" "node-3" no_options no_options fan);
    [apply fan_wf|rewrite fan_nodes; set_solver|rewrite fan_nodes; set_solver
    |apply fan_hooks].
Defined.

Lemma one_node_no_loop k e :
  (k, e) ∈ edges one_node → ¬ same_pair "node-1" "node-1" e.
Proof.
  assert (edges one_node = []) as -> by (vm_compute; reflexivity).
  by intros ?%elem_of_nil.
Qed.

Lemma one_node_hooks : hooks_ok one_node "node-1" "node-1".
Proof.
  intros n Hn.
  assert (Forall (λ p, node_type p.2 ∈ nodeTypes one_node) (nodes one_node))
    as Hall.
  { assert (nodeTypes one_node = {[ "default" ]}) as -> by done.
    assert ((λ p, node_type p.2) <$> nodes one_node = ["default"]) as E
      by (vm_compute; reflexivity).
    destruct (nodes one_node) as [|p1 [|]]; try discriminate E.
    injection E as E1. repeat constructor; rewrite ?E1; set_solver. }
  rewrite Forall_forall in Hall. destruct Hn as [Hn|Hn]; apply (Hall _ Hn).
Qed.

Lemma one_node_nodes : (nodes one_node).*1 = ["node-1"].
Proof. vm_compute. reflexivity. Qed.

Lemma createEdge_self_loop_witness :
  ∃ l, createEdge "node-1" "node-1" no_options one_node
       = (Ok (Some (edge_name (edgeIdCounter one_node))),
          edge_created (new_edge "node-1" "node-1" no_options one_node) l
            one_node).
Proof.
  apply (createEdge_self_loop "node-1" no_options one_node);
    [apply one_node_wf|rewrite one_node_nodes; set_solver|apply one_node_hooks
    |apply one_node_no_loop].
Defined.

(** ** The dirty set *)

Lemma grows_refl st : grows st st.
Proof. split; auto. Qed.

Lemma grows_trans st1 st2 st3 : grows st1 st2 → grows st2 st3 → grows st1 st3.
Proof.
  intros [Hn1 Hd1] [Hn2 Hd2]. split; [auto|].
  intros k [Hk|Hk]%Hd2; [|auto]. destruct (Hd1 k Hk); auto.
Qed.

Lemma grows_same st st' :
  (nodes st').*1 = (nodes st).*1 → dirtyNodes st' = dirtyNodes st →
  grows st st'.
Proof. intros Hn Hd. split; intros k; rewrite ?Hn, ?Hd; auto. Qed.

Lemma grows_dirty_ok st st' : grows st st' → dirty_ok st → dirty_ok st'.
Proof. intros [Hn Hd] Hok k [Hk|Hk]%Hd; auto. Qed.

Lemma gentle_keeps_dirty m : gentle m → keeps_dirty m.
Proof. intros Hm st st' Hwf Hd E. eapply grows_dirty_ok; eauto. Qed.

Lemma gentle_ret : gentle (mret tt).
Proof. intros st st' _ [= <-]. apply grows_refl. Qed.

Lemma gentle_modify (f : Editor → Editor) :
  (∀ st, grows st (f st)) → gentle (modify f).
Proof. intros Hf st st' _ [= <-]. apply Hf. Qed.

Lemma gentle_bind (m1 m2 : M unit) :
  keeps_wf m1 → gentle m1 → gentle m2 → gentle (m1;; m2).
Proof.
  intros Hw H1 H2 st st' Hwf. unfold mbind, M_bind.
  destruct (m1 st) as [[[]|msg] st1] eqn:E1; [|done].
  intros E2. eapply grows_trans; [by eapply H1|].
  eapply H2; [|done]. by eapply Hw.
Qed.

Lemma gentle_if (b : bool) (m : M unit) :
  gentle m → gentle (if b then m else mret tt).
Proof. intros Hm. destruct b; [done|apply gentle_ret]. Qed.

Lemma gentle_forEach {A} (f : A → M unit) (l : list A) :
  (∀ a, keeps_wf (f a)) → (∀ a, gentle (f a)) → gentle (forEach f l).
Proof.
  intros Hw Hg. induction l as [|a l IH]; simpl; [apply gentle_ret|].
  by apply gentle_bind.
Qed.

Lemma keeps_dirty_bind (m1 m2 : M unit) :
  keeps_wf m1 → keeps_dirty m1 → keeps_dirty m2 → keeps_dirty (m1;; m2).
Proof.
  intros Hw H1 H2 st st' Hwf Hd. unfold mbind, M_bind.
  destruct (m1 st) as [[[]|msg] st1] eqn:E1; [|done].
  intros E2. eapply H2; [by eapply Hw| |done]. by eapply H1.
Qed.

Lemma keeps_dirty_if (b : bool) (m : M unit) :
  keeps_dirty m → keeps_dirty (if b then m else mret tt).
Proof.
  intros Hm. destruct b; [done|]. apply gentle_keeps_dirty, gentle_ret.
Qed.

Lemma keeps_dirty_forEach {A} (f : A → M unit) (l : list A) :
  (∀ a, keeps_wf (f a)) → (∀ a, keeps_dirty (f a)) →
  keeps_dirty (forEach f l).
Proof.
  intros Hw Hg. induction l as [|a l IH]; simpl.
  - apply gentle_keeps_dirty, gentle_ret.
  - by apply keeps_dirty_bind.
Qed.

Lemma keeps_wf_forEach {A} (f : A → M unit) (l : list A) :
  (∀ a, keeps_wf (f a)) → keeps_wf (forEach f l).
Proof.
  intros Hw. induction l as [|a l IH]; simpl; [apply keeps_wf_ret|].
  by apply keeps_wf_bind.
Qed.

(** *** The methods that leave the dirty set alone *)

Lemma createNode_dirtyNodes type position data st :
  dirtyNodes (createNode type position data st).2 = dirtyNodes st.
Proof.
  unfold createNode.
  destruct (coord_or_random_state
              (arg_x (default (mkPosArg None None) position)) 400
              (set_nodeIdCounter (S (nodeIdCounter st)) st)) as [d1 E1].
  destruct (coord_or_random _ 400 _) as [x st2]. simpl in E1. subst st2.
  destruct (coord_or_random_state
              (arg_y (default (mkPosArg None None) position)) 300
              (set_drawn d1 (set_nodeIdCounter (S (nodeIdCounter st)) st)))
    as [d2 E2].
  destruct (coord_or_random _ 300 _) as [y st3]. simpl in E2. subst st3.
  simpl. by autorewrite with editor.
Qed.

Lemma createNode_grows type position data st :
  grows st (createNode type position data st).2.
Proof.
  split.
  - intros k Hk. rewrite createNode_nodes, jm_set_keys.
    case_decide; [done|]. apply elem_of_app. by left.
  - intros k. rewrite createNode_dirtyNodes. auto.
Qed.

Lemma selectNode_dirtyNodes nodeId multi st :
  dirtyNodes (selectNode nodeId multi st) = dirtyNodes st.
Proof.
  unfold selectNode, clearSelection.
  destruct multi; simpl; case_match; by autorewrite with editor.
Qed.

Lemma selectNode_grows nodeId multi st : grows st (selectNode nodeId multi st).
Proof.
  apply grows_same; [by rewrite selectNode_nodes|apply selectNode_dirtyNodes].
Qed.

Lemma updateNodeData_grows nodeId data st :
  grows st (updateNodeData nodeId data st).
Proof.
  unfold updateNodeData.
  destruct (jm_get nodeId (nodes st)); [|apply grows_refl].
  apply grows_same; autorewrite with editor; simpl; [|done].
  apply jm_alter_keys.
Qed.

Lemma startDrag_grows e nodeId rect st : grows st (startDrag e nodeId rect st).
Proof.
  unfold startDrag. destruct (jm_get nodeId (nodes st)); [|apply grows_refl].
  simpl. case_match; [by apply grows_same|].
  eapply grows_trans; [|apply selectNode_grows]. by apply grows_same.
Qed.

Lemma paste_node_grows nodeData st : grows st (paste_node nodeData st).
Proof.
  unfold paste_node.
  destruct (createNode _ _ _ st) as [newId st1] eqn:E.
  eapply grows_trans; [|apply selectNode_grows].
  change st1 with (newId, st1).2. rewrite <-E. apply createNode_grows.
Qed.

Lemma paste_grows st : grows st (paste st).
Proof.
  unfold paste. destruct (clipboard st) as [cb|]; [|apply grows_refl].
  destruct (clip_nodes cb) as [|c0 l0] eqn:E; [apply grows_refl|].
  rewrite <-E. clear E.
  eapply grows_trans; [by apply (grows_same st (clearSelection st))|].
  generalize (clearSelection st) as st0.
  induction (clip_nodes cb) as [|nd nds IH]; intros st0; simpl;
    [apply grows_refl|].
  eapply grows_trans; [apply paste_node_grows|apply IH].
Qed.

Lemma validateCache_grows st : grows st (validateCache st).2.
Proof.
  unfold validateCache. simpl. case_match; by apply grows_same.
Qed.

(** *** Edges *)

Lemma updateCacheOnEdgeCreate_dirty edge st k :
  k ∈ dirtyNodes (updateCacheOnEdgeCreate edge st) →
  k ∈ dirtyNodes st ∨ k = edge_source edge ∨ k = edge_target edge.
Proof.
  unfold updateCacheOnEdgeCreate. simpl. autorewrite with editor.
  intros [->|[->|?]%js_add_elem]%js_add_elem; auto.
Qed.

Lemma updateCacheOnEdgeCreate_nodes edge st :
  nodes (updateCacheOnEdgeCreate edge st) = nodes st.
Proof. unfold updateCacheOnEdgeCreate. simpl. by autorewrite with editor. Qed.

Lemma createEdge_grows sourceId targetId opts st r st' :
  createEdge sourceId targetId opts st = (r, st') → grows st st'.
Proof.
  unfold createEdge.
  destruct (negb (jm_has sourceId (nodes st))
            || negb (jm_has targetId (nodes st))) eqn:Hhas;
    [intros [= _ <-]; apply grows_refl|].
  apply orb_false_elim in Hhas as [Hs%negb_false_iff%jm_has_true
                                   Ht%negb_false_iff%jm_has_true].
  destruct (list_find _ _) as [[i e0]|];
    [intros [= _ <-]; apply grows_refl|].
  unfold mbind, M_bind, modify, mret, M_ret. simpl.
  match goal with |- context [connect_hooks ?a ?b ?x] =>
    pose proof (connect_hooks_state a b x) as Hst;
    destruct (connect_hooks a b x) as [[[]|msg] st1] end;
    simpl in Hst; subst st1; intros [= _ <-];
    (split;
     [intros k Hk; by rewrite ?triggerCallback_nodes,
                              updateCacheOnEdgeCreate_nodes
     |intros k; rewrite ?triggerCallback_nodes, ?triggerCallback_dirtyNodes,
                        updateCacheOnEdgeCreate_nodes;
      intros [?|[->| ->]]%updateCacheOnEdgeCreate_dirty; auto]).
Qed.

Lemma deleteEdge_grows edgeId st r st' :
  store_ok st → deleteEdge edgeId st = (r, st') → grows st st'.
Proof.
  intros Hok. unfold deleteEdge.
  destruct (jm_get edgeId (edges st)) as [edge|] eqn:Hget;
    [|intros [= _ <-]; apply grows_refl].
  apply jm_get_Some_elem in Hget.
  destruct (ok_edge_ends st Hok _ _ Hget) as [Hs Ht].
  unfold mbind, M_bind, modify. simpl.
  match goal with |- context [disconnect_hooks ?e ?x] =>
    pose proof (disconnect_hooks_state e x) as Hst;
    destruct (disconnect_hooks e x) as [[[]|msg] st1] end;
    simpl in Hst; subst st1; intros [= _ <-];
    (split;
     [intros k Hk; by rewrite ?triggerCallback_nodes
     |intros k; rewrite ?triggerCallback_nodes, ?triggerCallback_dirtyNodes;
      simpl; intros [->|[->|?]%js_add_elem]%js_add_elem; auto]).
Qed.

Lemma deleteEdge_keeps edgeId : keeps_wf (deleteEdge edgeId).
Proof.
  intros st st' Hwf.
  destruct (deleteEdge_wf edgeId st Hwf) as (st1 & -> & Hwf1 & _).
  by intros [= <-].
Qed.

Lemma deleteEdge_gentle edgeId : gentle (deleteEdge edgeId).
Proof. intros st st' Hwf E. eapply deleteEdge_grows; [apply Hwf|done]. Qed.

Lemma createEdge_keeps sourceId targetId opts :
  keeps_wf (createEdge sourceId targetId opts;; mret tt).
Proof.
  intros st st' Hwf. unfold mbind, M_bind.
  destruct (createEdge _ _ _ st) as [[v|msg] st1] eqn:E; [|done].
  intros [= <-]. by eapply createEdge_wf.
Qed.

Lemma createEdge_gentle sourceId targetId opts :
  gentle (createEdge sourceId targetId opts;; mret tt).
Proof.
  intros st st' Hwf. unfold mbind, M_bind.
  destruct (createEdge _ _ _ st) as [[v|msg] st1] eqn:E; [|done].
  intros [= <-]. by eapply createEdge_grows.
Qed.

(** *** Deleting nodes *)

Lemma deleteNode_keeps nodeId : keeps_wf (deleteNode nodeId).
Proof.
  intros st st' Hwf. destruct (deleteNode_wf nodeId st Hwf) as (st1 & -> & ?).
  by intros [= <-].
Qed.

Lemma deleteNode_keeps_dirty nodeId : keeps_dirty (deleteNode nodeId).
Proof.
  intros st st' Hwf Hd. unfold deleteNode.
  destruct (jm_get nodeId (nodes st)) as [node|] eqn:Hget;
    [|by intros [= <-]].
  unfold mbind at 1, M_bind at 1.
  destruct (forEach _ _ st) as [[[]|msg] st1] eqn:E1; [|done].
  assert (grows st st1) as [_ Hd1].
  { eapply (gentle_forEach (λ e, deleteEdge (edge_id e))); [| |done|done].
    - intros e. apply deleteEdge_keeps.
    - intros e. apply deleteEdge_gentle. }
  destruct (forEach_deleteEdge
              (filter (incident nodeId) (jm_values (edges st))) st Hwf)
    as (st1' & E1' & _ & _ & F1).
  rewrite E1 in E1'. injection E1' as <-.
  destruct F1 as (_ & Hn1 & _).
  unfold mbind, M_bind, modify. simpl. intros [= <-] k.
  rewrite triggerCallback_dirtyNodes, triggerCallback_nodes. simpl.
  intros [Hk Hne]%js_delete_elem.
  rewrite jm_delete_keys. apply list_elem_of_filter. split; [done|].
  rewrite Hn1 in Hd1 |- *. destruct (Hd1 k Hk); auto.
Qed.

(** *** Dragging and connecting *)

Lemma forEach_drag_node_grows ds dx dy (l : list string) st r st' :
  forEach (drag_node ds dx dy) l st = (r, st') → grows st st'.
Proof.
  revert st. induction l as [|a l IH]; intros st; simpl.
  - intros [= _ <-]. apply grows_refl.
  - unfold mbind, M_bind. unfold drag_node at 1.
    destruct (jm_get a (nodes st)); [|by apply IH].
    destruct (jm_get a (startPositions ds));
      [|intros [= _ <-]; apply grows_refl].
    intros E%IH. eapply grows_trans; [|done].
    apply grows_same; simpl; [apply jm_alter_keys|done].
Qed.

Lemma updateDrag_grows e canvas st r st' :
  updateDrag e canvas st = (r, st') → grows st st'.
Proof.
  unfold updateDrag.
  destruct (dragState st) as [ds|]; [|intros [= _ <-]; apply grows_refl].
  destruct (jm_get _ _); [|intros [= _ <-]; apply grows_refl].
  apply forEach_drag_node_grows.
Qed.

Lemma forEach_notify_move_grows ds (l : list string) st r st' :
  forEach (notify_move ds) l st = (r, st') → grows st st'.
Proof.
  revert st. induction l as [|a l IH]; intros st; simpl.
  - intros [= _ <-]. apply grows_refl.
  - unfold mbind, M_bind. unfold notify_move at 1.
    destruct (jm_get a (nodes st)); [|by apply IH].
    destruct (jm_get a (startPositions ds));
      [|intros [= _ <-]; apply grows_refl].
    destruct (moved _ _); [|by apply IH].
    intros E%IH. eapply grows_trans; [|done].
    apply grows_same; by autorewrite with editor.
Qed.

Lemma endDrag_grows st r st' : endDrag st = (r, st') → grows st st'.
Proof.
  unfold endDrag.
  destruct (dragState st) as [ds|]; [|intros [= _ <-]; apply grows_refl].
  unfold mbind, M_bind, modify.
  destruct (forEach (notify_move ds) (drag_nodes ds) st) as [[[]|msg] st1]
    eqn:E; intros [= _ <-]; apply forEach_notify_move_grows in E; [|done].
  eapply grows_trans; [done|]. by apply grows_same.
Qed.

Lemma endConnection_gentle target : gentle (endConnection target).
Proof.
  intros st st' Hwf. unfold endConnection.
  destruct (connectionState st) as [cs|];
    [|intros [= <-]; apply grows_refl].
  intros E. revert Hwf E.
  match goal with |- wf st → (?m1;; ?m2) st = _ → _ =>
    apply (gentle_bind m1 m2) end.
  - destruct target as [[t p]|]; [|apply keeps_wf_ret].
    destruct (validateConnection _ _ _ _ st); [|apply keeps_wf_ret].
    case_bool_decide; apply createEdge_keeps.
  - destruct target as [[t p]|]; [|apply gentle_ret].
    destruct (validateConnection _ _ _ _ st); [|apply gentle_ret].
    case_bool_decide; apply createEdge_gentle.
  - apply gentle_modify. intros st0. by apply grows_same.
Qed.

Lemma handleMouseDown_grows e target st : grows st (handleMouseDown e target st).
Proof.
  destruct target as [nodeId portType|nodeId rect i h| |]; simpl.
  - by apply grows_same.
  - destruct (negb i || h); [apply startDrag_grows|apply grows_refl].
  - by apply grows_same.
  - apply grows_refl.
Qed.

Lemma handleMouseUp_keeps_dirty target : keeps_dirty (handleMouseUp target).
Proof.
  apply gentle_keeps_dirty. unfold handleMouseUp. apply gentle_bind.
  - intros st st' Hwf. unfold when_dragging.
    destruct (dragState st); [by apply endDrag_wf|by intros [= <-]].
  - intros st st' Hwf. unfold when_dragging.
    destruct (dragState st); [apply endDrag_grows|].
    intros [= <-]. apply grows_refl.
  - intros st st' Hwf. unfold when_connecting.
    destruct (connectionState st); [by apply endConnection_gentle|].
    intros [= <-]. apply grows_refl.
Qed.

(** *** Selection and clipboard *)

Lemma deleteSelected_keeps_dirty : keeps_dirty deleteSelected.
Proof.
  intros st st' Hwf Hd. unfold deleteSelected. revert Hwf Hd.
  match goal with |- wf st → dirty_ok st → (?m1;; ?m2) st = _ → _ =>
    apply (keeps_dirty_bind m1 m2) end.
  - apply keeps_wf_forEach, deleteNode_keeps.
  - apply keeps_dirty_forEach;
      [apply deleteNode_keeps|apply deleteNode_keeps_dirty].
  - apply gentle_keeps_dirty, gentle_modify. intros st0. by apply grows_same.
Qed.

Lemma clear_keeps_dirty : keeps_dirty clear.
Proof.
  intros st st' Hwf Hd. unfold clear. revert Hwf Hd.
  match goal with |- wf st → dirty_ok st → (?m1;; ?m2) st = _ → _ =>
    apply (keeps_dirty_bind m1 m2) end.
  - apply keeps_wf_forEach, deleteNode_keeps.
  - apply keeps_dirty_forEach;
      [apply deleteNode_keeps|apply deleteNode_keeps_dirty].
  - intros st0 st1 _ Hd0. unfold mbind, M_bind, modify. simpl.
    by intros [= <-].
Qed.

Lemma clear_keeps : keeps_wf clear.
Proof.
  intros st st' Hwf. destruct (clear_wf st Hwf) as (st0 & -> & Hwf0 & _).
  by intros [= <-].
Qed.

Lemma selectAll_grows st : grows st (selectAll st).
Proof. by apply grows_same. Qed.

Lemma clearSelection_grows st : grows st (clearSelection st).
Proof. by apply grows_same. Qed.

Lemma copySelected_gentle : gentle copySelected.
Proof.
  intros st st' _. unfold copySelected, mbind, M_bind.
  pose proof (mapM_copy_node_state (selectedNodes st) st) as Hs.
  destruct (mapM copy_node (selectedNodes st) st) as [[copied|msg] st1];
    simpl in Hs; subst st1; intros [= <-].
  by apply grows_same.
Qed.

Lemma handleKeyDown_keeps_dirty e : keeps_dirty (handleKeyDown e).
Proof.
  unfold handleKeyDown.
  apply keeps_dirty_bind;
    [apply keeps_wf_if, deleteSelected_keeps
    |apply keeps_dirty_if, deleteSelected_keeps_dirty|].
  apply gentle_keeps_dirty.
  apply gentle_bind;
    [apply keeps_wf_if, keeps_wf_modify, selectAll_wf
    |apply gentle_if, gentle_modify, selectAll_grows|].
  apply gentle_bind;
    [apply keeps_wf_if, keeps_wf_modify, clearSelection_wf
    |apply gentle_if, gentle_modify, clearSelection_grows|].
  apply gentle_bind;
    [apply keeps_wf_if, copySelected_keeps
    |apply gentle_if, copySelected_gentle|].
  apply gentle_if, gentle_modify, paste_grows.
Qed.

(** *** Loading a document *)

Lemma load_nodes_grows (l : list (option NodeData)) idMap st r st' :
  load_nodes l idMap st = (r, st') → grows st st'.
Proof.
  revert idMap st. induction l as [|[nd|] l IH]; intros idMap st; simpl.
  - intros [= _ <-]. apply grows_refl.
  - unfold mbind, M_bind.
    destruct (createNode (nd_type nd) (nd_position nd) (nd_data nd) st)
      as [id st1] eqn:E1.
    intros E%IH. eapply grows_trans; [|done].
    change st1 with (id, st1).2. rewrite <-E1. apply createNode_grows.
  - intros [= _ <-]. apply grows_refl.
Qed.

Lemma load_edge_keeps idMap entry : keeps_wf (load_edge idMap entry).
Proof.
  destruct entry as [ed|]; simpl; [|by intros st st' _].
  destruct (jm_get (ed_source ed) idMap) as [s|]; [|apply keeps_wf_ret].
  destruct (jm_get (ed_target ed) idMap) as [t|]; [|apply keeps_wf_ret].
  apply createEdge_keeps.
Qed.

Lemma load_edge_gentle idMap entry : gentle (load_edge idMap entry).
Proof.
  destruct entry as [ed|]; simpl; [|by intros st st' _].
  destruct (jm_get (ed_source ed) idMap) as [s|]; [|apply gentle_ret].
  destruct (jm_get (ed_target ed) idMap) as [t|]; [|apply gentle_ret].
  apply createEdge_gentle.
Qed.

Lemma load_document_gentle data : gentle (load_document data).
Proof.
  intros st st' Hwf. destruct data as [d|]; [|done]. simpl.
  unfold mbind, M_bind.
  assert (∀ idMap st1, wf st1 → grows st st1 →
            match wd_edges d with
            | Some l => forEach (load_edge idMap) l
            | None => mret tt
            end st1 = (Ok tt, st') → grows st st') as Hedges.
  { intros idMap st1 Hwf1 Hg1 E. eapply grows_trans; [done|].
    destruct (wd_edges d) as [le|].
    - eapply (gentle_forEach (load_edge idMap)); [| |done|done].
      + apply load_edge_keeps.
      + apply load_edge_gentle.
    - injection E as <-. apply grows_refl. }
  destruct (wd_nodes d) as [ln|].
  - destruct (load_nodes ln [] st) as [[idMap|msg] st1] eqn:E1; [|done].
    apply Hedges; [by eapply load_nodes_wf|by eapply load_nodes_grows].
  - simpl. apply Hedges; [done|apply grows_refl].
Qed.

Lemma loadWorkflowData_keeps_dirty data : keeps_dirty (loadWorkflowData data).
Proof.
  unfold loadWorkflowData. apply keeps_dirty_bind.
  - apply clear_keeps.
  - apply clear_keeps_dirty.
  - apply gentle_keeps_dirty, load_document_gentle.
Qed.

(** *** Every input *)

Lemma perform_keeps_dirty c : keeps_dirty (perform c).
Proof.
  destruct c; simpl.
  - apply gentle_keeps_dirty. intros st st' _ [= <-]. apply createNode_grows.
  - apply gentle_keeps_dirty, gentle_modify, updateNodeData_grows.
  - apply deleteNode_keeps_dirty.
  - apply gentle_keeps_dirty, createEdge_gentle.
  - apply gentle_keeps_dirty, deleteEdge_gentle.
  - apply gentle_keeps_dirty, gentle_modify. intros st. by apply grows_same.
  - apply gentle_keeps_dirty, gentle_modify, validateCache_grows.
  - apply gentle_keeps_dirty, gentle_modify, selectNode_grows.
  - apply gentle_keeps_dirty, gentle_modify, selectAll_grows.
  - apply gentle_keeps_dirty, gentle_modify, clearSelection_grows.
  - apply deleteSelected_keeps_dirty.
  - apply gentle_keeps_dirty, gentle_modify, startDrag_grows.
  - apply gentle_keeps_dirty. intros st st' _. apply updateDrag_grows.
  - apply gentle_keeps_dirty. intros st st' _. apply endDrag_grows.
  - apply gentle_keeps_dirty, gentle_modify. intros st. by apply grows_same.
  - apply gentle_keeps_dirty, endConnection_gentle.
  - apply gentle_keeps_dirty, copySelected_gentle.
  - apply gentle_keeps_dirty, gentle_modify, paste_grows.
  - apply clear_keeps_dirty.
  - apply loadWorkflowData_keeps_dirty.
Qed.

Lemma handle_keeps_dirty i : keeps_dirty (handle i).
Proof.
  destruct i as [e target|e canvas|target|e|nodeId data|edgeId confirmed| |c];
    simpl.
  - apply gentle_keeps_dirty, gentle_modify, handleMouseDown_grows.
  - apply gentle_keeps_dirty. intros st st' _.
    unfold handleMouseMove, when_dragging.
    destruct (dragState st); [apply updateDrag_grows|].
    intros [= <-]. apply grows_refl.
  - apply handleMouseUp_keeps_dirty.
  - apply handleKeyDown_keeps_dirty.
  - apply gentle_keeps_dirty, gentle_modify, updateNodeData_grows.
  - apply gentle_keeps_dirty. intros st st' Hwf. unfold selectEdge.
    destruct (jm_get edgeId (edges st));
      [|intros [= <-]; apply grows_refl].
    destruct confirmed; [|intros [= <-]; apply grows_refl].
    by apply deleteEdge_gentle.
  - intros st st' _ _ [= <-] k. unfold processDirtyNodes.
    destruct (dirtyNodes st) eqn:E; simpl; rewrite ?E;
      by intros ?%elem_of_nil.
  - apply perform_keeps_dirty.
Qed.

Lemma processDirtyNodes_live st :
  dirty_ok st →
  (processDirtyNodes st).1
  = (λ nodeId, (nodeId, getConnectionDataCached nodeId st)) <$> dirtyNodes st.
Proof.
  intros Hd. unfold processDirtyNodes.
  destruct (dirtyNodes st) as [|k0 l0] eqn:E; [done|]. rewrite <-E.
  simpl. clear E. unfold dirty_ok in Hd.
  induction (dirtyNodes st) as [|k l IH]; [done|].
  assert (k ∈ (nodes st).*1) as [n Hn]%jm_get_is_Some by (apply Hd; set_solver).
  simpl. rewrite Hn. simpl. f_equal. apply IH. intros k' Hk'. apply Hd.
  set_solver.
Qed.

(** X29.  The batch refresh reaches every node it was asked to refresh.
    After any session that starts from a new editor and in which no
    handler raises, every node in the dirty set is in the node store; so
    [processDirtyNodes] skips none of them as missing: it takes one
    snapshot of the connections for each dirty node, in the order of the
    dirty set, and leaves the dirty set empty and the stores as they
    were. *)
Theorem processDirtyNodes_complete (o : Options) (rnd : nat → Q)
    (inputs : list Input) (st' : Editor) :
  session inputs (new_editor o rnd) = (Ok tt, st') →
  (∀ k, k ∈ dirtyNodes st' → k ∈ (nodes st').*1)
  ∧ (processDirtyNodes st').1
    = (λ nodeId, (nodeId, getConnectionDataCached nodeId st'))
        <$> dirtyNodes st'
  ∧ dirtyNodes (processDirtyNodes st').2 = []
  ∧ nodes (processDirtyNodes st').2 = nodes st'
  ∧ edges (processDirtyNodes st').2 = edges st'.
Proof.
  intros E.
  assert (dirty_ok st') as Hd.
  { eapply (keeps_dirty_forEach handle); [| | | |exact E].
    - apply handle_wf.
    - apply handle_keeps_dirty.
    - apply new_editor_wf.
    - by intros k ?%elem_of_nil. }
  split; [done|]. split; [by apply processDirtyNodes_live|].
  unfold processDirtyNodes. by destruct (dirtyNodes st') eqn:Hdn.
Qed.

Lemma linking_session_runs :
  session linking_session (new_editor demo_options half)
  = (Ok tt, (session linking_session (new_editor demo_options half)).2).
Proof. vm_compute. reflexivity. Qed.

Lemma processDirtyNodes_complete_witness :
  (∀ k, k ∈ dirtyNodes
              (session linking_session (new_editor demo_options half)).2 →
        k ∈ (nodes
               (session linking_session (new_editor demo_options half)).2).*1)
  ∧ (processDirtyNodes
       (session linking_session (new_editor demo_options half)).2).1
    = (λ nodeId,
         (nodeId,
          getConnectionDataCached nodeId
            (session linking_session (new_editor demo_options half)).2))
        <$> dirtyNodes
              (session linking_session (new_editor demo_options half)).2
  ∧ dirtyNodes
      (processDirtyNodes
         (session linking_session (new_editor demo_options half)).2).2 = []
  ∧ nodes
      (processDirtyNodes
         (session linking_session (new_editor demo_options half)).2).2
    = nodes (session linking_session (new_editor demo_options half)).2
  ∧ edges
      (processDirtyNodes
         (session linking_session (new_editor demo_options half)).2).2
    = edges (session linking_session (new_editor demo_options half)).2.
Proof.
  apply (processDirtyNodes_complete demo_options half linking_session).
  apply linking_session_runs.
Defined.

(** ** Creating an edge and deleting it again *)

Lemma jm_alter_swap {K V} `{EqDecision K} (f g : V → V) (k k' : K)
    (m : list (K * V)) :
  (∀ v, f (g v) = g (f v)) →
  jm_alter f k (jm_alter g k' m) = jm_alter g k' (jm_alter f k m).
Proof.
  intros Hfg. induction m as [|[k0 v0] m IH]; simpl; [done|].
  destruct (decide (k = k0)) as [Hk|Hk], (decide (k' = k0)) as [Hk'|Hk'];
    simpl.
  - by rewrite !decide_True, Hfg by done.
  - by rewrite decide_True, decide_False by done.
  - by rewrite decide_False, decide_True by done.
  - by rewrite !decide_False, IH by done.
Qed.

Lemma jm_alter_cancel {K V} `{EqDecision K} (f g : V → V) (k : K)
    (m : list (K * V)) :
  (∀ v, jm_get k m = Some v → g (f v) = v) →
  jm_alter g k (jm_alter f k m) = m.
Proof.
  induction m as [|[k0 v0] m IH]; simpl; [done|].
  destruct (decide (k = k0)); simpl; intros Hv.
  - rewrite decide_True by done. by rewrite Hv.
  - rewrite decide_False by done. by rewrite IH.
Qed.

Lemma js_delete_add {A} `{EqDecision A} (a : A) (s : list A) :
  a ∉ s → js_delete a (js_add a s) = s.
Proof.
  intros Ha. unfold js_add, js_has, js_delete.
  rewrite bool_decide_eq_false_2 by done.
  rewrite filter_app, filter_cons, decide_False by (by intros []).
  rewrite filter_nil, app_nil_r.
  induction s as [|b s IH]; [done|].
  apply not_elem_of_cons in Ha as [Hne Ha].
  rewrite filter_cons, decide_True by done. by rewrite IH.
Qed.

Lemma fresh_edge_uncached st k c :
  store_ok st → cache_ok st → jm_get k (connectionCache st) = Some c →
  (edge_name (edgeIdCounter st) ∉ inputs c)
  ∧ (edge_name (edgeIdCounter st) ∉ outputs c).
Proof.
  intros Hok Hc Hget. pose proof (fresh_edge_name st Hok) as Hfresh.
  destruct (ok_cache_sets st Hc k c Hget) as [-> ->].
  unfold in_ids, out_ids.
  split; intros (e & Heq & [_ [k' Hin]%jm_values_elem]%list_elem_of_filter)
                  %list_elem_of_fmap;
    destruct (ok_edge_key st Hok _ _ Hin) as [Hid _];
    apply Hfresh, jm_keys_elem; exists e; by rewrite Heq, Hid.
Qed.

(** X30.  Creating an edge and deleting it again.  On a well-formed editor,
    for two live nodes of registered types with no edge from the first to
    the second, [createEdge] returns the next edge id and [deleteEdge] of
    that id then puts the node store, the edge store, the connection cache
    and the selection back exactly as they were.  What stays is the edge
    counter, one higher, so the id is not handed out again, and the two
    endpoints in the dirty set. *)
Theorem createEdge_deleteEdge_restores (a b : string) (opts : EdgeOptions)
    (st : Editor) :
  wf st → a ∈ (nodes st).*1 → b ∈ (nodes st).*1 → hooks_ok st a b →
  (∀ k e, (k, e) ∈ edges st → ¬ same_pair a b e) →
  ∃ st1 st2,
    createEdge a b opts st = (Ok (Some (edge_name (edgeIdCounter st))), st1)
    ∧ deleteEdge (edge_name (edgeIdCounter st)) st1 = (Ok tt, st2)
    ∧ nodes st2 = nodes st
    ∧ edges st2 = edges st
    ∧ connectionCache st2 = connectionCache st
    ∧ selectedNodes st2 = selectedNodes st
    ∧ edgeIdCounter st2 = S (edgeIdCounter st)
    ∧ (∀ k, k ∈ dirtyNodes st2 ↔ k ∈ dirtyNodes st ∨ k = a ∨ k = b).
Proof.
  intros (Hok & Hc & Hty) Ha Hb Hh Hn.
  pose proof (fresh_edge_name st Hok) as Hfresh.
  destruct (createEdge_new a b opts st Hok Hc Ha Hb) as [Hnew _].
  { apply list_find_None, Forall_forall.
    intros e [k He]%jm_values_elem. by apply (Hn k). }
  destruct (Hnew Hh) as [l E1]. clear Hnew.
  set (edge := new_edge a b opts st) in *.
  set (st1 := edge_created edge l st) in *.
  destruct (deleteEdge_post edge st1) as [l' E2].
  { simpl. rewrite jm_get_app.
    rewrite (proj2 (jm_get_None _ _) Hfresh). simpl.
    by rewrite decide_True. }
  { intros n Hin. by apply Hh. }
  exists st1, (edge_deleted edge l' st1).
  split; [done|]. split; [done|]. simpl.
  split; [done|]. split; [|split; [|split; [done|split; [done|]]]].
  - unfold jm_delete. rewrite filter_app, filter_cons. simpl.
    rewrite decide_False by (by intros []).
    rewrite filter_nil, app_nil_r. by apply jm_delete_absent.
  - rewrite (jm_alter_swap (del_output _) (add_input _)) by done.
    rewrite (jm_alter_cancel (add_output _) (del_output _)).
    + apply jm_alter_cancel. intros c Hget.
      destruct (fresh_edge_uncached st b c Hok Hc Hget) as [Hi _].
      destruct c as [ins outs]. unfold add_input, del_input. simpl in *.
      by rewrite js_delete_add.
    + intros c Hget.
      destruct (fresh_edge_uncached st a c Hok Hc Hget) as [_ Ho].
      destruct c as [ins outs]. unfold add_output, del_output. simpl in *.
      by rewrite js_delete_add.
  - intros k. rewrite !js_add_elem. naive_solver.
Qed.

Lemma createEdge_deleteEdge_restores_witness :
  ∃ st1 st2,
    createEdge "node-1" "node-3" no_options fan
    = (Ok (Some (edge_name (edgeIdCounter fan))), st1)
    ∧ deleteEdge (edge_name (edgeIdCounter fan)) st1 = (Ok tt, st2)
    ∧ nodes st2 = nodes fan
    ∧ edges st2 = edges fan
    ∧ connectionCache st2 = connectionCache fan
    ∧ selectedNodes st2 = selectedNodes fan
    ∧ edgeIdCounter st2 = S (edgeIdCounter fan)
    ∧ (∀ k, k ∈ dirtyNodes st2
            ↔ k ∈ dirtyNodes fan ∨ k = "node-1" ∨ k = "node-3").
Proof.
  apply (createEdge_deleteEdge_restores "node-1" "node-3" no_options fan);
    [apply fan_wf|rewrite fan_nodes; set_solver|rewrite fan_nodes; set_solver
    |apply fan_hooks|].
  intros k e Hin Hs. apply (fan_free k e Hin). by right.
Defined.
